(** * Marketing drip-campaign scheduler: shallow embedding and properties

  The development embeds [src/lib/tokens.js] (the token renderer
  [fillTokens]) and the marketing part of [src/lib/extract.js]
  ([enrollContacts], [withinQuietHours], [chooseVariant], [buildContent],
  [rateLimiterState], [marketingTick]) and proves the properties the
  specification states about them.

  It further embeds the rest of these files and the routes built on them:
  [guessCategory] and [heuristicExtract], [ensureMarketingSchema],
  [createCampaign] and [sendEmailAdapter] of [src/lib/extract.js], the
  handlers of the tick route, the provider webhook, the enroll route and the
  campaigns route, and [textToBasicHTML] of the send route, and proves
  properties read off the code: what each leaves unchanged, its behaviour
  at the edges and on errors, and how the operations compose.

  Conventions of the embedding.
  - A JavaScript string is a [string] of code units; case mapping and
    white space are those of the ASCII range (units above 127 are left
    alone by [toUpperCase], [toLowerCase] and [trim]).
  - A [Date] is its number of milliseconds since the epoch, a [Z]; the ISO
    text the code stores ([toISOString]) is fixed-width, so the order SQLite
    uses on it is the order of these numbers.  Local time is UTC shifted by
    a fixed offset of the host ([tzOffsetMs]).
  - An SQL table is the list of its rows in rowid order.
  - What a run cannot decide by itself comes from its [Host]: the readings
    of the clock, the random draws, the ids, the environment variables and
    the email transport.  A computation threads the database and the number
    of readings, draws and ids taken so far, and either returns or throws. *)

From Stdlib Require Import ZArith Lia Ascii Decimal DecimalString DecimalPos DecimalZ Permutation.
From stdpp Require Import base option list gmap strings fin_maps.

Local Open Scope Z_scope.

(* ===================================================================== *)
(** ** JavaScript string primitives *)
(* ===================================================================== *)

Module Js.

(** [s.length] *)
Definition len (s : string) : nat := String.length s.

(** [s.indexOf(pat, from)]; [None] stands for [-1]. *)
Definition indexOf (pat s : string) (from : nat) : option nat :=
  String.index from pat s.

(** [s.slice(a, b)] for [0 <= a], [0 <= b]. *)
Definition slice (s : string) (a b : nat) : string :=
  String.substring a (b - a) s.

(** [s.slice(a)] *)
Definition sliceFrom (s : string) (a : nat) : string :=
  String.substring a (len s - a) s.

Definition isSpace (c : ascii) : bool :=
  let n := nat_of_ascii c in
  ((9 <=? n)%nat && (n <=? 13)%nat) || (n =? 32)%nat.

Fixpoint trimStart (s : string) : string :=
  match s with
  | EmptyString => EmptyString
  | String c s' => if isSpace c then trimStart s' else s
  end.

(** Drops trailing white space; the fold keeps a character when it is not
    white space or when something is kept after it. *)
Fixpoint trimEnd (s : string) : string :=
  match s with
  | EmptyString => EmptyString
  | String c s' =>
      match trimEnd s' with
      | EmptyString => if isSpace c then EmptyString else String c EmptyString
      | r => String c r
      end
  end.

(** [s.trim()] *)
Definition trim (s : string) : string := trimEnd (trimStart s).

Definition upperChar (c : ascii) : ascii :=
  let n := nat_of_ascii c in
  if ((97 <=? n)%nat && (n <=? 122)%nat) then ascii_of_nat (n - 32) else c.

Definition lowerChar (c : ascii) : ascii :=
  let n := nat_of_ascii c in
  if ((65 <=? n)%nat && (n <=? 90)%nat) then ascii_of_nat (n + 32) else c.

Fixpoint mapChars (f : ascii -> ascii) (s : string) : string :=
  match s with
  | EmptyString => EmptyString
  | String c s' => String (f c) (mapChars f s')
  end.

(** [s.toUpperCase()], [s.toLowerCase()] *)
Definition toUpperCase : string -> string := mapChars upperChar.
Definition toLowerCase : string -> string := mapChars lowerChar.

(** [s.split(sep)] for a one-character separator: the pieces between the
    separators, empty pieces included; the code's own loop over [raw] with [buf]
    and [parts.push] computes the same pieces for ["|"]. *)
Fixpoint splitAux (sep : ascii) (s : string) (buf : string) : list string :=
  match s with
  | EmptyString => [buf]
  | String c s' =>
      if Ascii.eqb c sep then buf :: splitAux sep s' EmptyString
      else splitAux sep s' (buf +:+ String c EmptyString)
  end.

Definition split (sep : ascii) (s : string) : list string :=
  splitAux sep s EmptyString.

(** [words.join(sep)] *)
Fixpoint join (sep : string) (l : list string) : string :=
  match l with
  | [] => EmptyString
  | [x] => x
  | x :: r => x +:+ sep +:+ join sep r
  end.

(** [s.replace(/\n/g, by)] *)
Fixpoint replaceNewlines (by_ : string) (s : string) : string :=
  match s with
  | EmptyString => EmptyString
  | String c s' =>
      if Ascii.eqb c "010"%char then by_ +:+ replaceNewlines by_ s'
      else String c (replaceNewlines by_ s')
  end.

(** The suffix of [s] from position [k]. *)
Fixpoint sdrop (k : nat) (s : string) : string :=
  match k, s with
  | O, _ => s
  | S k', EmptyString => EmptyString
  | S k', String _ s' => sdrop k' s'
  end.

(** Every character of [s] passes the test [p]. *)
Fixpoint allChars (p : ascii → bool) (s : string) : bool :=
  match s with
  | EmptyString => true
  | String c s' => p c && allChars p s'
  end.

(** A decimal digit or the minus sign. *)
Definition numChar (c : ascii) : bool :=
  let n := nat_of_ascii c in
  ((48 <=? n)%nat && (n <=? 57)%nat) || (n =? 45)%nat.

(** A value found in a variable object: [undefined], [null] or a string. *)
Inductive value := Undefined | Null | Str (s : string).

End Js.

(* ===================================================================== *)
(** ** src/lib/tokens.js *)
(* ===================================================================== *)

Module Tokens.
Import Js.

Abbreviation vars := (gmap string value).

Inductive transform := Upper | Lower | Title | Trim.

(** [["upper","lower","title","trim"].includes(low)] with the transform it
    names. *)
Definition transformOf (low : string) : option transform :=
  if String.eqb low "upper" then Some Upper
  else if String.eqb low "lower" then Some Lower
  else if String.eqb low "title" then Some Title
  else if String.eqb low "trim" then Some Trim
  else None.

(** The loop [for (const p of parts)] : transforms in order, and the first
    part that is no transform as the default. *)
Fixpoint scanParts (parts : list string) (def : option string)
    (transforms : list transform) : option string * list transform :=
  match parts with
  | [] => (def, transforms)
  | p :: rest =>
      match transformOf (toLowerCase p) with
      | Some t => scanParts rest def (transforms ++ [t])
      | None =>
          match def with
          | None => scanParts rest (Some p) transforms
          | Some _ => scanParts rest def transforms
          end
      end
  end.

(** One word of the [title] transform. *)
Definition titleWord (word : string) : string :=
  match word with
  | EmptyString => word
  | String c rest => String (upperChar c) (toLowerCase rest)
  end.

Definition applyTransform (s : string) (t : transform) : string :=
  match t with
  | Trim => trim s
  | Upper => toUpperCase s
  | Lower => toLowerCase s
  | Title => join " " (map titleWord (split " "%char s))
  end.

(** [hasOwnProperty(vars, name) ? vars[name] : undefined] *)
Definition lookupVar (vs : vars) (name : string) : value :=
  match vs !! name with
  | Some v => v
  | None => Undefined
  end.

(** The body of the loop of [fillTokens] from [raw] to [s]: what one
    placeholder with inner text [raw] (already trimmed) expands to. *)
Definition expand (raw : string) (vs : vars) : string :=
  let parts := map trim (split "|"%char raw) in
  let name := hd EmptyString parts in
  let '(def, transforms) := scanParts (tl parts) None [] in
  let s :=
    match lookupVar vs name with
    | Str (String c r) => String c r
    | _ => match def with Some d => d | None => EmptyString end
    end in
  fold_left applyTransform transforms s.

(** The [while (i < template.length)] loop; every turn moves [i] forward
    by at least four, so [fuel] bounded by the length never runs out. *)
Fixpoint fillLoop (fuel : nat) (template : string) (vs : vars)
    (i : nat) (out : string) : string :=
  match fuel with
  | O => out
  | S fuel' =>
      if (i <? len template)%nat then
        match indexOf "{{" template i with
        | None => out +:+ sliceFrom template i
        | Some start =>
            let out1 := out +:+ slice template i start in
            match indexOf "}}" template (start + 2) with
            | None => out1 +:+ sliceFrom template start
            | Some end_ =>
                let raw := trim (slice template (start + 2) end_) in
                fillLoop fuel' template vs (end_ + 2) (out1 +:+ expand raw vs)
            end
        end
      else out
  end.

(** [fillTokens(template, vars)]; on the empty template the loop makes no
    turn and the result is the empty text, which is what the guard
    at the head of the source returns. *)
Definition fillTokens (template : string) (vs : vars) : string :=
  fillLoop (len template) template vs 0 EmptyString.

(** The rule of resolution in the words of the specification: the default is
    the first modifier that is no transform, the value is looked up and
    replaced by the default when absent, null or empty, and the transforms
    are applied from left to right. *)
Definition isTransform (m : string) : bool :=
  match transformOf (toLowerCase m) with Some _ => true | None => false end.

Definition specDefault (mods : list string) : string :=
  match List.find (λ m, negb (isTransform m)) mods with
  | Some d => d
  | None => EmptyString
  end.

Definition specTransforms (mods : list string) : list transform :=
  omap (λ m, transformOf (toLowerCase m)) mods.

Definition specValue (vs : vars) (name default : string) : string :=
  match vs !! name with
  | None | Some Undefined | Some Null | Some (Str EmptyString) => default
  | Some (Str s) => s
  end.

Definition specResolve (name : string) (mods : list string) (vs : vars) : string :=
  fold_left applyTransform (specTransforms mods) (specValue vs name (specDefault mods)).

End Tokens.

(* ===================================================================== *)
(** ** JavaScript numbers and dates *)
(* ===================================================================== *)

Module JsNum.
Import Js.

(** A number the scheduler computes with: an integer, or [NaN]. *)
Inductive num := NaN | Num (z : Z).

(** [Number(s)] for the texts a configuration row holds: white space is
    trimmed, the empty text is [0], a decimal integer with an optional sign is
    its value, and anything else is [NaN] (fractions, exponents and hexadecimal
    numerals are outside this embedding). *)
Definition Number (s : string) : num :=
  match trim s with
  | EmptyString => Num 0
  | String c r =>
      let parsed :=
        if Ascii.eqb c "+" then option_map Decimal.Pos (NilZero.uint_of_string r)
        else NilZero.int_of_string (String c r) in
      match parsed with
      | Some d => Num (Z.of_int d)
      | None => NaN
      end
  end.

(** [String(n)] *)
Definition toStr (n : num) : string :=
  match n with
  | NaN => "NaN"
  | Num z => NilZero.string_of_int (Z.to_int z)
  end.

Definition add (a b : num) : num :=
  match a, b with
  | Num x, Num y => Num (x + y)
  | _, _ => NaN
  end.

(** [a > b], [a <= b], [a >= b], [a < b]: false as soon as one side is [NaN]. *)
Definition gt (a b : num) : bool :=
  match a, b with Num x, Num y => y <? x | _, _ => false end.
Definition le (a b : num) : bool :=
  match a, b with Num x, Num y => x <=? y | _, _ => false end.
Definition ge (a b : num) : bool := le b a.
Definition lt (a b : num) : bool := gt b a.

Definition isNaN (a : num) : bool :=
  match a with NaN => true | Num _ => false end.

End JsNum.

Module JsDate.
Import Js JsNum.

Definition msPerMinute : Z := 60000.
Definition msPerHour : Z := 3600000.
Definition msPerDay : Z := 86400000.

(** Year, month (1..12) and day of the month of a day number counted from
    1970-01-01, in the proleptic Gregorian calendar. *)
Definition civilFromDays (days : Z) : Z * Z * Z :=
  let z := days + 719468 in
  let era := z / 146097 in
  let doe := z - era * 146097 in
  let yoe := (doe - doe / 1460 + doe / 36524 - doe / 146096) / 365 in
  let doy := doe - (365 * yoe + yoe / 4 - yoe / 100) in
  let mp := (5 * doy + 2) / 153 in
  let d := doy - (153 * mp + 2) / 5 + 1 in
  let m := if mp <? 10 then mp + 3 else mp - 9 in
  let y := yoe + era * 400 in
  (if m <=? 2 then y + 1 else y, m, d).

(** [getUTCHours()] *)
Definition getUTCHours (t : Z) : Z := (t / msPerHour) mod 24.

(** [getHours()] in a zone [tz] milliseconds ahead of UTC. *)
Definition getHours (tz t : Z) : Z := ((t + tz) / msPerHour) mod 24.

(** [d.setMinutes(d.getMinutes() + m)] *)
Definition addMinutes (t m : Z) : Z := t + m * msPerMinute.

(** [d.setDate(d.getDate() + 1); d.setHours(h, 0, 0, 0)]: the next local day
    at [h] o'clock. *)
Definition tomorrowAt (tz t h : Z) : Z :=
  let l := t + tz in
  (l - l mod msPerDay) + msPerDay + h * msPerHour - tz.

Definition monthNames : list string :=
  ["January"; "February"; "March"; "April"; "May"; "June"; "July";
   "August"; "September"; "October"; "November"; "December"].

(** [toLocaleString("en-US", { month: "long" })] *)
Definition monthLong (tz t : Z) : string :=
  let '(_, m, _) := civilFromDays ((t + tz) / msPerDay) in
  nth (Z.to_nat (m - 1)) monthNames EmptyString.

(** The text [`${getUTCFullYear()}-${getUTCMonth()+1}-${getUTCDate()}-${getUTCHours()}`] *)
Definition hourBucket (t : Z) : string :=
  let '(y, m, d) := civilFromDays (t / msPerDay) in
  toStr (Num y) +:+ "-" +:+ toStr (Num m) +:+ "-" +:+ toStr (Num d)
    +:+ "-" +:+ toStr (Num (getUTCHours t)).

End JsDate.

(* ===================================================================== *)
(** ** src/lib/marketing.js: the store *)
(* ===================================================================== *)

Module Marketing.
Import Js JsNum JsDate Tokens.

(** [marketing_enrollments.status] *)
Inductive status := active | completed | paused | error.

Definition status_eqb (a b : status) : bool :=
  match a, b with
  | active, active | completed, completed | paused, paused | error, error => true
  | _, _ => false
  end.

(** A row of [marketing_campaign_steps], with the columns the scheduler reads. *)
Record Step := mkStep {
  s_campaign_id : string;
  s_step_order : Z;
  s_delay_minutes : option Z;
  s_subject : option string;
  s_body : option string;
  s_subject_b : option string;
  s_body_b : option string;
  s_weight_b : option Z
}.

(** A row of [marketing_enrollments]. [e_data_json] is the parsed snapshot. *)
Record Enrollment := mkEnrollment {
  e_id : string;
  e_campaign_id : string;
  e_contact_id : string;
  e_status : status;
  e_next_step_order : Z;
  e_next_run_at : Z;
  e_last_sent_at : option Z;
  e_variant_json : option string;
  e_data_json : option vars;
  e_created_at : Z;
  e_updated_at : Z
}.

Inductive variant := A | B.

(** A row of [marketing_sends]; [m_meta] is the variant of [{ variant }]. *)
Record Send := mkSend {
  m_id : string;
  m_contact_id : string;
  m_campaign_id : string;
  m_step_order : Z;
  m_provider : string;
  m_provider_id : option string;
  m_status : string;
  m_subject : string;
  m_body : string;
  m_to_email : option string;
  m_meta : variant;
  m_sent_at : Z;
  m_updated_at : Z
}.

(** A row of [contacts], with the columns the join selects. *)
Record Contact := mkContact {
  c_id : string;
  c_email : option string;
  c_first_name : option string;
  c_last_name : option string;
  c_company : option string
}.

(** The database: each table as its rows, [marketing_config] as a map and
    [marketing_suppressions] as the contact ids of its rows. *)
Record Db := mkDb {
  steps : list Step;
  enrollments : list Enrollment;
  sends : list Send;
  suppressions : list string;
  config : gmap string string;
  contacts : list Contact
}.

Definition setEnrollments (f : list Enrollment → list Enrollment) (d : Db) : Db :=
  mkDb (steps d) (f (enrollments d)) (sends d) (suppressions d) (config d) (contacts d).
Definition setSends (f : list Send → list Send) (d : Db) : Db :=
  mkDb (steps d) (enrollments d) (f (sends d)) (suppressions d) (config d) (contacts d).
Definition setConfig (f : gmap string string → gmap string string) (d : Db) : Db :=
  mkDb (steps d) (enrollments d) (sends d) (suppressions d) (f (config d)) (contacts d).

(** What [sendEmail] resolves to. *)
Record SendResult := mkSendResult {
  r_ok : bool;
  r_id : option string;
  r_provider : option string;
  r_status : option string
}.

(** The outcome of awaiting the transport: it rejects (throws), or resolves to
    a result, [None] being [undefined] or [null]. *)
Inductive reply := Rejects | Resolves (r : option SendResult).

Record Mail := mkMail {
  mail_from : option string;
  mail_to : option string;
  mail_subject : string;
  mail_text : string;
  mail_html : string
}.

(** The host of a run: the readings [new Date()] returns in order, the numbers
    [Math.floor(Math.random() * 100)] evaluates to in order, the texts
    [randomUUID()] yields in order, the offset of local time, the environment
    variables, and the transport the module found in [@lib/email], if any. *)
Record Host := mkHost {
  clock : nat → Z;
  random100 : nat → Z;
  uuid : nat → string;
  tzOffsetMs : Z;
  SENDER_NAME : option string;
  RESEND_FROM : option string;
  SENDER_EMAIL : option string;
  _sendEmail : option (Mail → reply)
}.

(** The state a run threads: the database and how many dates, random numbers
    and ids it has drawn. *)
Record World := mkWorld {
  db : Db;
  nDates : nat;
  nDraws : nat;
  nIds : nat
}.

(** A computation returns a value or throws, each with the state reached:
    what was written before an exception stays written (no transaction). *)
Inductive result (T : Type) := Ok (a : T) (w : World) | Thrown (w : World).
Arguments Ok {T} a w.
Arguments Thrown {T} w.

Definition M (T : Type) : Type := World → result T.

Definition ret {T} (a : T) : M T := λ w, Ok a w.
Definition bind {T U} (m : M T) (k : T → M U) : M U :=
  λ w, match m w with
       | Ok a w' => k a w'
       | Thrown w' => Thrown w'
       end.
Definition throw {T} : M T := λ w, Thrown w.

Notation "'let!' x ':=' m 'in' k" := (bind m (λ x, k))
  (at level 10, x name, m at level 100, k at level 200, only parsing).
Notation "'run!' m 'in' k" := (bind m (λ _, k))
  (at level 10, m at level 100, k at level 200, only parsing).

Definition finalWorld {T} (r : result T) : World :=
  match r with Ok _ w => w | Thrown w => w end.

(** The state with another database, and with one more date, random number
    or id drawn. *)
Definition setDb (d : Db) (w : World) : World :=
  mkWorld d (nDates w) (nDraws w) (nIds w).
Definition bumpDates (w : World) : World :=
  mkWorld (db w) (S (nDates w)) (nDraws w) (nIds w).
Definition bumpDraws (w : World) : World :=
  mkWorld (db w) (nDates w) (S (nDraws w)) (nIds w).
Definition bumpIds (w : World) : World :=
  mkWorld (db w) (nDates w) (nDraws w) (S (nIds w)).

(** [new Date()], [Math.floor(Math.random() * 100)], [cuid()] *)
Definition newDate (h : Host) : M Z :=
  λ w, Ok (clock h (nDates w)) (bumpDates w).
Definition mathRandom100 (h : Host) : M Z :=
  λ w, Ok (random100 h (nDraws w)) (bumpDraws w).
Definition cuid (h : Host) : M string :=
  λ w, Ok ("id_" +:+ uuid h (nIds w)) (bumpIds w).

(** Reading and writing the database. *)
Definition query {T} (f : Db → T) : M T := λ w, Ok (f (db w)) w.
Definition exec (f : Db → Db) : M unit :=
  λ w, Ok tt (setDb (f (db w)) w).

(** [x || d] on a text that may be missing. *)
Definition orText (x : option string) (d : string) : string :=
  match x with
  | Some (String c r) => String c r
  | _ => d
  end.

(** Truthiness of a text that may be missing. *)
Definition truthy (x : option string) : bool :=
  match x with
  | Some (String _ _) => true
  | _ => false
  end.

(** [Number(x || 0)] on an INTEGER column. *)
Definition orZero (x : option Z) : Z :=
  match x with Some z => z | None => 0 end.

(* --------------------------------------------------------------------- *)
(** *** ensureMarketingSchema: the defaults of [marketing_config] *)

Definition putDefault (k v : string) (cfg : gmap string string) : gmap string string :=
  if truthy (cfg !! k) then cfg else <[k := v]> cfg.

Definition ensureMarketingSchema (d : Db) : Db :=
  setConfig (λ cfg,
    putDefault "rate_per_hour" "200"
      (putDefault "quiet_end" "18"
        (putDefault "quiet_start" "09" cfg))) d.

(* --------------------------------------------------------------------- *)
(** *** Prepared statements *)

(** [stepQuery.get(campaign_id, step_order)] *)
Definition stepQuery (d : Db) (campaign : string) (order : Z) : option Step :=
  List.find (λ s, String.eqb (s_campaign_id s) campaign && (s_step_order s =? order))
            (steps d).

(** [updEnroll.run(next_step_order, next_run_at, last_sent_at, updated_at, id)] *)
Definition updEnrollRow (nextStep nextRun : Z) (lastSent : option Z) (updated : Z)
    (id : string) (r : Enrollment) : Enrollment :=
  if String.eqb (e_id r) id then
    mkEnrollment (e_id r) (e_campaign_id r) (e_contact_id r) (e_status r)
      nextStep nextRun lastSent (e_variant_json r) (e_data_json r)
      (e_created_at r) updated
  else r.

Definition updEnroll (nextStep nextRun : Z) (lastSent : option Z) (updated : Z)
    (id : string) : M unit :=
  exec (setEnrollments (map (updEnrollRow nextStep nextRun lastSent updated id))).

(** [markDone.run(updated_at, id)] *)
Definition markDoneRow (updated : Z) (id : string) (r : Enrollment) : Enrollment :=
  if String.eqb (e_id r) id then
    mkEnrollment (e_id r) (e_campaign_id r) (e_contact_id r) completed
      (e_next_step_order r) (e_next_run_at r) (e_last_sent_at r)
      (e_variant_json r) (e_data_json r) (e_created_at r) updated
  else r.

Definition markDone (updated : Z) (id : string) : M unit :=
  exec (setEnrollments (map (markDoneRow updated id))).

(** [insSend.run(...)] *)
Definition insSend (row : Send) : M unit :=
  exec (setSends (λ l, l ++ [row])).

(** [suppressed.get(contact_id)] is a row. *)
Definition suppressed (d : Db) (contact : string) : bool :=
  existsb (String.eqb contact) (suppressions d).

(** The row of [marketing_enrollments] with a given id. *)
Definition enrollmentById (d : Db) (id : string) : option Enrollment :=
  List.find (λ r, String.eqb (e_id r) id) (enrollments d).

(* --------------------------------------------------------------------- *)
(** *** enrollContacts *)

(** [MIN(delay_minutes)] over the steps of a campaign; NULLs are skipped and
    no row at all gives NULL. *)
Definition minDelay (d : Db) (campaign : string) : option Z :=
  fold_left
    (λ acc s,
       if String.eqb (s_campaign_id s) campaign then
         match s_delay_minutes s, acc with
         | Some x, Some m => Some (Z.min m x)
         | Some x, None => Some x
         | None, _ => acc
         end
       else acc)
    (steps d) None.

(** [COALESCE(MIN(delay_minutes), 0)] *)
Definition firstDelay (d : Db) (campaign : string) : Z :=
  match minDelay d campaign with Some m => m | None => 0 end.

(** [INSERT OR IGNORE]: the row is dropped when its id, or its pair of
    campaign and contact, is already there. *)
Definition conflicts (row r : Enrollment) : bool :=
  String.eqb (e_id r) (e_id row)
  || (String.eqb (e_campaign_id r) (e_campaign_id row)
      && String.eqb (e_contact_id r) (e_contact_id row)).

Definition insertOrIgnore (row : Enrollment) (rows : list Enrollment) : list Enrollment :=
  if existsb (conflicts row) rows then rows else rows ++ [row].

(** The loop [for (const cid of contactIds)]. *)
Fixpoint enrollLoop (h : Host) (campaignId : string) (nextRun now : Z)
    (varsByContact : gmap string vars) (contactIds : list string) (created : Z) : M Z :=
  match contactIds with
  | [] => ret created
  | cid :: rest =>
      let! id := cuid h in
      run! exec (setEnrollments (insertOrIgnore
             (mkEnrollment id campaignId cid active 1 nextRun None None
                (varsByContact !! cid) now now))) in
      enrollLoop h campaignId nextRun now varsByContact rest (created + 1)
  end.

(** [enrollContacts({ campaignId, contactIds, startAtISO, varsByContact })],
    returning [{ created, next_run_at }].  [startAtISO] is the time its text
    denotes, [None] standing for null; a text that denotes no time makes
    [toISOString] throw and is outside this embedding. *)
Definition enrollContacts (h : Host) (campaignId : string) (contactIds : list string)
    (startAtISO : option Z) (varsByContact : gmap string vars) : M (Z * Z) :=
  run! exec ensureMarketingSchema in
  let! now := newDate h in
  let! delay := query (λ d, firstDelay d campaignId) in
  let startBase := match startAtISO with Some t => t | None => now end in
  let nextRun := addMinutes startBase delay in
  let! created := enrollLoop h campaignId nextRun now varsByContact contactIds 0 in
  ret (created, nextRun).

(* --------------------------------------------------------------------- *)
(** *** Quiet hours, variants, content *)

Definition withinQuietHours (tz now : Z) (startHour endHour : string) : bool :=
  let h := Num (getHours tz now) in
  let s := Number startHour in
  let e := Number endHour in
  if isNaN s || isNaN e then true
  else if le s e then ge h s && lt h e
  else ge h s || lt h e.

Definition chooseVariant (h : Host) (step : Step) : M variant :=
  let w := orZero (s_weight_b step) in
  if negb (truthy (s_subject_b step)) && negb (truthy (s_body_b step)) then ret A
  else
    let! r := mathRandom100 h in
    ret (if r <? w then B else A).

Record Content := mkContent {
  content_subject : string;
  content_text : string;
  content_html : string
}.

Definition buildContent (step : Step) (v : variant) (vs : vars) : Content :=
  let subj :=
    match v with
    | B => if truthy (s_subject_b step) then s_subject_b step else s_subject step
    | A => s_subject step
    end in
  let body :=
    match v with
    | B => if truthy (s_body_b step) then s_body_b step else s_body step
    | A => s_body step
    end in
  let subject := fillTokens (orText subj EmptyString) vs in
  let text := fillTokens (orText body EmptyString) vs in
  mkContent subject text (replaceNewlines "<br/>" text).

(* --------------------------------------------------------------------- *)
(** *** The rate limiter *)

(** The variables the closure [take] holds. *)
Record Limiter := mkLimiter {
  allowed : num;
  curCount : num
}.

Definition configValue (k : string) : M (option string) :=
  query (λ d, config d !! k).

Definition putConfig (k v : string) : M unit :=
  exec (setConfig (insert k v)).

Definition rateLimiterState (h : Host) : M Limiter :=
  let! a := configValue "rate_per_hour" in
  let allowed := Number (orText a "200") in
  let! stamp := newDate h in
  let bucket := hourBucket stamp in
  let! b := configValue "rate_bucket" in
  let curBucket := orText b EmptyString in
  let! c := configValue "rate_count" in
  let curCount := Number (orText c "0") in
  if String.eqb curBucket bucket then ret (mkLimiter allowed curCount)
  else
    run! putConfig "rate_bucket" bucket in
    run! putConfig "rate_count" "0" in
    ret (mkLimiter allowed (Num 0)).

Definition take (n : Z) (lim : Limiter) : M (bool * Limiter) :=
  if gt (add (curCount lim) (Num n)) (allowed lim) then ret (false, lim)
  else
    let c := add (curCount lim) (Num n) in
    run! putConfig "rate_count" (toStr c) in
    ret (true, mkLimiter (allowed lim) c).

(* --------------------------------------------------------------------- *)
(** *** marketingTick *)

(** A row of the query for due enrollments: the enrollment and the columns
    of its contact. *)
Record Due := mkDue {
  d_row : Enrollment;
  d_email : option string;
  d_first_name : option string;
  d_last_name : option string;
  d_company : option string
}.

(** [JOIN contacts c ON c.id = e.contact_id]: the contact with that id
    ([contacts.id] is the primary key); an enrollment whose contact is
    missing gives no row. *)
Definition joinContact (cs : list Contact) (e : Enrollment) : option Due :=
  match List.find (λ c, String.eqb (c_id c) (e_contact_id e)) cs with
  | Some c => Some (mkDue e (c_email c) (c_first_name c) (c_last_name c) (c_company c))
  | None => None
  end.

(** [ORDER BY e.next_run_at ASC]: a stable insertion sort. *)
Fixpoint insertDue (x : Due) (l : list Due) : list Due :=
  match l with
  | [] => [x]
  | y :: r =>
      if e_next_run_at (d_row x) <? e_next_run_at (d_row y) then x :: l
      else y :: insertDue x r
  end.

Definition sortDue (l : list Due) : list Due := foldr insertDue [] l.

(** [LIMIT n]: a negative limit is no limit. *)
Definition limitRows {T} (n : Z) (l : list T) : list T :=
  if n <? 0 then l else firstn (Z.to_nat n) l.

Definition isDue (now : Z) (e : Enrollment) : bool :=
  status_eqb (e_status e) active && (e_next_run_at e <=? now).

Definition selectDue (d : Db) (now batch : Z) : list Due :=
  limitRows batch
    (sortDue (omap (joinContact (contacts d)) (List.filter (isDue now) (enrollments d)))).

(** The counters of a tick, under the names of the source. *)
Record Counts := mkCounts {
  processed : Z;
  sent : Z;
  queued : Z;
  suppressedCount : Z;
  completedCount : Z;
  skippedQuiet : Z
}.

Definition zeroCounts : Counts := mkCounts 0 0 0 0 0 0.

Definition incProcessed (c : Counts) : Counts :=
  mkCounts (processed c + 1) (sent c) (queued c) (suppressedCount c) (completedCount c) (skippedQuiet c).
Definition incSent (c : Counts) : Counts :=
  mkCounts (processed c) (sent c + 1) (queued c) (suppressedCount c) (completedCount c) (skippedQuiet c).
Definition incQueued (c : Counts) : Counts :=
  mkCounts (processed c) (sent c) (queued c + 1) (suppressedCount c) (completedCount c) (skippedQuiet c).
Definition incSuppressed (c : Counts) : Counts :=
  mkCounts (processed c) (sent c) (queued c) (suppressedCount c + 1) (completedCount c) (skippedQuiet c).
Definition incCompleted (c : Counts) : Counts :=
  mkCounts (processed c) (sent c) (queued c) (suppressedCount c) (completedCount c + 1) (skippedQuiet c).
Definition incSkippedQuiet (c : Counts) : Counts :=
  mkCounts (processed c) (sent c) (queued c) (suppressedCount c) (completedCount c) (skippedQuiet c + 1).

(** What is fixed before the loop starts. *)
Record Tick := mkTick {
  now : Z;
  quietStart : string;
  isOkWindow : bool
}.

(** The variables the loop changes. *)
Record Loop := mkLoop {
  counts : Counts;
  limiter : Limiter
}.

Inductive flow := Continue | Break.

(** Moving an enrollment to the step after [next_step_order], or completing
    it; the source writes this out twice, after the suppression check with
    [last_sent_at] null and after a send with [last_sent_at] the time of the
    tick. *)
Definition advance (h : Host) (t : Tick) (e : Enrollment) (lastSent : option Z)
    (c : Counts) : M Counts :=
  let nextStep := e_next_step_order e + 1 in
  let! stepNext := query (λ d, stepQuery d (e_campaign_id e) nextStep) in
  match stepNext with
  | Some sn =>
      let! nextAt := newDate h in
      run! updEnroll nextStep (addMinutes nextAt (orZero (s_delay_minutes sn)))
             lastSent (now t) (e_id e) in
      ret c
  | None =>
      run! markDone (now t) (e_id e) in
      ret (incCompleted c)
  end.

(** [sendEmailAdapter] *)
Definition sendEmailAdapter (h : Host) (m : Mail) : reply :=
  match _sendEmail h with
  | Some f => f m
  | None => Resolves (Some (mkSendResult false None (Some "mock") (Some "queued")))
  end.

(** [result?.status || (result?.ok ? "sent" : "queued")] *)
Definition sendStatus (r : option SendResult) : string :=
  match r with
  | Some res => orText (r_status res) (if r_ok res then "sent" else "queued")
  | None => "queued"
  end.

Definition defaultVars (h : Host) (t : Tick) (e : Due) : vars :=
  {[ "first_name" := Str (orText (d_first_name e) EmptyString);
     "last_name" := Str (orText (d_last_name e) EmptyString);
     "company" := Str (orText (d_company e) EmptyString);
     "month" := Str (monthLong (tzOffsetMs h) (now t));
     "sender_name" := Str (orText (SENDER_NAME h) "Team") ]}.

(** The variables a template is filled with: the snapshot taken at
    enrollment, or else the fields of the contact. *)
Definition composeVars (h : Host) (t : Tick) (e : Due) : vars :=
  match e_data_json (d_row e) with
  | Some v => v
  | None => defaultVars h t e
  end.

(** The argument of [sendEmailAdapter]. *)
Definition composeMail (h : Host) (t : Tick) (e : Due) (step : Step) (v : variant) : Mail :=
  let content := buildContent step v (composeVars h t e) in
  let from := if truthy (RESEND_FROM h) then RESEND_FROM h
              else if truthy (SENDER_EMAIL h) then SENDER_EMAIL h else None in
  mkMail from (d_email e) (content_subject content) (content_text content)
    (content_html content).

(** The row [insSend.run] writes. *)
Definition logRow (t : Tick) (e : Due) (id : string) (m : Mail) (v : variant)
    (result : option SendResult) : Send :=
  mkSend id (e_contact_id (d_row e)) (e_campaign_id (d_row e))
    (e_next_step_order (d_row e))
    (orText (result ≫= r_provider) "mock")
    (if truthy (result ≫= r_id) then result ≫= r_id else None)
    (sendStatus result) (mail_subject m) (mail_text m) (d_email e) v
    (now t) (now t).

(** Compose, send, log and advance: the part of the loop body after the
    rate-limit gate. *)
Definition sendStep (h : Host) (t : Tick) (e : Due) (step : Step) (st : Loop) : M (flow * Loop) :=
  let! v := chooseVariant h step in
  let m := composeMail h t e step v in
  match sendEmailAdapter h m with
  | Rejects => throw
  | Resolves result =>
      let! id := cuid h in
      let c1 := if String.eqb (sendStatus result) "sent" then incSent (counts st)
                else incQueued (counts st) in
      run! insSend (logRow t e id m v result) in
      let! c2 := advance h t (d_row e) (Some (now t)) c1 in
      ret (Continue, mkLoop c2 (limiter st))
  end.

(** The body of [for (const e of due)]. *)
Definition tickOne (h : Host) (t : Tick) (e : Due) (st : Loop) : M (flow * Loop) :=
  let row := d_row e in
  let c0 := incProcessed (counts st) in
  let! sup := query (λ d, suppressed d (e_contact_id row)) in
  if sup then
    let! c := advance h t row None (incSuppressed c0) in
    ret (Continue, mkLoop c (limiter st))
  else
    let! step := query (λ d, stepQuery d (e_campaign_id row) (e_next_step_order row)) in
    match step with
    | None =>
        run! markDone (now t) (e_id row) in
        ret (Continue, mkLoop (incCompleted c0) (limiter st))
    | Some step =>
        if negb (isOkWindow t) then
          let! tomorrow := newDate h in
          match Number (quietStart t) with
          | NaN => throw
          | Num startH =>
              run! updEnroll (e_next_step_order row)
                     (tomorrowAt (tzOffsetMs h) tomorrow startH)
                     (e_last_sent_at row) (now t) (e_id row) in
              ret (Continue, mkLoop (incSkippedQuiet c0) (limiter st))
          end
        else
          let! taken := take 1 (limiter st) in
          let '(ok, lim) := taken in
          if negb ok then ret (Break, mkLoop c0 lim)
          else sendStep h t e step (mkLoop c0 lim)
    end.

(** The loop over the due rows, with its [break]. *)
Fixpoint tickLoop (h : Host) (t : Tick) (due : list Due) (st : Loop) : M (flow * Loop) :=
  match due with
  | [] => ret (Continue, st)
  | e :: rest =>
      let! r := tickOne h t e st in
      match r with
      | (Break, st') => ret (Break, st')
      | (Continue, st') => tickLoop h t rest st'
      end
  end.

(** Everything [marketingTick] does before the loop: the schema defaults,
    the quiet-hours window, the rate limiter and the due rows. *)
Definition tickSetup (h : Host) (batch : Z) : M (Tick * Loop * list Due) :=
  run! exec ensureMarketingSchema in
  let! qs := configValue "quiet_start" in
  let! qe := configValue "quiet_end" in
  let quietStart := match qs with Some v => v | None => "09" end in
  let quietEnd := match qe with Some v => v | None => "18" end in
  let! now := newDate h in
  let isOkWindow := withinQuietHours (tzOffsetMs h) now quietStart quietEnd in
  let! lim := rateLimiterState h in
  let! due := query (λ d, selectDue d now batch) in
  ret (mkTick now quietStart isOkWindow, mkLoop zeroCounts lim, due).

Definition marketingTick (h : Host) (batch : Z) : M Counts :=
  let! s := tickSetup h batch in
  let '(t, st, due) := s in
  let! r := tickLoop h t due st in
  ret (counts (snd r)).

(* --------------------------------------------------------------------- *)
(** *** What the limiter keeps in [marketing_config] *)




(** A row [enrollContacts] has just added to the rows [before]. *)
Definition freshRow (campaignId : string) (nextRun : Z) (before : list Enrollment)
    (r : Enrollment) : Prop :=
  e_campaign_id r = campaignId ∧ e_status r = active ∧ e_next_step_order r = 1
  ∧ e_next_run_at r = nextRun ∧ existsb (conflicts r) before = false.

(* --------------------------------------------------------------------- *)
(** *** What a run may change *)

(** From the database [d] to [d'] only enrollments whose id is in [ids]
    changed, the tables the tick reads stayed as they were, and the send log
    grew by rows for contacts that are not suppressed. *)
Record frame (ids : list string) (d d' : Db) : Prop := mkFrame {
  fr_steps : steps d' = steps d;
  fr_suppressions : suppressions d' = suppressions d;
  fr_contacts : contacts d' = contacts d;
  fr_ids : map e_id (enrollments d') = map e_id (enrollments d);
  fr_other : ∀ id, id ∉ ids → enrollmentById d' id = enrollmentById d id;
  fr_sends : ∃ extra, sends d' = sends d ++ extra
               ∧ Forall (λ m, suppressed d (m_contact_id m) = false) extra
}.

(** The id of a due row. *)
Definition dueId (e : Due) : string := e_id (d_row e).

(* --------------------------------------------------------------------- *)
(** *** The paths of one turn of the loop *)

(** The limiter after a successful [take(1)], and the state it has written. *)
Definition takenLimiter (lim : Limiter) : Limiter :=
  mkLimiter (allowed lim) (add (curCount lim) (Num 1)).

Definition takenWorld (lim : Limiter) (w : World) : World :=
  setDb (setConfig (insert "rate_count" (toStr (add (curCount lim) (Num 1)))) (db w)) w.

(** [take(1)] is refused. *)
Definition refuses (lim : Limiter) : bool :=
  gt (add (curCount lim) (Num 1)) (allowed lim).

(** [turn h t e st w r]: the body of the loop, run on the due row [e] from
    the loop variables [st] and the state [w], ends as [r].  One constructor
    per path of the source. *)
Inductive turn (h : Host) (t : Tick) (e : Due) (st : Loop) (w : World) :
    result (flow * Loop) → Prop :=
| turn_suppressed c w' :
    suppressed (db w) (e_contact_id (d_row e)) = true →
    advance h t (d_row e) None (incSuppressed (incProcessed (counts st))) w = Ok c w' →
    turn h t e st w (Ok (Continue, mkLoop c (limiter st)) w')
| turn_no_step :
    suppressed (db w) (e_contact_id (d_row e)) = false →
    stepQuery (db w) (e_campaign_id (d_row e)) (e_next_step_order (d_row e)) = None →
    turn h t e st w
      (Ok (Continue, mkLoop (incCompleted (incProcessed (counts st))) (limiter st))
          (setDb (setEnrollments (map (markDoneRow (now t) (dueId e))) (db w)) w))
| turn_quiet step startH :
    suppressed (db w) (e_contact_id (d_row e)) = false →
    stepQuery (db w) (e_campaign_id (d_row e)) (e_next_step_order (d_row e)) = Some step →
    isOkWindow t = false →
    Number (quietStart t) = Num startH →
    turn h t e st w
      (Ok (Continue, mkLoop (incSkippedQuiet (incProcessed (counts st))) (limiter st))
          (setDb (setEnrollments (map (updEnrollRow (e_next_step_order (d_row e))
                    (tomorrowAt (tzOffsetMs h) (clock h (nDates w)) startH)
                    (e_last_sent_at (d_row e)) (now t) (dueId e))) (db w))
                 (bumpDates w)))
| turn_quiet_invalid step :
    suppressed (db w) (e_contact_id (d_row e)) = false →
    stepQuery (db w) (e_campaign_id (d_row e)) (e_next_step_order (d_row e)) = Some step →
    isOkWindow t = false →
    Number (quietStart t) = NaN →
    turn h t e st w (Thrown (bumpDates w))
| turn_limited step :
    suppressed (db w) (e_contact_id (d_row e)) = false →
    stepQuery (db w) (e_campaign_id (d_row e)) (e_next_step_order (d_row e)) = Some step →
    isOkWindow t = true →
    refuses (limiter st) = true →
    turn h t e st w (Ok (Break, mkLoop (incProcessed (counts st)) (limiter st)) w)
| turn_rejected step v w1 :
    suppressed (db w) (e_contact_id (d_row e)) = false →
    stepQuery (db w) (e_campaign_id (d_row e)) (e_next_step_order (d_row e)) = Some step →
    isOkWindow t = true →
    refuses (limiter st) = false →
    chooseVariant h step (takenWorld (limiter st) w) = Ok v w1 →
    sendEmailAdapter h (composeMail h t e step v) = Rejects →
    turn h t e st w (Thrown w1)
| turn_sent step v w1 result c w' :
    suppressed (db w) (e_contact_id (d_row e)) = false →
    stepQuery (db w) (e_campaign_id (d_row e)) (e_next_step_order (d_row e)) = Some step →
    isOkWindow t = true →
    refuses (limiter st) = false →
    chooseVariant h step (takenWorld (limiter st) w) = Ok v w1 →
    sendEmailAdapter h (composeMail h t e step v) = Resolves result →
    advance h t (d_row e) (Some (now t))
      (if String.eqb (sendStatus result) "sent" then incSent (incProcessed (counts st))
       else incQueued (incProcessed (counts st)))
      (setDb (setSends (λ l, l ++ [logRow t e ("id_" +:+ uuid h (nIds w1))
                                     (composeMail h t e step v) v result])
                (db w1))
             (bumpIds w1)) = Ok c w' →
    turn h t e st w (Ok (Continue, mkLoop c (takenLimiter (limiter st))) w').

(* --------------------------------------------------------------------- *)
(** *** The counters *)

(** The counters of a tick are consistent. *)
Definition countsOk (c : Counts) : Prop :=
  0 <= sent c ∧ 0 <= queued c ∧ 0 <= suppressedCount c ∧ 0 <= skippedQuiet c
  ∧ 0 <= completedCount c
  ∧ sent c + queued c + suppressedCount c + skippedQuiet c <= processed c
  ∧ completedCount c <= processed c.

(** From [c] to [c'] one enrollment was processed: it counts once as
    processed, in at most one of sent, queued, suppressed and skipped, and at
    most once as completed. *)
Definition oneMore (c c' : Counts) : Prop :=
  processed c' = processed c + 1
  ∧ sent c <= sent c' ∧ queued c <= queued c'
  ∧ suppressedCount c <= suppressedCount c' ∧ skippedQuiet c <= skippedQuiet c'
  ∧ sent c' + queued c' + suppressedCount c' + skippedQuiet c'
      <= sent c + queued c + suppressedCount c + skippedQuiet c + 1
  ∧ completedCount c <= completedCount c' <= completedCount c + 1.

(* --------------------------------------------------------------------- *)
(** *** Getting to a due row *)

(** The tick started with batch size [B] in state [w] gets to the due row
    [e]: the rows before [e] were processed without a break or an exception,
    leaving the loop variables [st1] and the state [w1]; [post] are the due
    rows after [e]. *)
Definition reaches (h : Host) (B : Z) (w : World) (t : Tick) (e : Due)
    (st1 : Loop) (w1 : World) (post : list Due) : Prop :=
  ∃ st due w0 pre,
    tickSetup h B w = Ok (t, st, due) w0
    ∧ due = pre ++ e :: post
    ∧ tickLoop h t pre st w0 = Ok (Continue, st1) w1.

(** What the tick does from a due row it has got to. *)
Definition resume (h : Host) (t : Tick) (e : Due) (st1 : Loop) (w1 : World)
    (post : list Due) : result Counts :=
  match tickOne h t e st1 w1 with
  | Ok (Continue, st2) w2 =>
      match tickLoop h t post st2 w2 with
      | Ok r w' => Ok (counts (snd r)) w'
      | Thrown w' => Thrown w'
      end
  | Ok (Break, st2) w2 => Ok (counts st2) w2
  | Thrown w2 => Thrown w2
  end.



End Marketing.

(* ===================================================================== *)
(** ** Scenarios: concrete stores and hosts *)
(* ===================================================================== *)

Module Scenario.
Import Js JsNum JsDate Tokens Marketing.

(** 2025-01-01T00:00:00Z, and noon and 21:00 of that day. *)
Definition T0 : Z := 1735689600000.
Definition noon : Z := T0 + 12 * msPerHour.
Definition evening : Z := T0 + 21 * msPerHour.

(** The campaign "welcome" of the specification: step 1 at once, step 2 a
    day later. *)
Definition welcomeSteps : list Step :=
  [ mkStep "welcome" 1 (Some 0) (Some "Hi {{first_name}}") (Some "Welcome, {{first_name|there|title}}!")
      None None None;
    mkStep "welcome" 2 (Some 1440) (Some "Follow up") (Some "Still there?") None None None ].

(** A campaign with a gap: orders 1 and 3. *)
Definition gapSteps : list Step :=
  [ mkStep "gap" 1 (Some 0) (Some "One") (Some "first") None None None;
    mkStep "gap" 3 (Some 0) (Some "Three") (Some "third") None None None ].

(** A campaign whose second step has the smaller delay. *)
Definition slowStartSteps : list Step :=
  [ mkStep "slow" 1 (Some 60) (Some "First") (Some "one") None None None;
    mkStep "slow" 2 (Some 0) (Some "Second") (Some "two") None None None ].

Definition people : list Contact :=
  [ mkContact "c1" (Some "alicia@example.org") (Some "Alicia") (Some "Keys") (Some "Acme");
    mkContact "c2" (Some "bob@example.org") (Some "bob") (Some "Smith") None;
    mkContact "c3" (Some "carol@example.org") (Some "Carol") None None ].

Definition enrolled (id contact : string) (order at_ : Z) : Enrollment :=
  mkEnrollment id "welcome" contact active order at_ None None None T0 T0.

Definition threeDue : list Enrollment :=
  [ enrolled "e1" "c1" 1 T0; enrolled "e2" "c2" 1 (T0 + 1); enrolled "e3" "c3" 2 (T0 + 2) ].

Definition store (cfg : gmap string string) (sup : list string) : Db :=
  mkDb welcomeSteps threeDue [] sup cfg people.

Definition startWorld (d : Db) : World := mkWorld d 0 0 0.

(** A host in UTC whose clock always shows [time] and whose transport is
    [transport]. *)
Definition hostAt (time : Z) (transport : option (Mail → reply)) : Host :=
  mkHost (λ _, time) (λ _, 0) (λ n, toStr (Num (Z.of_nat n))) 0 None None None transport.

(** A transport that reports a failure without a status, and one that throws. *)
Definition failingTransport : Mail → reply :=
  λ _, Resolves (Some (mkSendResult false None (Some "resend") None)).

(** The pieces of a tick, read off its setup and the run of a prefix. *)
Definition tickOf (h : Host) (B : Z) (w : World) : Tick :=
  match tickSetup h B w with
  | Ok (t, _, _) _ => t
  | Thrown _ => mkTick 0 EmptyString true
  end.
Definition loopOf (h : Host) (B : Z) (w : World) : Loop :=
  match tickSetup h B w with
  | Ok (_, st, _) _ => st
  | Thrown _ => mkLoop zeroCounts (mkLimiter NaN NaN)
  end.
Definition dueOf (h : Host) (B : Z) (w : World) : list Due :=
  match tickSetup h B w with
  | Ok (_, _, due) _ => due
  | Thrown _ => []
  end.
Definition worldOf (h : Host) (B : Z) (w : World) : World :=
  match tickSetup h B w with
  | Ok _ w0 => w0
  | Thrown w0 => w0
  end.
Definition loopAfter (h : Host) (B : Z) (w : World) (n : nat) : Loop :=
  match tickLoop h (tickOf h B w) (firstn n (dueOf h B w)) (loopOf h B w) (worldOf h B w) with
  | Ok (_, st1) _ => st1
  | Thrown _ => loopOf h B w
  end.
Definition worldAfter (h : Host) (B : Z) (w : World) (n : nat) : World :=
  finalWorld (tickLoop h (tickOf h B w) (firstn n (dueOf h B w)) (loopOf h B w) (worldOf h B w)).
Definition dueAt (h : Host) (B : Z) (w : World) (n : nat) : Due :=
  nth n (dueOf h B w) (mkDue (enrolled EmptyString EmptyString 0 0) None None None None).

Definition noStep : Step := mkStep EmptyString 0 None None None None None None.

(** The hosts and the starting states of the scenarios. *)
Definition noonHost : Host := hostAt noon None.
Definition eveningHost : Host := hostAt evening None.
Definition failingHost : Host := hostAt noon (Some failingTransport).

Definition plainWorld : World := startWorld (store ∅ []).
Definition limitedWorld : World := startWorld (store {["rate_per_hour" := "1"]} []).
Definition gapWorld : World :=
  startWorld (mkDb gapSteps
    [mkEnrollment "g1" "gap" "c1" active 1 T0 None None None T0 T0] [] [] ∅ people).
Definition slowStartWorld : World := startWorld (mkDb slowStartSteps [] [] [] ∅ people).

End Scenario.

(* ===================================================================== *)
(** ** src/lib/extract.js: fields of a headline *)
(* ===================================================================== *)

Module Headlines.
Import Js.

(** [s.includes(w)] *)
Definition includes (s w : string) : bool :=
  match indexOf w s 0 with Some _ => true | None => false end.

(** [s.split(sep)] for a separator that is not empty: the pieces between
    its occurrences, found from left to right.  Every turn drops at least
    one character, so [fuel] bounded by the length never runs out. *)
Fixpoint splitLoop (fuel : nat) (sep s : string) : list string :=
  match fuel with
  | O => [s]
  | S fuel' =>
      match indexOf sep s 0 with
      | None => [s]
      | Some k => slice s 0 k :: splitLoop fuel' sep (sdrop (k + len sep) s)
      end
  end.

Definition splitOn (sep s : string) : list string := splitLoop (len s) sep s.

(** [l[i] || ''] *)
Definition piece (i : nat) (l : list string) : string := nth i l EmptyString.

Definition CATEGORY_KEYWORDS : list (string * list string) :=
  [ ("Appointment/Promotion",
     ["appoint"; "names"; "joins"; "promot"; "elevat"; "takes over";
      "assumes charge"; "elected"; "reappointed"]);
    ("Resignation/Retirement", ["resign"; "steps down"; "retires"]);
    ("Award/Recognition",
     ["award"; "wins award"; "bags award"; "felicitat"; "honoured"; "honored"]) ].

(** [guessCategory(title)] *)
Definition guessCategory (title : string) : string :=
  let t := toLowerCase title in
  match List.find (λ c, existsb (includes t) (snd c)) CATEGORY_KEYWORDS with
  | Some c => fst c
  | None => "Other"
  end.

(** The object [heuristicExtract] returns. *)
Record Fields := mkFields {
  person_name : string;
  role : string;
  company : string;
  city : string;
  category : string
}.

Definition isEmpty (s : string) : bool :=
  match s with EmptyString => true | String _ _ => false end.

(** [cut(s)] *)
Definition cut (s : string) : string :=
  if isEmpty s then EmptyString
  else
    trim (piece 0 (splitOn " at "
            (piece 0 (split "-"%char (piece 0 (split "|"%char s)))))).

(** [heuristicExtract(title)], for a title in ASCII, as the texts of [Js]
    are: neither dash that the first line replaces occurs in such a title,
    so [t] is the title. *)
Definition heuristicExtract (title : string) : Fields :=
  let t := title in
  let lower := toLowerCase t in
  let '(person, role, company) :=
    if includes lower " appoints " && includes lower " as " then
      let parts := splitOn " appoints " t in
      let after := piece 1 parts in
      let yAsZ := splitOn " as " after in
      let y := piece 0 yAsZ in
      let zPart := piece 1 yAsZ in
      let atSplit :=
        if includes zPart " at " then splitOn " at " zPart
        else if includes zPart " in " then splitOn " in " zPart
        else [zPart] in
      (trim y, trim (piece 0 atSplit), trim (piece 1 atSplit))
    else (EmptyString, EmptyString, EmptyString) in
  let '(person, role, company) :=
    if isEmpty person && includes lower " joins " && includes lower " as " then
      let before := piece 0 (splitOn " joins " t) in
      let after := piece 1 (splitOn " joins " t) in
      let asSplit := splitOn " as " after in
      (trim before, trim (piece 1 asSplit), trim (piece 0 asSplit))
    else (person, role, company) in
  let '(person, role, company) :=
    if isEmpty person && (includes lower " names " || includes lower " appoints ")
       && includes lower " as " then
      let verb := if includes lower " names " then " names " else " appoints " in
      let c := piece 0 (splitOn verb t) in
      let after := piece 1 (splitOn verb t) in
      let asSplit := splitOn " as " after in
      (trim (piece 0 asSplit), trim (piece 1 asSplit), trim c)
    else (person, role, company) in
  mkFields (cut person) (cut role) (cut company) EmptyString (guessCategory t).

(** A field as [cut] leaves it: without a bar, a hyphen or the word " at ",
    and with no white space around it. *)
Definition notBarOrHyphen (c : ascii) : bool :=
  negb (Ascii.eqb c "|"%char) && negb (Ascii.eqb c "-"%char).

Definition cleanField (f : string) : Prop :=
  allChars notBarOrHyphen f = true ∧ includes f " at " = false ∧ trim f = f.

End Headlines.

(* ===================================================================== *)
(** ** The routes over the scheduler *)
(* ===================================================================== *)

Module Routes.
Import Js JsNum JsDate Tokens Marketing.

(** [Math.min(a, b)] and [Math.max(a, b)]: [NaN] as soon as one side is. *)
Definition mathMin (a b : num) : num :=
  match a, b with Num x, Num y => Num (Z.min x y) | _, _ => NaN end.
Definition mathMax (a b : num) : num :=
  match a, b with Num x, Num y => Num (Z.max x y) | _, _ => NaN end.

(* --------------------------------------------------------------------- *)
(** *** GET of the tick route *)

(** [Math.max(1, Math.min(200, Number(url.searchParams.get("batch") || 50)))];
    [param] is what [searchParams.get] returns, [None] being null. *)
Definition clampBatch (param : option string) : num :=
  mathMax (Num 1)
    (mathMin (Num 200)
       (match param with
        | Some (String c r) => Number (String c r)
        | _ => Num 50
        end)).

(** The answer of the route: the counters with status 200, or status 500. *)
Inductive tickAnswer := TickStats (c : Counts) | TickFailed.

(** The handler.  It answers [None] when the batch size is no number: the
    query for the due rows is then run with a limit that is no integer,
    which this embedding of the database does not cover. *)
Definition tickRoute (h : Host) (param : option string) : M (option tickAnswer) :=
  run! exec ensureMarketingSchema in
  match clampBatch param with
  | NaN => ret None
  | Num batch =>
      λ w, match marketingTick h batch w with
           | Ok c w' => Ok (Some (TickStats c)) w'
           | Thrown w' => Ok (Some TickFailed) w'
           end
  end.

(* --------------------------------------------------------------------- *)
(** *** POST of the webhook of the mail provider *)

(** What [statusMap[type]] evaluates to: a status of the map, a member
    inherited from [Object.prototype], or [undefined]. *)
Inductive mapped := Own (status : string) | Inherited | Missing.

Definition prototypeKeys : list string :=
  ["constructor"; "__defineGetter__"; "__defineSetter__"; "hasOwnProperty";
   "__lookupGetter__"; "__lookupSetter__"; "isPrototypeOf";
   "propertyIsEnumerable"; "toString"; "valueOf"; "__proto__"; "toLocaleString"].

Definition statusMap (type : string) : mapped :=
  if String.eqb type "email.sent" then Own "sent"
  else if String.eqb type "email.delivered" then Own "delivered"
  else if String.eqb type "email.opened" then Own "opened"
  else if String.eqb type "email.clicked" then Own "clicked"
  else if String.eqb type "email.bounced" then Own "bounced"
  else if String.eqb type "email.complained" then Own "complained"
  else if existsb (String.eqb type) prototypeKeys then Inherited
  else Missing.

(** [WHERE provider = 'resend' AND provider_id = ?] *)
Definition fromResend (id : string) (m : Send) : bool :=
  String.eqb (m_provider m) "resend"
  && match m_provider_id m with
     | Some p => String.eqb p id
     | None => false
     end.

(** [UPDATE marketing_sends SET status = ?, updated_at = datetime('now')
    WHERE ...], on one row; [sqlNow] is the time the database reads. *)
Definition setStatus (status : string) (sqlNow : Z) (id : string) (m : Send) : Send :=
  if fromResend id m then
    mkSend (m_id m) (m_contact_id m) (m_campaign_id m) (m_step_order m)
      (m_provider m) (m_provider_id m) status (m_subject m) (m_body m)
      (m_to_email m) (m_meta m) (m_sent_at m) sqlNow
  else m.

Definition setSuppressions (f : list string → list string) (d : Db) : Db :=
  mkDb (steps d) (enrollments d) (sends d) (f (suppressions d)) (config d) (contacts d).

(** [crypto.randomUUID()]: one more id is drawn; the id itself goes to a
    column of [marketing_suppressions] that is not kept here. *)
Definition randomUUID : M unit := λ w, Ok tt (bumpIds w).

(** The handler, for a payload whose [type] is the text [type] (empty when
    missing) and whose [data.id] is the text [id], if any; the tables exist.
    It answers [Some tt] for [{ ok: true }], and [None] when the status it
    binds is a member inherited from [Object.prototype], which this
    embedding of the database does not cover. *)
Definition resendWebhook (type : string) (id : option string) (sqlNow : Z)
    : M (option unit) :=
  match statusMap type, id with
  | Own status, Some (String c r) =>
      let i := String c r in
      run! exec (setSends (map (setStatus status sqlNow i))) in
      if String.eqb status "bounced" || String.eqb status "complained" then
        let! row := query (λ d, List.find (fromResend i) (sends d)) in
        match row with
        | Some m =>
            if truthy (Some (m_contact_id m)) then
              let! _ := randomUUID in
              run! exec (setSuppressions (λ l, l ++ [m_contact_id m])) in
              ret (Some tt)
            else ret (Some tt)
        | None => ret (Some tt)
        end
      else ret (Some tt)
  | Inherited, Some (String c r) => ret None
  | _, _ => ret (Some tt)
  end.

(** The state after the ticks of [l], each by its host with its batch size,
    whether they return or throw. *)
Fixpoint runTicks (l : list (Host * Z)) (w : World) : World :=
  match l with
  | [] => w
  | (h, batch) :: rest => runTicks rest (finalWorld (marketingTick h batch w))
  end.

(* --------------------------------------------------------------------- *)
(** *** POST of the enroll route *)




End Routes.

(* ===================================================================== *)
(** ** src/lib/marketing.js: creating campaigns *)
(* ===================================================================== *)

Module Campaigns.
Import Js JsNum JsDate Tokens Marketing.

(** A row of [marketing_campaigns]. *)
Record Campaign := mkCampaign {
  k_id : string;
  k_name : string;
  k_description : string;
  k_status : string;
  k_created_at : Z;
  k_updated_at : Z
}.

(** The database with the table of campaigns, which the scheduler never
    reads, beside the state the scheduler threads. *)
Record Store := mkStore {
  campaigns : list Campaign;
  world : World
}.

(** A call returns a value or throws, each with the store reached. *)
Inductive outcome (T : Type) := Returns (a : T) (s : Store) | Throws (s : Store).
Arguments Returns {T} a s.
Arguments Throws {T} s.

Definition finalStore {T} (o : outcome T) : Store :=
  match o with Returns _ s => s | Throws s => s end.

(** A computation on the tables of the scheduler, run in a store. *)
Definition liftM {T} (m : M T) (s : Store) : outcome T :=
  match m (world s) with
  | Ok a w => Returns a (mkStore (campaigns s) w)
  | Thrown w => Throws (mkStore (campaigns s) w)
  end.

(** An element of [steps], with the members the insert reads: each is a
    number or a text as the column wants it, or is missing. *)
Record StepInput := mkStepInput {
  i_step_order : option Z;
  i_delay_minutes : option Z;
  i_subject : option string;
  i_body : option string;
  i_subject_b : option string;
  i_body_b : option string;
  i_weight_b : option Z
}.

(** [s.step_order ?? (i + 1)] *)
Definition orderOf (i : Z) (s : StepInput) : Z :=
  match i_step_order s with Some o => o | None => i + 1 end.

(** The row [insStep.run] writes for the element [s] at index [i]. *)
Definition stepRow (campaignId : string) (i : Z) (s : StepInput) : Step :=
  mkStep campaignId (orderOf i s)
    (Some (orZero (i_delay_minutes s)))
    (Some (orText (i_subject s) EmptyString))
    (Some (orText (i_body s) EmptyString))
    (if truthy (i_subject_b s) then i_subject_b s else None)
    (if truthy (i_body_b s) then i_body_b s else None)
    (Some (orZero (i_weight_b s))).

Definition setSteps (f : list Step → list Step) (d : Db) : Db :=
  mkDb (f (steps d)) (enrollments d) (sends d) (suppressions d) (config d) (contacts d).

(** [UNIQUE(campaign_id, step_order)] *)
Definition sameSlot (row x : Step) : bool :=
  String.eqb (s_campaign_id x) (s_campaign_id row) && (s_step_order x =? s_step_order row).

(** [INSERT INTO marketing_campaign_steps]: throws when the slot is taken.
    The rows of [steps] do not keep their id, which [cuid] draws anew for
    each, so the primary key is taken as never violated. *)
Definition insStep (row : Step) : M unit :=
  λ w, if existsb (sameSlot row) (steps (db w)) then Thrown w
       else Ok tt (setDb (setSteps (λ l, l ++ [row]) (db w)) w).

(** [steps.forEach((s, i) => insStep.run(cuid(), id, ...))] from index [i]. *)
Fixpoint insertSteps (h : Host) (campaignId : string) (inputs : list StepInput) (i : Z)
    : M unit :=
  match inputs with
  | [] => ret tt
  | s :: rest =>
      let! _ := cuid h in
      run! insStep (stepRow campaignId i s) in
      insertSteps h campaignId rest (i + 1)
  end.

(** [id TEXT PRIMARY KEY, name TEXT UNIQUE] *)
Definition taken (k x : Campaign) : bool :=
  String.eqb (k_id x) (k_id k) || String.eqb (k_name x) (k_name k).

(** The head of [createCampaign]: the schema, [nowISO()] and [cuid()]. *)
Definition createSetup (h : Host) : M (Z * string) :=
  run! exec ensureMarketingSchema in
  let! now := newDate h in
  let! id := cuid h in
  ret (now, id).

(** [createCampaign({ name, description, steps })], returning the id. *)
Definition createCampaign (h : Host) (name description : string)
    (inputs : list StepInput) (s : Store) : outcome string :=
  match liftM (createSetup h) s with
  | Throws s1 => Throws s1
  | Returns (now, id) s1 =>
      let k := mkCampaign id name description "active" now now in
      if existsb (taken k) (campaigns s1) then Throws s1
      else
        match liftM (insertSteps h id inputs 0)
                    (mkStore (campaigns s1 ++ [k]) (world s1)) with
        | Throws s2 => Throws s2
        | Returns _ s2 => Returns id s2
        end
  end.

(** The answers of the POST of the campaigns route: 400 when the name is
    missing, 200 with the id, or 500. *)
Inductive createAnswer := NameRequired | Created (id : string) | CreateFailed.

Definition campaignsPost (h : Host) (name : option string) (description : string)
    (inputs : list StepInput) (s : Store) : outcome createAnswer :=
  match liftM (exec ensureMarketingSchema) s with
  | Throws s1 => Throws s1
  | Returns _ s1 =>
      match name with
      | Some (String c r) =>
          match createCampaign h (String c r) description inputs s1 with
          | Returns id s2 => Returns (Created id) s2
          | Throws s2 => Returns CreateFailed s2
          end
      | _ => Returns NameRequired s1
      end
  end.

(** The id [createCampaign] gives the campaign, and its clock reading. *)
Definition newCampaignId (h : Host) (s : Store) : string :=
  "id_" +:+ uuid h (nIds (world s)).
Definition creationTime (h : Host) (s : Store) : Z := clock h (nDates (world s)).

(** The campaign can be created: its name and its id are new, and no step
    is filed under its id. *)
Definition creatable (h : Host) (name : string) (s : Store) : Prop :=
  (name ∉ map k_name (campaigns s))
  ∧ (newCampaignId h s ∉ map k_id (campaigns s))
  ∧ ∀ x, x ∈ steps (db (world s)) → s_campaign_id x ≠ newCampaignId h s.

(** The rows written for inputs from the index [i] on. *)
Definition numbered (campaignId : string) (i : Z) (inputs : list StepInput) : list Step :=
  imap (λ j s, stepRow campaignId (i + Z.of_nat j) s) inputs.

End Campaigns.

(* ===================================================================== *)
(** ** src/app/api/sequences/send/route.js: text as HTML *)
(* ===================================================================== *)

Module Html.
Import Js.

(** [s.replace(/c/g, by)] for one character [c]. *)
Fixpoint replaceAll (c : ascii) (by_ : string) (s : string) : string :=
  match s with
  | EmptyString => EmptyString
  | String x s' =>
      if Ascii.eqb x c then by_ +:+ replaceAll c by_ s'
      else String x (replaceAll c by_ s')
  end.

(** [textToBasicHTML(text)] for a text. *)
Definition textToBasicHTML (text : string) : string :=
  let esc :=
    replaceAll ">"%char "&gt;"
      (replaceAll "<"%char "&lt;"
         (replaceAll "&"%char "&amp;" text)) in
  replaceAll "010"%char "<br/>" esc.

(** What one character of a text becomes in HTML. *)
Definition escapeChar (c : ascii) : string :=
  if Ascii.eqb c "&"%char then "&amp;"
  else if Ascii.eqb c "<"%char then "&lt;"
  else if Ascii.eqb c ">"%char then "&gt;"
  else if Ascii.eqb c "010"%char then "<br/>"
  else String c EmptyString.

(** A text escaped character by character. *)
Fixpoint escapeAll (s : string) : string :=
  match s with
  | EmptyString => EmptyString
  | String c s' => escapeChar c +:+ escapeAll s'
  end.

(** None of the characters of [s] is special in HTML or a line feed. *)
Definition plainChar (c : ascii) : bool :=
  negb (Ascii.eqb c "&"%char || Ascii.eqb c "<"%char || Ascii.eqb c ">"%char
        || Ascii.eqb c "010"%char).
Definition plainText (s : string) : bool := allChars plainChar s.

End Html.

(* ===================================================================== *)
(** ** Notions used to state further properties of the tick *)
(* ===================================================================== *)

Module TickProps.
Import Js JsNum JsDate Tokens Marketing.

(** From the row [r] to the row [r'] an enrollment made at most one step:
    its id, campaign, contact, snapshot and creation time are the same, its
    status is the same or [completed], and its pointer is the same, or one
    more with the status unchanged. *)
Definition rowStep (r r' : Enrollment) : Prop :=
  e_id r' = e_id r
  ∧ e_campaign_id r' = e_campaign_id r
  ∧ e_contact_id r' = e_contact_id r
  ∧ e_variant_json r' = e_variant_json r
  ∧ e_data_json r' = e_data_json r
  ∧ e_created_at r' = e_created_at r
  ∧ (e_status r' = e_status r ∨ e_status r' = completed)
  ∧ (e_next_step_order r' = e_next_step_order r
     ∨ (e_next_step_order r' = e_next_step_order r + 1 ∧ e_status r' = e_status r)).

(** The row [m] of the send log was written for the due row [e] of the tick
    [t] run by the host [h]: it carries the contact, campaign and current
    step order of [e], the address of the contact, and the subject, body and
    status of a mail composed from an existing step and answered by the
    transport. *)
Definition loggedFor (h : Host) (t : Tick) (d : Db) (e : Due) (m : Send) : Prop :=
  ∃ step v result,
    stepQuery d (e_campaign_id (d_row e)) (e_next_step_order (d_row e)) = Some step
    ∧ sendEmailAdapter h (composeMail h t e step v) = Resolves result
    ∧ m_contact_id m = e_contact_id (d_row e)
    ∧ m_campaign_id m = e_campaign_id (d_row e)
    ∧ m_step_order m = e_next_step_order (d_row e)
    ∧ m_to_email m = d_email e
    ∧ m_subject m = mail_subject (composeMail h t e step v)
    ∧ m_body m = mail_text (composeMail h t e step v)
    ∧ m_status m = sendStatus result
    ∧ m_provider m = orText (result ≫= r_provider) "mock"
    ∧ m_provider_id m = (if truthy (result ≫= r_id) then result ≫= r_id else None)
    ∧ m_meta m = v
    ∧ m_sent_at m = now t.


(** From the row [r] to the row [r'] an enrollment made at most [n] steps. *)
Definition rowPath (n : nat) (r r' : Enrollment) : Prop :=
  e_id r' = e_id r
  ∧ e_campaign_id r' = e_campaign_id r
  ∧ e_contact_id r' = e_contact_id r
  ∧ e_data_json r' = e_data_json r
  ∧ e_created_at r' = e_created_at r
  ∧ (e_status r' = e_status r ∨ e_status r' = completed)
  ∧ e_next_step_order r <= e_next_step_order r' <= e_next_step_order r + Z.of_nat n.

(** The rows of a part of the send log whose status is "sent". *)
Definition isSent (m : Send) : bool := String.eqb (m_status m) "sent".
Definition sentRows (l : list Send) : Z := Z.of_nat (length (List.filter isSent l)).

End TickProps.

(* ===================================================================== *)
(** ** Notions used to state further properties of the helpers *)
(* ===================================================================== *)

Module TextProps.
Import Js.

(** [c] is not the line feed. *)
Definition notNewline (c : ascii) : bool := negb (Ascii.eqb c "010"%char).

(** [s] has no line feed. *)
Definition singleLine (s : string) : bool := allChars notNewline s.

(** [c] is not an opening brace; [c] may stand in the name of a placeholder:
    it is no bar and no closing brace. *)
Definition notOpen (c : ascii) : bool := negb (Ascii.eqb c "{"%char).
Definition nameChar (c : ascii) : bool :=
  negb (Ascii.eqb c "|"%char) && negb (Ascii.eqb c "}"%char).

End TextProps.

(* ===================================================================== *)
(** ** Notions used to state further properties of enrolling *)
(* ===================================================================== *)

Module EnrollProps.
Import Js JsNum JsDate Tokens Marketing.





End EnrollProps.

(* ===================================================================== *)
(** ** More scenarios *)
(* ===================================================================== *)

Module Scenes.
Import Js JsNum JsDate Tokens Marketing Scenario Routes Campaigns.

(** An enrollment that is paused, and one whose time comes after noon. *)
Definition pausedRow : Enrollment :=
  mkEnrollment "p1" "welcome" "c2" paused 1 T0 None None None T0 T0.
Definition laterRow : Enrollment := enrolled "f1" "c3" 1 (noon + 1).

(** A store with one due row, the paused row and the later row. *)
Definition mixedWorld : World :=
  startWorld (mkDb welcomeSteps [enrolled "e1" "c1" 1 T0; pausedRow; laterRow]
                [] [] ∅ people).


(** A transport that hands the mail to "resend", the state after one tick
    with it, and the row that tick logged. *)
Definition resendTransport : Mail → reply :=
  λ _, Resolves (Some (mkSendResult true (Some "msg_1") (Some "resend") None)).
Definition resendHost : Host := hostAt noon (Some resendTransport).
Definition sentWorld : World := finalWorld (marketingTick resendHost 1 plainWorld).
Definition noSend : Send :=
  mkSend EmptyString EmptyString EmptyString 0 EmptyString None EmptyString
    EmptyString EmptyString None A 0 0.
Definition bouncedRow : Send := hd noSend (sends (db sentWorld)).

(** A store with no campaign filed yet, and the steps of a campaign given
    without their orders. *)
Definition firstStore : Store := mkStore [] plainWorld.
Definition twoSteps : list StepInput :=
  [ mkStepInput None None (Some "Hello {{first_name}}") (Some "Welcome!") None None None;
    mkStepInput None (Some 1440) (Some "Again") None (Some EmptyString) None (Some 30) ].

End Scenes.
Import Js Tokens.

(* ===================================================================== *)
(** ** Strings: positions, prefixes and suffixes *)
(* ===================================================================== *)

Lemma sdrop_empty k : sdrop k EmptyString = EmptyString.
Proof. by destruct k. Qed.

Lemma sdrop_length k s : String.length (sdrop k s) = (String.length s - k)%nat.
Proof.
  revert s; induction k as [|k IH]; intros [|c s]; simpl; try lia. apply IH.
Qed.

Lemma sdrop_sdrop j k s : sdrop j (sdrop k s) = sdrop (k + j) s.
Proof.
  revert s; induction k as [|k IH]; intros s; simpl; [done|].
  destruct s as [|c s]; [by rewrite sdrop_empty | apply IH].
Qed.

Lemma substring_sdrop n m s : String.substring n m s = String.substring 0 m (sdrop n s).
Proof.
  revert s; induction n as [|n IH]; intros s; simpl; [done|].
  destruct s as [|c s]; [by destruct m | apply IH].
Qed.

Lemma substring_all s : String.substring 0 (String.length s) s = s.
Proof. induction s as [|c s IH]; simpl; [done | by rewrite IH]. Qed.

Lemma sliceFrom_sdrop s a : sliceFrom s a = sdrop a s.
Proof.
  unfold sliceFrom, len. rewrite substring_sdrop, <- sdrop_length.
  apply substring_all.
Qed.

Lemma slice_sdrop s k a b :
  slice (sdrop k s) a b = slice s (k + a) (k + b).
Proof.
  unfold slice. rewrite (substring_sdrop a), (substring_sdrop (k + a)).
  rewrite sdrop_sdrop. f_equal. lia.
Qed.

Lemma prefix_length p s : String.prefix p s = true → (String.length p ≤ String.length s)%nat.
Proof.
  revert s; induction p as [|a p IH]; intros [|b s]; simpl; try lia; try done.
  destruct (ascii_dec a b); [|done]. intros H%IH. lia.
Qed.

(** A position [indexOf] returns is at or after [from] and leaves room for
    the pattern. *)
Lemma index_bounds p s n k :
  String.index n p s = Some k → (n ≤ k ∧ k + String.length p ≤ String.length s)%nat.
Proof.
  revert n k; induction s as [|b s IH]; intros n k.
  - simpl. destruct n; [|done]. destruct p; [|done]. intros [= <-]. simpl; lia.
  - destruct n as [|n]; cbn [String.index].
    + destruct (String.prefix p (String b s)) eqn:Hp.
      * intros [= <-]. apply prefix_length in Hp. simpl in *. lia.
      * destruct (String.index 0 p s) as [j|] eqn:Hj; [|done].
        intros [= <-]. apply IH in Hj. simpl. lia.
    + destruct (String.index n p s) as [j|] eqn:Hj; [|done].
      intros [= <-]. apply IH in Hj. simpl. lia.
Qed.

(** Searching from [k + n] in [s] is searching from [n] in the suffix. *)
Lemma index_sdrop p s k n :
  (k ≤ String.length s)%nat →
  String.index (k + n) p s = (λ j, (k + j)%nat) <$> String.index n p (sdrop k s).
Proof.
  revert s; induction k as [|k IH]; intros s Hk; simpl.
  - by destruct (String.index n p s).
  - destruct s as [|b s]; simpl in *; [lia|].
    rewrite IH by lia. by destruct (String.index n p (sdrop k s)).
Qed.

Lemma append_cons c s t : String c s +:+ t = String c (s +:+ t).
Proof. reflexivity. Qed.

Lemma append_nil_l s : EmptyString +:+ s = s.
Proof. reflexivity. Qed.

Lemma append_nil_r s : s +:+ EmptyString = s.
Proof. induction s as [|c s IH]; [done | by rewrite append_cons, IH]. Qed.

Lemma append_assoc s1 s2 s3 : (s1 +:+ s2) +:+ s3 = s1 +:+ (s2 +:+ s3).
Proof. induction s1 as [|c s IH]; [done | by rewrite !append_cons, IH]. Qed.

(* ===================================================================== *)
(** ** The token renderer *)
(* ===================================================================== *)

(** The loop started at position [i] does what the loop started at [0]
    does on the suffix from [i]. *)
Lemma fillLoop_suffix vs fuel : ∀ t i out,
  (i ≤ len t)%nat →
  fillLoop fuel t vs i out = out +:+ fillLoop fuel (sdrop i t) vs 0 EmptyString.
Proof.
  induction fuel as [|fuel IH]; intros t i out Hi; simpl.
  - by rewrite append_nil_r.
  - unfold len in *. rewrite sdrop_length.
    destruct (Nat.ltb_spec i (String.length t)) as [Hlt|Hge];
      destruct (Nat.ltb_spec 0 (String.length t - i)) as [Hlt'|Hge']; try lia;
      [|by rewrite append_nil_r].
    unfold indexOf.
    replace i with (i + 0)%nat at 1 by lia.
    rewrite index_sdrop by lia.
    destruct (String.index 0 "{{" (sdrop i t)) as [a|] eqn:Ha; simpl.
    + pose proof (index_bounds _ _ _ _ Ha) as [_ Hab]. simpl in Hab.
      rewrite sdrop_length in Hab.
      replace (i + a + 2)%nat with (i + (a + 2))%nat by lia.
      rewrite index_sdrop by lia.
      destruct (String.index (a + 2) "}}" (sdrop i t)) as [b|] eqn:Hb; simpl.
      * pose proof (index_bounds _ _ _ _ Hb) as [Hb1 Hb2]. simpl in Hb2.
        rewrite sdrop_length in Hb2.
        rewrite (IH t) by (unfold len; lia).
        rewrite (IH (sdrop i t)) by (unfold len; rewrite sdrop_length; lia).
        rewrite !slice_sdrop, sdrop_sdrop, !append_assoc, append_nil_l.
        by rewrite Nat.add_0_r, !Nat.add_assoc.
      * rewrite !sliceFrom_sdrop, slice_sdrop, sdrop_sdrop, !append_assoc.
        by rewrite append_nil_l, Nat.add_0_r.
    + by rewrite !sliceFrom_sdrop, sdrop_sdrop, append_nil_l, Nat.add_0_r.
Qed.

(** Any fuel that covers the distance to the end gives the same result. *)
Lemma fillLoop_fuel vs t : ∀ fuel1 fuel2 i out,
  (len t - i ≤ fuel1)%nat → (len t - i ≤ fuel2)%nat →
  fillLoop fuel1 t vs i out = fillLoop fuel2 t vs i out.
Proof.
  induction fuel1 as [|f1 IH]; intros [|f2] i out H1 H2; simpl; try done.
  - destruct (Nat.ltb_spec i (len t)); [lia | done].
  - destruct (Nat.ltb_spec i (len t)); [lia | done].
  - destruct (Nat.ltb_spec i (len t)) as [Hlt|]; [|done].
    unfold indexOf.
    destruct (String.index i "{{" t) as [a|] eqn:Ha; [|done].
    destruct (String.index (a + 2) "}}" t) as [b|] eqn:Hb; [|done].
    apply index_bounds in Ha, Hb. apply IH; lia.
Qed.

Lemma scanParts_spec parts : ∀ def ts,
  scanParts parts def ts =
    (match def with
     | Some d => Some d
     | None => List.find (λ m, negb (isTransform m)) parts
     end, ts ++ specTransforms parts).
Proof.
  induction parts as [|p parts IH]; intros def ts; simpl.
  - rewrite app_nil_r. by destruct def.
  - assert (Hp : isTransform p =
      match transformOf (toLowerCase p) with Some _ => true | None => false end)
      by reflexivity.
    unfold specTransforms in *. simpl. rewrite Hp.
    destruct (transformOf (toLowerCase p)) as [t|]; simpl.
    + by rewrite IH, <- app_assoc.
    + destruct def; by rewrite IH.
Qed.

(** The code's expansion of one placeholder is the specification's rule. *)
Lemma expand_specResolve raw vs :
  expand raw vs =
    specResolve (hd EmptyString (map trim (split "|"%char raw)))
                (tl (map trim (split "|"%char raw))) vs.
Proof.
  unfold expand, specResolve.
  rewrite scanParts_spec. simpl.
  unfold specValue, specDefault, lookupVar.
  destruct (vs !! hd EmptyString (map trim (split "|"%char raw))) as [[| |[|c r]]|];
    try reflexivity.
Qed.

(** One complete placeholder: the text before it is copied, the placeholder
    is expanded, and the rest of the template is rendered the same way. *)
Lemma fillTokens_step t vs a b :
  indexOf "{{" t 0 = Some a →
  indexOf "}}" t (a + 2) = Some b →
  fillTokens t vs =
    slice t 0 a +:+ expand (trim (slice t (a + 2) b)) vs
      +:+ fillTokens (sliceFrom t (b + 2)) vs.
Proof.
  intros Ha Hb. unfold fillTokens.
  pose proof (index_bounds _ _ _ _ Ha) as [_ Ha2].
  pose proof (index_bounds _ _ _ _ Hb) as [Hb1 Hb2]. simpl in Ha2, Hb2.
  destruct (len t) as [|n] eqn:Hn; [unfold len in Hn; lia|].
  cbn [fillLoop]. rewrite Hn.
  destruct (Nat.ltb_spec 0 (S n)); [|lia].
  rewrite Ha, Hb, append_nil_l.
  rewrite fillLoop_suffix by (unfold len in *; lia).
  rewrite append_assoc, sliceFrom_sdrop. do 2 f_equal.
  apply fillLoop_fuel; unfold len in *; rewrite sdrop_length; lia.
Qed.

(** An opening [{{] that is never closed is copied as it is. *)
Lemma fillTokens_unclosed t vs a :
  indexOf "{{" t 0 = Some a →
  indexOf "}}" t (a + 2) = None →
  fillTokens t vs = t.
Proof.
  intros Ha Hb. unfold fillTokens.
  pose proof (index_bounds _ _ _ _ Ha) as [_ Ha2]. simpl in Ha2.
  destruct (len t) as [|n] eqn:Hn; [unfold len in Hn; lia|].
  cbn [fillLoop]. rewrite Hn.
  destruct (Nat.ltb_spec 0 (S n)); [|lia].
  rewrite Ha, Hb, append_nil_l, sliceFrom_sdrop.
  unfold slice. rewrite Nat.sub_0_r.
  clear -Ha2. revert a Ha2. induction t as [|c t IH]; intros [|a] Ha; simpl in *; try done; try lia.
  rewrite append_cons. f_equal. apply IH. lia.
Qed.

(** A template without [{{] is returned unchanged. *)
Lemma fillTokens_plain t vs :
  indexOf "{{" t 0 = None → fillTokens t vs = t.
Proof.
  intros Ha. unfold fillTokens.
  destruct (len t) as [|n] eqn:Hn.
  - destruct t; [done | discriminate].
  - cbn [fillLoop]. rewrite Hn. destruct (Nat.ltb_spec 0 (S n)); [|lia].
    by rewrite Ha, append_nil_l, sliceFrom_sdrop.
Qed.

(** C8. For every template and variable mapping, each complete placeholder
    [{{name|...}}] is replaced by the value of [name] in the mapping, or by
    the default (the first modifier that is no transform) when that value
    is absent, null or the empty string, with the transforms applied from
    left to right; the text before it is kept and the rest is rendered in
    the same way.  The four renderings the specification lists hold. *)
Theorem fillTokens_resolves :
  (∀ (t : string) (vs : vars) (a b : nat),
     indexOf "{{" t 0 = Some a →
     indexOf "}}" t (a + 2) = Some b →
     let fields := map trim (split "|"%char (trim (slice t (a + 2) b))) in
     fillTokens t vs =
       slice t 0 a +:+ specResolve (hd EmptyString fields) (tl fields) vs
         +:+ fillTokens (sliceFrom t (b + 2)) vs)
  ∧ fillTokens "{{x|fallback}}" ∅ = "fallback"
  ∧ fillTokens "{{x|fallback}}" {["x" := Str EmptyString]} = "fallback"
  ∧ fillTokens "{{x|fallback}}" {["x" := Str "hi"]} = "hi"
  ∧ fillTokens "{{x|there|title}}" {["x" := Str "bob smith"]} = "Bob Smith".
Proof.
  split; [|by vm_compute].
  intros t vs a b Ha Hb fields. subst fields.
  rewrite <- expand_specResolve. by apply fillTokens_step.
Qed.

Lemma fillTokens_resolves_witness :
  fillTokens "Dear {{ first_name | friend | Title }}, hello" {["first_name" := Str "aLICIA"]}
  = "Dear Alicia, hello".
Proof.
  rewrite (proj1 fillTokens_resolves _ _ 5%nat 36%nat); [| by vm_compute | by vm_compute].
  by vm_compute.
Defined.

(* ===================================================================== *)
(** ** Numbers as texts *)
(* ===================================================================== *)

Import JsNum JsDate Marketing.

Lemma trimEnd_allChars s :
  allChars (λ c, negb (isSpace c)) s = true → trimEnd s = s.
Proof.
  induction s as [|c s IH]; simpl; [done|].
  intros [Hc Hs]%andb_prop. rewrite (IH Hs).
  destruct s; [|done]. by destruct (isSpace c).
Qed.

Lemma trim_allChars s :
  allChars (λ c, negb (isSpace c)) s = true → trim s = s.
Proof.
  intros H. unfold trim.
  assert (trimStart s = s) as ->; [|by apply trimEnd_allChars].
  destruct s as [|c s]; simpl in *; [done|].
  apply andb_prop in H as [Hc _]. by destruct (isSpace c).
Qed.

Lemma allChars_impl (p q : ascii → bool) s :
  (∀ c, p c = true → q c = true) → allChars p s = true → allChars q s = true.
Proof.
  intros Hpq. induction s as [|c s IH]; simpl; [done|].
  intros [Hc Hs]%andb_prop. by rewrite (Hpq _ Hc), (IH Hs).
Qed.

Lemma numChar_not_space c : numChar c = true → negb (isSpace c) = true.
Proof. by destruct c as [[] [] [] [] [] [] [] []]. Qed.

Lemma numChar_not_plus c : numChar c = true → Ascii.eqb c "+" = false.
Proof. by destruct c as [[] [] [] [] [] [] [] []]. Qed.

Lemma string_of_uint_numChars d : allChars numChar (NilEmpty.string_of_uint d) = true.
Proof. induction d; simpl; by rewrite ?IHd. Qed.

Lemma string_of_int_numChars z :
  allChars numChar (NilZero.string_of_int (Z.to_int z)) = true.
Proof.
  destruct z as [|p|p]; simpl; [done| |].
  - unfold NilZero.string_of_uint.
    destruct (Pos.to_uint p) eqn:E; rewrite <- ?E; try apply string_of_uint_numChars; done.
  - unfold NilZero.string_of_uint.
    destruct (Pos.to_uint p) eqn:E; rewrite <- ?E; try apply string_of_uint_numChars; done.
Qed.

(** A count written with [String] is read back by [Number]. *)
Lemma Number_toStr z : Number (toStr (Num z)) = Num z.
Proof.
  unfold Number, toStr.
  pose proof (string_of_int_numChars z) as Hc.
  rewrite trim_allChars by (eapply allChars_impl; [apply numChar_not_space | done]).
  assert (Hi : NilZero.int_of_string (NilZero.string_of_int (Z.to_int z)) = Some (Z.to_int z)).
  { apply NilZero.isi; destruct z; simpl; try done;
      intros [= H]; by apply DecimalPos.Unsigned.to_uint_nonnil in H. }
  destruct (NilZero.string_of_int (Z.to_int z)) as [|c r] eqn:E; [done|].
  simpl in Hc. apply andb_prop in Hc as [Hc _].
  rewrite (numChar_not_plus _ Hc), Hi. f_equal. apply DecimalZ.of_to.
Qed.

(* ===================================================================== *)
(** ** The rate limiter *)
(* ===================================================================== *)







(* ===================================================================== *)
(** ** enrollContacts *)
(* ===================================================================== *)

Lemma enrollLoop_spec h campaignId nextRun now vbc ids : ∀ created w,
  ∃ w' added,
    enrollLoop h campaignId nextRun now vbc ids created w
      = Ok (created + Z.of_nat (length ids)) w'
    ∧ enrollments (db w') = enrollments (db w) ++ added
    ∧ (length added ≤ length ids)%nat
    ∧ Forall (freshRow campaignId nextRun (enrollments (db w))) added
    ∧ steps (db w') = steps (db w) ∧ config (db w') = config (db w).
Proof.
  induction ids as [|cid ids IH]; intros created w.
  - exists w, []. simpl. unfold ret. rewrite Z.add_0_r, app_nil_r.
    repeat split; auto.
  - cbn [enrollLoop]. unfold bind at 1. unfold cuid at 1. cbn beta iota.
    unfold bind at 1. unfold exec at 1. cbn beta iota.
    set (row := mkEnrollment _ _ _ _ _ _ _ _ _ _ _).
    set (w1 := setDb _ _).
    destruct (IH (created + 1) w1) as (w' & added & -> & Hrows & Hlen & Hfresh & Hs & Hc).
    subst w1. unfold setDb, bumpIds in *.
    cbn [db nDates nDraws nIds setEnrollments enrollments steps config] in *.
    unfold insertOrIgnore in *.
    destruct (existsb (conflicts row) (enrollments (db w))) eqn:Hex.
    + exists w', added. simpl length. rewrite Nat2Z.inj_succ.
      repeat split; auto; try lia. f_equal. lia.
    + exists w', (row :: added). rewrite Hrows, <- app_assoc.
      simpl length. rewrite Nat2Z.inj_succ.
      repeat split; auto; try lia.
      * f_equal. lia.
      * constructor; [by repeat split|].
        eapply Forall_impl; [exact Hfresh|].
        intros r (? & ? & ? & ? & Hr). repeat split; auto.
        rewrite existsb_app in Hr. by apply orb_false_elim in Hr as [? _].
Qed.

(** What [enrollContacts] returns and writes: the count is the number of ids
    passed, the rows there before stay as they are, and each added row is
    active at step 1, due at the start time plus the least [delay_minutes] of
    the campaign's steps. *)
Lemma enrollContacts_spec h campaignId ids startAtISO vbc w :
  let start := match startAtISO with Some t => t | None => clock h (nDates w) end in
  let nextRun := addMinutes start (firstDelay (db w) campaignId) in
  ∃ w' added,
    enrollContacts h campaignId ids startAtISO vbc w
      = Ok (Z.of_nat (length ids), nextRun) w'
    ∧ enrollments (db w') = enrollments (db w) ++ added
    ∧ (length added ≤ length ids)%nat
    ∧ Forall (freshRow campaignId nextRun (enrollments (db w))) added.
Proof.
  intros start nextRun. unfold enrollContacts.
  unfold bind at 1. unfold exec at 1. cbn beta iota.
  unfold bind at 1. unfold newDate at 1. cbn beta iota.
  unfold bind at 1. unfold query at 1. cbn beta iota.
  unfold setDb, bumpDates. cbn [db nDates nDraws nIds].
  set (w1 := mkWorld _ _ _ _).
  assert (Hd : firstDelay (ensureMarketingSchema (db w)) campaignId
               = firstDelay (db w) campaignId) by reflexivity.
  rewrite Hd. fold start. fold nextRun.
  unfold bind at 1.
  destruct (enrollLoop_spec h campaignId nextRun (clock h (nDates w)) vbc ids 0 w1)
    as (w' & added & -> & Hrows & Hlen & Hfresh & _).
  exists w', added. repeat split; auto.
Qed.

(* ===================================================================== *)
(** ** Rows of marketing_enrollments *)
(* ===================================================================== *)

Lemma updEnrollRow_id a b c u i r : e_id (updEnrollRow a b c u i r) = e_id r.
Proof. unfold updEnrollRow. by destruct (String.eqb (e_id r) i). Qed.

Lemma markDoneRow_id u i r : e_id (markDoneRow u i r) = e_id r.
Proof. unfold markDoneRow. by destruct (String.eqb (e_id r) i). Qed.

Lemma updEnrollRow_other a b c u i r : e_id r ≠ i → updEnrollRow a b c u i r = r.
Proof.
  intros H. unfold updEnrollRow. by destruct (String.eqb_spec (e_id r) i).
Qed.

Lemma markDoneRow_other u i r : e_id r ≠ i → markDoneRow u i r = r.
Proof.
  intros H. unfold markDoneRow. by destruct (String.eqb_spec (e_id r) i).
Qed.

Lemma find_id_map (f : Enrollment → Enrollment) id l :
  (∀ r, e_id (f r) = e_id r) →
  List.find (λ r, String.eqb (e_id r) id) (map f l)
  = f <$> List.find (λ r, String.eqb (e_id r) id) l.
Proof.
  intros Hf. induction l as [|r l IH]; simpl; [done|].
  rewrite Hf. by destruct (String.eqb (e_id r) id).
Qed.

Lemma enrollmentById_id d id r : enrollmentById d id = Some r → e_id r = id.
Proof.
  unfold enrollmentById. intros [_ H]%List.find_some. by apply String.eqb_eq.
Qed.

Lemma enrollmentById_map f d id :
  (∀ r, e_id (f r) = e_id r) →
  enrollmentById (setEnrollments (map f) d) id = f <$> enrollmentById d id.
Proof. intros Hf. unfold enrollmentById. simpl. by apply find_id_map. Qed.

Lemma enrollmentById_map_other f d id :
  (∀ r, e_id (f r) = e_id r) → (∀ r, e_id r = id → f r = r) →
  enrollmentById (setEnrollments (map f) d) id = enrollmentById d id.
Proof.
  intros Hf Ho. rewrite enrollmentById_map by done.
  destruct (enrollmentById d id) as [r|] eqn:E; [|done].
  simpl. f_equal. apply Ho. by apply (enrollmentById_id d).
Qed.

(** With ids unique, the row with a given id is the row found by that id. *)
Lemma enrollmentById_In d r :
  NoDup (map e_id (enrollments d)) → In r (enrollments d) →
  enrollmentById d (e_id r) = Some r.
Proof.
  unfold enrollmentById. induction (enrollments d) as [|x l IH]; simpl; [done|].
  intros Hnd [->|Hin]; [by rewrite String.eqb_refl|].
  apply NoDup_cons in Hnd as [Hx Hnd].
  destruct (String.eqb_spec (e_id x) (e_id r)) as [Heq|]; [|by apply IH].
  exfalso. apply Hx. rewrite Heq. apply list_elem_of_In. by apply in_map.
Qed.

(* ===================================================================== *)
(** ** Frames *)
(* ===================================================================== *)

Lemma frame_refl ids d : frame ids d d.
Proof. split; auto. exists []. by rewrite app_nil_r. Qed.

Lemma suppressed_static d d' c :
  suppressions d' = suppressions d → suppressed d' c = suppressed d c.
Proof. unfold suppressed. by intros ->. Qed.

Lemma stepQuery_static d d' c k :
  steps d' = steps d → stepQuery d' c k = stepQuery d c k.
Proof. unfold stepQuery. by intros ->. Qed.

Lemma frame_trans ids1 ids2 d1 d2 d3 :
  frame ids1 d1 d2 → frame ids2 d2 d3 → frame (ids1 ++ ids2) d1 d3.
Proof.
  intros [s1 p1 c1 i1 o1 (x1 & e1 & f1)] [s2 p2 c2 i2 o2 (x2 & e2 & f2)].
  split; try congruence.
  - intros id Hid. rewrite o2 by set_solver. by rewrite o1 by set_solver.
  - exists (x1 ++ x2). rewrite e2, e1, app_assoc. split; [done|].
    apply Forall_app. split; [done|].
    eapply Forall_impl; [exact f2|]. intros m Hm. simpl in Hm.
    by rewrite <- (suppressed_static _ _ _ p1).
Qed.

Lemma frame_weaken ids ids' d d' :
  ids ⊆ ids' → frame ids d d' → frame ids' d d'.
Proof.
  intros Hsub [s p c i o x]. split; auto.
  all: intros id Hid; apply o; set_solver.
Qed.

Lemma frame_map ids f d :
  (∀ r, e_id (f r) = e_id r) → (∀ r, e_id r ∉ ids → f r = r) →
  frame ids d (setEnrollments (map f) d).
Proof.
  intros Hid Ho. split; try done.
  - simpl. rewrite map_map. by apply map_ext.
  - intros id Hn. apply enrollmentById_map_other; [done|].
    intros r <-. by apply Ho.
  - exists []. by rewrite app_nil_r.
Qed.

Lemma frame_updEnroll a b c u i d :
  frame [i] d (setEnrollments (map (updEnrollRow a b c u i)) d).
Proof.
  apply frame_map; [apply updEnrollRow_id|].
  intros r Hr. apply updEnrollRow_other. set_solver.
Qed.

Lemma frame_markDone u i d :
  frame [i] d (setEnrollments (map (markDoneRow u i)) d).
Proof.
  apply frame_map; [apply markDoneRow_id|].
  intros r Hr. apply markDoneRow_other. set_solver.
Qed.

Lemma frame_setConfig f d : frame [] d (setConfig f d).
Proof. split; try done. exists []. by rewrite app_nil_r. Qed.

Lemma frame_insSend row d :
  suppressed d (m_contact_id row) = false →
  frame [] d (setSends (λ l, l ++ [row]) d).
Proof. intros H. split; try done. exists [row]. split; [done|]. by constructor. Qed.

(* ===================================================================== *)
(** ** One turn of the loop *)
(* ===================================================================== *)

Ltac unfold_monad :=
  unfold updEnroll, markDone, insSend, putConfig, configValue, bind, ret, throw,
    query, exec, newDate, mathRandom100, cuid in *.

Section OneTurn.
Variables (h : Host) (t : Tick).

(** *** Advancing *)

Lemma advance_next row lastSent c w sn :
  stepQuery (db w) (e_campaign_id row) (e_next_step_order row + 1) = Some sn →
  advance h t row lastSent c w =
    Ok c (setDb (setEnrollments (map (updEnrollRow (e_next_step_order row + 1)
                  (addMinutes (clock h (nDates w)) (orZero (s_delay_minutes sn)))
                  lastSent (now t) (e_id row))) (db w))
            (bumpDates w)).
Proof. intros H. unfold advance. unfold_monad. by rewrite H. Qed.

Lemma advance_done row lastSent c w :
  stepQuery (db w) (e_campaign_id row) (e_next_step_order row + 1) = None →
  advance h t row lastSent c w =
    Ok (incCompleted c)
       (setDb (setEnrollments (map (markDoneRow (now t) (e_id row))) (db w)) w).
Proof. intros H. unfold advance. unfold_monad. by rewrite H. Qed.

(** Advancing always returns, and changes one enrollment only. *)
Lemma advance_returns row lastSent c w :
  ∃ c' w', advance h t row lastSent c w = Ok c' w'
           ∧ frame [e_id row] (db w) (db w')
           ∧ config (db w') = config (db w) ∧ sends (db w') = sends (db w).
Proof.
  destruct (stepQuery (db w) (e_campaign_id row) (e_next_step_order row + 1))
    as [sn|] eqn:E.
  - rewrite (advance_next _ _ _ _ _ E). eexists _, _. split; [done|].
    split; [apply frame_updEnroll | done].
  - rewrite (advance_done _ _ _ _ E). eexists _, _. split; [done|].
    split; [apply frame_markDone | done].
Qed.

(** *** The paths through the body of the loop *)

Lemma tickOne_suppressed e st w :
  suppressed (db w) (e_contact_id (d_row e)) = true →
  tickOne h t e st w =
    match advance h t (d_row e) None (incSuppressed (incProcessed (counts st))) w with
    | Ok c w' => Ok (Continue, mkLoop c (limiter st)) w'
    | Thrown w' => Thrown w'
    end.
Proof. intros H. unfold tickOne. unfold_monad. by rewrite H. Qed.

Lemma tickOne_no_step e st w :
  suppressed (db w) (e_contact_id (d_row e)) = false →
  stepQuery (db w) (e_campaign_id (d_row e)) (e_next_step_order (d_row e)) = None →
  tickOne h t e st w =
    Ok (Continue, mkLoop (incCompleted (incProcessed (counts st))) (limiter st))
       (setDb (setEnrollments (map (markDoneRow (now t) (dueId e))) (db w)) w).
Proof. intros H1 H2. unfold tickOne. unfold_monad. by rewrite H1, H2. Qed.

Lemma tickOne_quiet e st w step startH :
  suppressed (db w) (e_contact_id (d_row e)) = false →
  stepQuery (db w) (e_campaign_id (d_row e)) (e_next_step_order (d_row e)) = Some step →
  isOkWindow t = false →
  Number (quietStart t) = Num startH →
  tickOne h t e st w =
    Ok (Continue, mkLoop (incSkippedQuiet (incProcessed (counts st))) (limiter st))
       (setDb (setEnrollments (map (updEnrollRow (e_next_step_order (d_row e))
                 (tomorrowAt (tzOffsetMs h) (clock h (nDates w)) startH)
                 (e_last_sent_at (d_row e)) (now t) (dueId e))) (db w))
              (bumpDates w)).
Proof.
  intros H1 H2 H3 H4. unfold tickOne. unfold_monad. by rewrite H1, H2, H3, H4.
Qed.

Lemma tickOne_quiet_invalid e st w step :
  suppressed (db w) (e_contact_id (d_row e)) = false →
  stepQuery (db w) (e_campaign_id (d_row e)) (e_next_step_order (d_row e)) = Some step →
  isOkWindow t = false →
  Number (quietStart t) = NaN →
  tickOne h t e st w = Thrown (bumpDates w).
Proof.
  intros H1 H2 H3 H4. unfold tickOne. unfold_monad. by rewrite H1, H2, H3, H4.
Qed.

Lemma tickOne_limited e st w step :
  suppressed (db w) (e_contact_id (d_row e)) = false →
  stepQuery (db w) (e_campaign_id (d_row e)) (e_next_step_order (d_row e)) = Some step →
  isOkWindow t = true →
  refuses (limiter st) = true →
  tickOne h t e st w = Ok (Break, mkLoop (incProcessed (counts st)) (limiter st)) w.
Proof.
  intros H1 H2 H3 H4. unfold refuses in H4.
  unfold tickOne, take. unfold_monad. by rewrite H1, H2, H3, H4.
Qed.

Lemma tickOne_taken e st w step :
  suppressed (db w) (e_contact_id (d_row e)) = false →
  stepQuery (db w) (e_campaign_id (d_row e)) (e_next_step_order (d_row e)) = Some step →
  isOkWindow t = true →
  refuses (limiter st) = false →
  tickOne h t e st w =
    sendStep h t e step
      (mkLoop (incProcessed (counts st)) (takenLimiter (limiter st)))
      (takenWorld (limiter st) w).
Proof.
  intros H1 H2 H3 H4. unfold refuses in H4.
  unfold tickOne, take. unfold_monad. by rewrite H1, H2, H3, H4.
Qed.

(** Choosing the variant always returns and leaves the database alone. *)
Lemma chooseVariant_returns step w :
  ∃ v w', chooseVariant h step w = Ok v w'
          ∧ db w' = db w ∧ nDates w' = nDates w ∧ nIds w' = nIds w.
Proof.
  unfold chooseVariant. unfold_monad.
  destruct (negb (truthy (s_subject_b step)) && negb (truthy (s_body_b step)));
    eexists _, _; split; done.
Qed.

Lemma sendStep_rejects e step st w v w1 :
  chooseVariant h step w = Ok v w1 →
  sendEmailAdapter h (composeMail h t e step v) = Rejects →
  sendStep h t e step st w = Thrown w1.
Proof. intros Hv Hr. unfold sendStep, bind. by rewrite Hv, Hr. Qed.

Lemma sendStep_resolves e step st w v w1 result :
  chooseVariant h step w = Ok v w1 →
  sendEmailAdapter h (composeMail h t e step v) = Resolves result →
  sendStep h t e step st w =
    match advance h t (d_row e) (Some (now t))
            (if String.eqb (sendStatus result) "sent" then incSent (counts st)
             else incQueued (counts st))
            (setDb (setSends (λ l, l ++ [logRow t e ("id_" +:+ uuid h (nIds w1))
                                           (composeMail h t e step v) v result])
                      (db w1))
                   (bumpIds w1)) with
    | Ok c w' => Ok (Continue, mkLoop c (limiter st)) w'
    | Thrown w' => Thrown w'
    end.
Proof.
  intros Hv Hr. unfold sendStep, bind at 1. rewrite Hv. cbn beta iota. rewrite Hr.
  unfold bind at 1. unfold cuid at 1. cbn beta iota.
  unfold bind at 1. unfold insSend, exec at 1. cbn beta iota.
  unfold bind, ret. reflexivity.
Qed.

(** Every run of the body follows one of the paths of [turn]. *)
Lemma tickOne_turn e st w : turn h t e st w (tickOne h t e st w).
Proof.
  destruct (suppressed (db w) (e_contact_id (d_row e))) eqn:Hs.
  { rewrite tickOne_suppressed by done.
    destruct (advance_returns (d_row e) None
                (incSuppressed (incProcessed (counts st))) w) as (c & w' & Ha & _).
    rewrite Ha. by constructor. }
  destruct (stepQuery (db w) (e_campaign_id (d_row e)) (e_next_step_order (d_row e)))
    as [step|] eqn:Hq.
  2: { rewrite tickOne_no_step by done. by constructor. }
  destruct (isOkWindow t) eqn:Hw.
  2: { destruct (Number (quietStart t)) as [|startH] eqn:Hn.
       - rewrite (tickOne_quiet_invalid _ _ _ step) by done. by econstructor.
       - rewrite (tickOne_quiet _ _ _ step startH) by done. by econstructor. }
  destruct (refuses (limiter st)) eqn:Hr.
  { rewrite (tickOne_limited _ _ _ step) by done. by econstructor. }
  rewrite (tickOne_taken _ _ _ step) by done.
  destruct (chooseVariant_returns step (takenWorld (limiter st) w))
    as (v & w1 & Hv & _).
  destruct (sendEmailAdapter h (composeMail h t e step v)) as [|result] eqn:Hm.
  { rewrite (sendStep_rejects _ _ _ _ v w1) by done. by econstructor. }
  rewrite (sendStep_resolves _ _ _ _ v w1 result) by done. cbn [counts limiter].
  match goal with
  | |- context [advance ?a ?b ?c ?d ?e ?f] =>
      destruct (advance_returns c d e f) as (c' & w' & Ha & _)
  end.
  rewrite Ha. by econstructor.
Qed.

End OneTurn.

(* ===================================================================== *)
(** ** What one turn and the loop may change *)
(* ===================================================================== *)

Section Frames.
Variables (h : Host) (t : Tick).

Lemma advance_effect row lastSent c w c' w' :
  advance h t row lastSent c w = Ok c' w' →
  frame [e_id row] (db w) (db w')
  ∧ config (db w') = config (db w) ∧ sends (db w') = sends (db w)
  ∧ (c' = c ∨ c' = incCompleted c).
Proof.
  destruct (stepQuery (db w) (e_campaign_id row) (e_next_step_order row + 1))
    as [sn|] eqn:E.
  - rewrite (advance_next _ _ _ _ _ _ _ E). intros [= <- <-].
    split; [apply frame_updEnroll | auto].
  - rewrite (advance_done _ _ _ _ _ _ E). intros [= <- <-].
    split; [apply frame_markDone | auto].
Qed.

Lemma chooseVariant_effect step w v w1 :
  chooseVariant h step w = Ok v w1 →
  db w1 = db w ∧ nDates w1 = nDates w ∧ nIds w1 = nIds w.
Proof.
  unfold chooseVariant. unfold_monad.
  destruct (negb (truthy (s_subject_b step)) && negb (truthy (s_body_b step)));
    by intros [= <- <-].
Qed.

Lemma turn_frame e st w r :
  turn h t e st w r → frame [dueId e] (db w) (db (finalWorld r)).
Proof.
  destruct 1 as [c w' Hs Ha| | | | |step v w1 Hs Hq Hw Hr Hv Hm
                |step v w1 result c w' Hs Hq Hw Hr Hv Hm Ha]; simpl.
  - by apply advance_effect in Ha as [? _].
  - apply frame_markDone.
  - apply frame_updEnroll.
  - apply frame_refl.
  - apply frame_refl.
  - apply chooseVariant_effect in Hv as [-> _]. simpl.
    eapply frame_weaken; [|apply frame_setConfig]. set_solver.
  - apply chooseVariant_effect in Hv as [Hdb _].
    apply advance_effect in Ha as [Hf _]. simpl in Hf. rewrite Hdb in Hf. simpl in Hf.
    change [dueId e] with ([] ++ ([] ++ [dueId e])).
    eapply frame_trans; [apply frame_setConfig|].
    eapply frame_trans; [|exact Hf].
    by apply frame_insSend.
Qed.

Lemma tickOne_frame e st w :
  frame [dueId e] (db w) (db (finalWorld (tickOne h t e st w))).
Proof. exact (turn_frame e st w _ (tickOne_turn h t e st w)). Qed.

Lemma tickLoop_frame due : ∀ st w,
  frame (map dueId due) (db w) (db (finalWorld (tickLoop h t due st w))).
Proof.
  induction due as [|e rest IH]; intros st w; [apply frame_refl|].
  cbn [tickLoop map]. unfold bind.
  pose proof (tickOne_frame e st w) as Hf.
  destruct (tickOne h t e st w) as [[[|] st'] w'|w']; simpl in *.
  - change (dueId e :: map dueId rest) with ([dueId e] ++ map dueId rest).
    eapply frame_trans; [exact Hf | apply IH].
  - eapply frame_weaken; [|exact Hf]. intros x ->%list_elem_of_singleton. by left.
  - eapply frame_weaken; [|exact Hf]. intros x ->%list_elem_of_singleton. by left.
Qed.

(** The loop over [pre ++ post] runs [pre], and then [post] unless [pre]
    stopped it. *)
Lemma tickLoop_app pre post : ∀ st w,
  tickLoop h t (pre ++ post) st w =
    match tickLoop h t pre st w with
    | Ok (Continue, st1) w1 => tickLoop h t post st1 w1
    | r => r
    end.
Proof.
  induction pre as [|e pre IH]; intros st w; [done|].
  cbn [app tickLoop]. unfold bind.
  destruct (tickOne h t e st w) as [[[|] st'] w'|w']; [apply IH | done | done].
Qed.

End Frames.

(* ===================================================================== *)
(** ** The due rows and the setup of a tick *)
(* ===================================================================== *)

Lemma joinContact_row cs x d : joinContact cs x = Some d → d_row d = x.
Proof.
  unfold joinContact. destruct (List.find _ cs); [|done]. by intros [= <-].
Qed.

Lemma insertDue_perm x l : insertDue x l ≡ₚ x :: l.
Proof.
  induction l as [|y l IH]; simpl; [done|].
  destruct (e_next_run_at (d_row x) <? e_next_run_at (d_row y)); [done|].
  rewrite IH. apply perm_swap.
Qed.

Lemma sortDue_perm l : sortDue l ≡ₚ l.
Proof.
  induction l as [|x l IH]; simpl; [done|].
  by rewrite insertDue_perm, IH.
Qed.

Lemma limitRows_sublist {T} n (l : list T) : limitRows n l `sublist_of` l.
Proof. unfold limitRows. destruct (n <? 0); [done | apply sublist_take]. Qed.

Lemma limitRows_length {T} n (l : list T) :
  0 <= n → Z.of_nat (length (limitRows n l)) <= n.
Proof.
  intros Hn. unfold limitRows. destruct (Z.ltb_spec n 0); [lia|].
  rewrite length_take. lia.
Qed.

Lemma map_sublist {T U} (f : T → U) l1 l2 :
  l1 `sublist_of` l2 → map f l1 `sublist_of` map f l2.
Proof. induction 1; simpl; by constructor. Qed.

Lemma dueIds_sublist cs p l :
  map dueId (omap (joinContact cs) (List.filter p l)) `sublist_of` map e_id l.
Proof.
  induction l as [|x l IH]; simpl; [done|].
  destruct (p x); simpl; [|by constructor].
  destruct (joinContact cs x) as [d|] eqn:E; simpl; [|by constructor].
  unfold dueId at 1. rewrite (joinContact_row _ _ _ E). by constructor.
Qed.

(** The due rows have distinct ids when the enrollments have. *)
Lemma selectDue_NoDup d now batch :
  NoDup (map e_id (enrollments d)) → NoDup (map dueId (selectDue d now batch)).
Proof.
  intros Hnd. unfold selectDue.
  eapply sublist_NoDup; [|apply map_sublist, limitRows_sublist].
  eapply NoDup_Permutation_proper; [apply Permutation_map, sortDue_perm|].
  eapply sublist_NoDup; [exact Hnd | apply dueIds_sublist].
Qed.

(** A due row is a row of the table, active and due. *)
Lemma selectDue_In d now batch e :
  e ∈ selectDue d now batch →
  In (d_row e) (enrollments d) ∧ isDue now (d_row e) = true.
Proof.
  unfold selectDue. intros He.
  eapply elem_of_sublist in He; [|apply limitRows_sublist].
  rewrite sortDue_perm in He.
  apply list_elem_of_omap in He as (x & Hx & Hj).
  rewrite (joinContact_row _ _ _ Hj).
  apply list_elem_of_In in Hx. by apply List.filter_In in Hx.
Qed.

Lemma selectDue_length d now batch :
  0 <= batch → Z.of_nat (length (selectDue d now batch)) <= batch.
Proof. apply limitRows_length. Qed.

(** With ids unique, each due row is the current row of its enrollment. *)
Lemma selectDue_snapshot d now batch e :
  NoDup (map e_id (enrollments d)) → e ∈ selectDue d now batch →
  enrollmentById d (dueId e) = Some (d_row e).
Proof.
  intros Hnd [Hin _]%selectDue_In. by apply enrollmentById_In.
Qed.

Lemma withinQuietHours_closed tz n s e :
  withinQuietHours tz n s e = false → ∃ startH, Number s = Num startH.
Proof.
  unfold withinQuietHours. destruct (Number s) as [|z]; simpl; [done | eauto].
Qed.

(** The setup of a tick always returns; it reads the clock twice, may write
    configuration rows only, and selects the due rows at its first reading. *)
Lemma tickSetup_returns h batch w :
  ∃ t st due w0,
    tickSetup h batch w = Ok (t, st, due) w0
    ∧ now t = clock h (nDates w)
    ∧ (isOkWindow t = false → ∃ startH, Number (quietStart t) = Num startH)
    ∧ counts st = zeroCounts
    ∧ due = selectDue (db w0) (now t) batch
    ∧ enrollments (db w0) = enrollments (db w)
    ∧ steps (db w0) = steps (db w)
    ∧ suppressions (db w0) = suppressions (db w)
    ∧ contacts (db w0) = contacts (db w)
    ∧ sends (db w0) = sends (db w).
Proof.
  unfold tickSetup, rateLimiterState. unfold_monad. cbn beta iota.
  match goal with
  | |- context [String.eqb ?a ?b] => destruct (String.eqb a b)
  end; eexists _, _, _, _; (split; [reflexivity|]); cbn;
    (split; [done|]); (split; [apply withinQuietHours_closed|]); done.
Qed.

Lemma marketingTick_unfold h batch w t st due w0 :
  tickSetup h batch w = Ok (t, st, due) w0 →
  marketingTick h batch w =
    match tickLoop h t due st w0 with
    | Ok r w' => Ok (counts (snd r)) w'
    | Thrown w' => Thrown w'
    end.
Proof. intros H. unfold marketingTick, bind. by rewrite H. Qed.

(* ===================================================================== *)
(** ** The counters *)
(* ===================================================================== *)

Section Counters.
Variables (h : Host) (t : Tick).

Lemma turn_counts e st w f st' w' :
  turn h t e st w (Ok (f, st') w') → oneMore (counts st) (counts st').
Proof.
  inversion 1; subst; unfold oneMore; cbn;
    try match goal with
        | Ha : advance _ _ _ _ _ _ = Ok _ _ |- _ =>
            apply advance_effect in Ha as (_ & _ & _ & [-> | ->])
        end;
    try match goal with
        | |- context [String.eqb ?a ?b] => destruct (String.eqb a b)
        end;
    cbn; lia.
Qed.

Lemma oneMore_ok c c' : oneMore c c' → countsOk c → countsOk c'.
Proof. unfold oneMore, countsOk. lia. Qed.

Lemma tickLoop_counts due : ∀ st w f st' w',
  tickLoop h t due st w = Ok (f, st') w' →
  processed (counts st') <= processed (counts st) + Z.of_nat (length due)
  ∧ (countsOk (counts st) → countsOk (counts st')).
Proof.
  induction due as [|e rest IH]; intros st w f st' w'.
  - intros [= <- <- <-]. simpl. split; [lia | done].
  - cbn [tickLoop]. unfold bind.
    pose proof (tickOne_turn h t e st w) as Ht.
    destruct (tickOne h t e st w) as [[[|] st1] w1|w1]; [| |done].
    + intros Hl. apply turn_counts in Ht. apply IH in Hl as [Hp Hok].
      simpl length. rewrite Nat2Z.inj_succ.
      split; [unfold oneMore in Ht; lia|].
      intros Hc. by eapply Hok, oneMore_ok.
    + intros [= <- <- <-]. apply turn_counts in Ht.
      simpl length. rewrite Nat2Z.inj_succ.
      split; [unfold oneMore in Ht; lia | by apply oneMore_ok].
Qed.

(** The loop returns when the transport never rejects and the start of the
    window is a number whenever the window is closed. *)
Lemma tickLoop_returns due :
  (∀ m, sendEmailAdapter h m ≠ Rejects) →
  (isOkWindow t = false → ∃ startH, Number (quietStart t) = Num startH) →
  ∀ st w, ∃ r w', tickLoop h t due st w = Ok r w'.
Proof.
  intros Hm Hq. induction due as [|e rest IH]; intros st w; [by eexists _, _|].
  cbn [tickLoop]. unfold bind.
  pose proof (tickOne_turn h t e st w) as Ht.
  destruct (tickOne h t e st w) as [[[|] st1] w1|w1].
  - apply IH.
  - by eexists _, _.
  - exfalso. inversion Ht; subst.
    + match goal with Hw : isOkWindow t = false |- _ =>
        destruct (Hq Hw) as [z Hz] end. congruence.
    + match goal with Hrej : sendEmailAdapter _ _ = Rejects |- _ =>
        by apply Hm in Hrej end.
Qed.

End Counters.

(** C9. For a tick with batch size [B] (not negative): the counts it returns
    satisfy [processed <= B], [sent + queued + suppressed + skipped_quiet <=
    processed] and [completed <= processed]; each turn of the loop counts
    its enrollment once as processed and in at most one of sent, queued,
    suppressed and skipped; and the tick does return its counts whenever the
    transport does not throw. *)
Theorem marketingTick_counts (h : Host) (B : Z) (w : World) :
  0 <= B →
  (∀ c w', marketingTick h B w = Ok c w' →
     processed c <= B
     ∧ sent c + queued c + suppressedCount c + skippedQuiet c <= processed c
     ∧ completedCount c <= processed c)
  ∧ (∀ t e st w1 f st' w', tickOne h t e st w1 = Ok (f, st') w' →
       oneMore (counts st) (counts st'))
  ∧ ((∀ m, sendEmailAdapter h m ≠ Rejects) → ∃ c w', marketingTick h B w = Ok c w').
Proof.
  intros HB.
  destruct (tickSetup_returns h B w)
    as (t & st & due & w0 & Hsetup & _ & Hq & Hc & Hdue & _).
  rewrite (marketingTick_unfold _ _ _ _ _ _ _ Hsetup).
  split; [|split].
  - intros c w' Hret.
    destruct (tickLoop h t due st w0) as [[f st'] w1|w1] eqn:Hl; [|done].
    injection Hret as <- <-. apply tickLoop_counts in Hl as [Hp Hok].
    rewrite Hc in Hp, Hok. cbn [snd].
    assert (Hz : countsOk zeroCounts) by (unfold countsOk; simpl; lia).
    apply Hok in Hz. unfold countsOk in Hz. subst due.
    pose proof (selectDue_length (db w0) (now t) B HB). simpl in Hp. lia.
  - intros t' e st0 w1 f st' w' Hone. eapply turn_counts.
    rewrite <- Hone. apply tickOne_turn.
  - intros Hm. destruct (tickLoop_returns h t due Hm Hq st w0) as (r & w' & ->).
    by eexists _, _.
Qed.

(* ===================================================================== *)
(** ** A due row the tick gets to *)
(* ===================================================================== *)

Section Reaches.
Variables (h : Host) (B : Z) (w : World).
Hypothesis ids_unique : NoDup (map e_id (enrollments (db w))).
Variables (t : Tick) (e : Due) (st1 : Loop) (w1 : World) (post : list Due).
Hypothesis reached : reaches h B w t e st1 w1 post.

(** From there the tick is the turn on [e] followed by the rows after it. *)
Lemma reaches_resume : marketingTick h B w = resume h t e st1 w1 post.
Proof.
  destruct reached as (st & due & w0 & pre & Hsetup & -> & Hpre).
  rewrite (marketingTick_unfold _ _ _ _ _ _ _ Hsetup).
  rewrite tickLoop_app, Hpre. unfold resume. cbn [tickLoop]. unfold bind.
  by destruct (tickOne h t e st1 w1) as [[[|] st2] w2|w2].
Qed.

(** The tables the tick reads are those of the start. *)
Lemma reaches_static :
  steps (db w1) = steps (db w) ∧ suppressions (db w1) = suppressions (db w)
  ∧ contacts (db w1) = contacts (db w).
Proof.
  destruct reached as (st & due & w0 & pre & Hsetup & -> & Hpre).
  destruct (tickSetup_returns h B w)
    as (t' & st' & due' & w0' & Hs' & _ & _ & _ & _ & _ & Hst & Hsu & Hco & _).
  rewrite Hsetup in Hs'. injection Hs' as <- <- <- <-.
  pose proof (tickLoop_frame h t pre st w0) as Hf. rewrite Hpre in Hf.
  destruct Hf as [F1 F2 F3 _ _ _]. simpl in *. repeat split; congruence.
Qed.

Lemma reaches_suppressed c : suppressed (db w1) c = suppressed (db w) c.
Proof. apply suppressed_static, reaches_static. Qed.

Lemma reaches_stepQuery c k : stepQuery (db w1) c k = stepQuery (db w) c k.
Proof. apply stepQuery_static, reaches_static. Qed.

(** The due rows have distinct ids and are the rows of the start. *)
Lemma reaches_due :
  ∃ st due w0 pre,
    tickSetup h B w = Ok (t, st, due) w0
    ∧ due = pre ++ e :: post
    ∧ tickLoop h t pre st w0 = Ok (Continue, st1) w1
    ∧ enrollments (db w0) = enrollments (db w)
    ∧ sends (db w0) = sends (db w)
    ∧ NoDup (map dueId due)
    ∧ (∀ x, x ∈ due → enrollmentById (db w) (dueId x) = Some (d_row x)
                     ∧ isDue (now t) (d_row x) = true)
    ∧ (isOkWindow t = false → ∃ startH, Number (quietStart t) = Num startH).
Proof.
  destruct reached as (st & due & w0 & pre & Hsetup & Hdue & Hpre).
  destruct (tickSetup_returns h B w)
    as (t' & st' & due' & w0' & Hs' & _ & Hq & _ & Hsel & Hen & _ & _ & _ & Hse).
  rewrite Hsetup in Hs'. injection Hs' as <- <- <- <-.
  exists st, due, w0, pre. repeat split; auto.
  - rewrite Hsel. apply selectDue_NoDup. by rewrite Hen.
  - rewrite Hsel in H. apply selectDue_In in H as [Hin _].
    rewrite Hen in Hin. by apply enrollmentById_In.
  - rewrite Hsel in H. by apply selectDue_In in H as [_ ?].
Qed.

(** The row of [e], and of every due row after it, is still that of the
    start when the tick gets to [e]. *)
Lemma reaches_untouched x :
  x ∈ e :: post →
  enrollmentById (db w1) (dueId x) = Some (d_row x)
  ∧ enrollmentById (db w) (dueId x) = Some (d_row x).
Proof.
  intros Hx.
  destruct reaches_due as (st & due & w0 & pre & Hsetup & -> & Hpre & Hen & _ & Hnd & Hsnap & _).
  assert (Hw : enrollmentById (db w) (dueId x) = Some (d_row x)).
  { apply Hsnap. apply elem_of_app. by right. }
  split; [|done]. rewrite <- Hw.
  pose proof (tickLoop_frame h t pre st w0) as Hf. rewrite Hpre in Hf. simpl in Hf.
  rewrite (fr_other _ _ _ Hf).
  - unfold enrollmentById. by rewrite Hen.
  - rewrite map_app in Hnd. apply NoDup_app in Hnd as (_ & Hdis & _).
    intros Hin. apply (Hdis _ Hin).
    apply list_elem_of_In, in_map, list_elem_of_In, Hx.
Qed.


End Reaches.

(* ===================================================================== *)
(** ** The rate-limit gate stops the tick *)
(* ===================================================================== *)

(** C3. Within a tick, the first time [take(1)] is refused, at the due row
    [e], the tick stops: it returns at once, in the state the rows before [e]
    left, so that nothing more is sent or written, and [e] and every due row
    after it keep the row they had when the tick started. *)
Theorem rate_limit_stops_tick (h : Host) (B : Z) (w : World) (t : Tick) (e : Due)
    (st1 : Loop) (w1 : World) (post : list Due) (step : Step) :
  NoDup (map e_id (enrollments (db w))) →
  reaches h B w t e st1 w1 post →
  suppressed (db w) (e_contact_id (d_row e)) = false →
  stepQuery (db w) (e_campaign_id (d_row e)) (e_next_step_order (d_row e)) = Some step →
  isOkWindow t = true →
  refuses (limiter st1) = true →
  tickOne h t e st1 w1 = Ok (Break, mkLoop (incProcessed (counts st1)) (limiter st1)) w1
  ∧ marketingTick h B w = Ok (incProcessed (counts st1)) w1
  ∧ ∀ x, x ∈ e :: post →
      enrollmentById (db w1) (dueId x) = enrollmentById (db w) (dueId x)
      ∧ enrollmentById (db w) (dueId x) = Some (d_row x).
Proof.
  intros Hnd Hreach Hs Hq Hw Hr.
  assert (Hone : tickOne h t e st1 w1
                 = Ok (Break, mkLoop (incProcessed (counts st1)) (limiter st1)) w1).
  { apply (tickOne_limited h t e st1 w1 step); try done.
    - by rewrite (reaches_suppressed h B w t e st1 w1 post Hreach).
    - by rewrite (reaches_stepQuery h B w t e st1 w1 post Hreach). }
  split; [done|]. split.
  - rewrite (reaches_resume h B w t e st1 w1 post Hreach). unfold resume.
    by rewrite Hone.
  - intros x Hx.
    destruct (reaches_untouched h B w Hnd t e st1 w1 post Hreach x Hx) as [H1 H2].
    by rewrite H1, H2.
Qed.

(* ===================================================================== *)
(** ** Suppressed contacts *)
(* ===================================================================== *)

Lemma updEnrollRow_self a b c u r :
  updEnrollRow a b c u (e_id r) r =
    mkEnrollment (e_id r) (e_campaign_id r) (e_contact_id r) (e_status r) a b c
      (e_variant_json r) (e_data_json r) (e_created_at r) u.
Proof. unfold updEnrollRow. by rewrite String.eqb_refl. Qed.

Lemma markDoneRow_self u r :
  markDoneRow u (e_id r) r =
    mkEnrollment (e_id r) (e_campaign_id r) (e_contact_id r) completed
      (e_next_step_order r) (e_next_run_at r) (e_last_sent_at r)
      (e_variant_json r) (e_data_json r) (e_created_at r) u.
Proof. unfold markDoneRow. by rewrite String.eqb_refl. Qed.

Lemma isDue_active now r : isDue now r = true → e_status r = active.
Proof.
  unfold isDue. intros [H _]%andb_prop. by destruct (e_status r).
Qed.

(** The rows a tick adds to the send log are for contacts that are not
    suppressed. *)
Lemma marketingTick_sends h B w :
  ∃ extra, sends (db (finalWorld (marketingTick h B w))) = sends (db w) ++ extra
           ∧ Forall (λ m, suppressed (db w) (m_contact_id m) = false) extra.
Proof.
  destruct (tickSetup_returns h B w)
    as (t & st & due & w0 & Hsetup & _ & _ & _ & _ & _ & _ & Hsu & _ & Hse).
  rewrite (marketingTick_unfold _ _ _ _ _ _ _ Hsetup).
  destruct (tickLoop_frame h t due st w0) as [_ _ _ _ _ (extra & Hx & Hf)].
  exists extra. split.
  - rewrite <- Hse, <- Hx. by destruct (tickLoop h t due st w0).
  - eapply Forall_impl; [exact Hf|]. intros m Hm. simpl in Hm.
    by rewrite <- (suppressed_static _ _ _ Hsu).
Qed.



(* ===================================================================== *)
(** ** Quiet hours *)
(* ===================================================================== *)

(** [tomorrowAt] is the next local day at [h] o'clock sharp. *)
Lemma tomorrowAt_spec tz now h :
  0 <= h < 24 →
  (tomorrowAt tz now h + tz) / msPerDay = (now + tz) / msPerDay + 1
  ∧ (tomorrowAt tz now h + tz) mod msPerDay = h * msPerHour.
Proof.
  intros Hh. unfold tomorrowAt, msPerDay, msPerHour.
  set (l := now + tz).
  pose proof (Z.div_mod l 86400000 ltac:(lia)) as Hdm.
  pose proof (Z.mod_pos_bound l 86400000 ltac:(lia)) as Hb.
  replace (l - l mod 86400000 + 86400000 + h * 3600000 - tz + tz)
    with (h * 3600000 + (l / 86400000 + 1) * 86400000) by lia.
  rewrite Z.div_add, Z.mod_add by lia.
  rewrite Z.div_small, Z.mod_small by lia. lia.
Qed.



Section Closed.
Variables (h : Host) (t : Tick) (startH : Z).
Hypothesis closed : isOkWindow t = false.
Hypothesis start_number : Number (quietStart t) = Num startH.



End Closed.


(* ===================================================================== *)
(** ** Advancing and completing *)
(* ===================================================================== *)

Section Completion.
Variables (h : Host) (t : Tick).




End Completion.




(* ===================================================================== *)
(** ** The result of the transport *)
(* ===================================================================== *)



(* ===================================================================== *)
(** ** Enrolling *)
(* ===================================================================== *)

Import Scenario.



(** C2, evaluated on the code. [enrollContacts] creates each enrollment
    active at step 1, and seeds [next_run_at] with the start time plus the
    least [delay_minutes] of the campaign's steps, which need not be that of
    its first step: enrolling at [T0] in a campaign whose step 1 waits 60
    minutes and whose step 2 waits none makes the enrollment due at [T0],
    not at [T0] plus 60 minutes. *)
Theorem enrollContacts_least_delay :
  (∀ (h : Host) (campaignId : string) (contactIds : list string)
     (startAtISO : option Z) (varsByContact : gmap string vars) (w : World),
     ∃ created w' added,
       enrollContacts h campaignId contactIds startAtISO varsByContact w
         = Ok (created,
               addMinutes (match startAtISO with
                           | Some s => s
                           | None => clock h (nDates w)
                           end) (firstDelay (db w) campaignId)) w'
       ∧ enrollments (db w') = enrollments (db w) ++ added
       ∧ Forall (λ r, e_status r = active ∧ e_next_step_order r = 1
                      ∧ e_next_run_at r
                        = addMinutes (match startAtISO with
                                      | Some s => s
                                      | None => clock h (nDates w)
                                      end) (firstDelay (db w) campaignId)) added)
  ∧ (∃ w',
       enrollContacts (hostAt T0 None) "slow" ["c1"] (Some T0) ∅ slowStartWorld
         = Ok (1, T0) w'
       ∧ map e_next_run_at (enrollments (db w')) = [T0]
       ∧ map e_next_step_order (enrollments (db w')) = [1]
       ∧ (s_delay_minutes <$> stepQuery (db slowStartWorld) "slow" 1) = Some (Some 60)
       ∧ T0 ≠ addMinutes T0 60).
Proof.
  split.
  - intros h campaignId contactIds startAtISO vbc w.
    destruct (enrollContacts_spec h campaignId contactIds startAtISO vbc w)
      as (w' & added & Hret & Hrows & Hlen & Hfresh).
    eexists _, w', added. split; [exact Hret|]. split; [done|].
    eapply Forall_impl; [exact Hfresh|]. intros r (_ & ? & ? & ? & _). done.
  - eexists. vm_compute. repeat split; try reflexivity. discriminate.
Qed.

(* ===================================================================== *)
(** ** A transport that fails *)
(* ===================================================================== *)


(* ===================================================================== *)
(** ** The properties on concrete ticks *)
(* ===================================================================== *)

Import Scenario.

(** The end-to-end scenario of the specification, with three contacts. *)
Example tick_end_to_end :
  match marketingTick noonHost 50 plainWorld with
  | Ok c w' =>
      c = mkCounts 3 0 3 0 1 0
      ∧ map m_subject (sends (db w')) = ["Hi Alicia"; "Hi bob"; "Follow up"]
      ∧ map m_body (sends (db w')) = ["Welcome, Alicia!"; "Welcome, Bob!"; "Still there?"]
      ∧ map e_next_step_order (enrollments (db w')) = [2; 2; 2]
      ∧ map e_status (enrollments (db w')) = [active; active; completed]
      ∧ map e_next_run_at (enrollments (db w'))
        = [noon + 1440 * msPerMinute; noon + 1440 * msPerMinute; T0 + 2]
  | Thrown _ => False
  end.
Proof. vm_compute. repeat split. Qed.

(** A gap in the orders ends the campaign: with steps 1 and 3 only, the
    tick sends step 1 and completes the enrollment. *)
Example gap_ends_campaign :
  match marketingTick noonHost 50 gapWorld with
  | Ok c w' =>
      c = mkCounts 1 0 1 0 1 0
      ∧ map m_subject (sends (db w')) = ["One"]
      ∧ map e_status (enrollments (db w')) = [completed]
  | Thrown _ => False
  end.
Proof. vm_compute. repeat split. Qed.

Ltac distinct_ids := apply (bool_decide_unpack _); vm_compute; exact I.

Ltac reaches_at h B w n :=
  exists (loopOf h B w), (dueOf h B w), (worldOf h B w), (firstn n (dueOf h B w));
  split; [|split]; vm_compute; reflexivity.


Lemma marketingTick_counts_witness :
  ∃ c w', marketingTick noonHost 2 plainWorld = Ok c w'
    ∧ processed c <= 2
    ∧ sent c + queued c + suppressedCount c + skippedQuiet c <= processed c
    ∧ completedCount c <= processed c.
Proof.
  destruct (marketingTick_counts noonHost 2 plainWorld ltac:(lia)) as (Hc & _ & Hret).
  destruct Hret as (c & w' & Htick); [intros m; discriminate|].
  exists c, w'. split; [exact Htick | exact (Hc c w' Htick)].
Defined.

Lemma rate_limit_stops_tick_witness :
  marketingTick noonHost 50 limitedWorld
  = Ok (incProcessed (counts (loopAfter noonHost 50 limitedWorld 1)))
       (worldAfter noonHost 50 limitedWorld 1).
Proof.
  refine (proj1 (proj2 (rate_limit_stops_tick noonHost 50 limitedWorld
    (tickOf noonHost 50 limitedWorld) (dueAt noonHost 50 limitedWorld 1)
    (loopAfter noonHost 50 limitedWorld 1) (worldAfter noonHost 50 limitedWorld 1)
    [dueAt noonHost 50 limitedWorld 2] (nth 0 welcomeSteps noStep)
    _ _ _ _ _ _))).
  - distinct_ids.
  - reaches_at noonHost 50 limitedWorld 1%nat.
  - by vm_compute.
  - by vm_compute.
  - by vm_compute.
  - by vm_compute.
Defined.





(* ===================================================================== *)
(** ** More on the tick: what it leaves alone *)
(* ===================================================================== *)

(** The setup of a tick changes configuration rows only. *)
Lemma tickSetup_frame h B w t st due w0 :
  tickSetup h B w = Ok (t, st, due) w0 → frame [] (db w) (db w0).
Proof.
  intros Hsetup.
  destruct (tickSetup_returns h B w)
    as (t' & st' & due' & w0' & Hs' & _ & _ & _ & _ & Hen & Hst & Hsu & Hco & Hse).
  rewrite Hsetup in Hs'. injection Hs' as <- <- <- <-.
  split; try done.
  - by rewrite Hen.
  - intros id _. unfold enrollmentById. by rewrite Hen.
  - exists []. by rewrite app_nil_r.
Qed.

(** A whole tick, whether it returns or throws, changes only enrollments
    among its due rows. *)
Lemma marketingTick_frame h B w t st due w0 :
  tickSetup h B w = Ok (t, st, due) w0 →
  frame (map dueId due) (db w) (db (finalWorld (marketingTick h B w))).
Proof.
  intros Hsetup.
  rewrite (marketingTick_unfold _ _ _ _ _ _ _ Hsetup).
  change (map dueId due) with ([] ++ map dueId due).
  eapply frame_trans; [by eapply tickSetup_frame|].
  pose proof (tickLoop_frame h t due st w0) as Hf.
  by destruct (tickLoop h t due st w0).
Qed.

(** X1. A tick, whether it returns or throws, never changes the campaign
    steps, the suppression list or the contacts, never adds, removes or
    reorders enrollment rows, and only appends to the send log. *)
Theorem marketingTick_preserves (h : Host) (B : Z) (w : World) :
  steps (db (finalWorld (marketingTick h B w))) = steps (db w)
  ∧ suppressions (db (finalWorld (marketingTick h B w))) = suppressions (db w)
  ∧ contacts (db (finalWorld (marketingTick h B w))) = contacts (db w)
  ∧ map e_id (enrollments (db (finalWorld (marketingTick h B w))))
    = map e_id (enrollments (db w))
  ∧ ∃ extra, sends (db (finalWorld (marketingTick h B w))) = sends (db w) ++ extra.
Proof.
  destruct (tickSetup_returns h B w) as (t & st & due & w0 & Hsetup & _).
  destruct (marketingTick_frame h B w t st due w0 Hsetup)
    as [F1 F2 F3 F4 _ (extra & Hx & _)].
  repeat split; try done. by exists extra.
Qed.


(* ===================================================================== *)
(** ** More on the tick: one step per enrollment *)
(* ===================================================================== *)

Import TickProps.

Lemma rowStep_refl r : rowStep r r.
Proof. unfold rowStep. repeat split; auto. Qed.

Lemma rowStep_upd r k run last u :
  k = e_next_step_order r ∨ k = e_next_step_order r + 1 →
  rowStep r (updEnrollRow k run last u (e_id r) r).
Proof.
  intros Hk. rewrite updEnrollRow_self. unfold rowStep. simpl.
  repeat split; auto. destruct Hk as [->| ->]; auto.
Qed.

Lemma rowStep_done r u : rowStep r (markDoneRow u (e_id r) r).
Proof. rewrite markDoneRow_self. unfold rowStep. simpl. repeat split; auto. Qed.

Section RowStep.
Variables (h : Host) (t : Tick).

Lemma advance_rowStep row lastSent c w c' w' :
  advance h t row lastSent c w = Ok c' w' →
  enrollmentById (db w) (e_id row) = Some row →
  ∃ row', enrollmentById (db w') (e_id row) = Some row' ∧ rowStep row row'.
Proof.
  intros Ha Hrow.
  destruct (stepQuery (db w) (e_campaign_id row) (e_next_step_order row + 1))
    as [next|] eqn:E.
  - rewrite (advance_next _ _ _ _ _ _ _ E) in Ha. injection Ha as <- <-.
    eexists. simpl. rewrite enrollmentById_map by apply updEnrollRow_id.
    rewrite Hrow. split; [done|]. apply rowStep_upd. by right.
  - rewrite (advance_done _ _ _ _ _ _ E) in Ha. injection Ha as <- <-.
    eexists. simpl. rewrite enrollmentById_map by apply markDoneRow_id.
    rewrite Hrow. split; [done|]. apply rowStep_done.
Qed.

(** One turn moves the enrollment of its due row by at most one step. *)
Lemma turn_rowStep e st w r :
  turn h t e st w r →
  enrollmentById (db w) (dueId e) = Some (d_row e) →
  ∃ row', enrollmentById (db (finalWorld r)) (dueId e) = Some row'
          ∧ rowStep (d_row e) row'.
Proof.
  intros Hturn Hsnap. inversion Hturn; subst; cbn [finalWorld].
  - match goal with Ha : advance _ _ _ _ _ _ = Ok _ _ |- _ =>
      by apply (advance_rowStep _ _ _ _ _ _ Ha) end.
  - eexists. simpl. rewrite enrollmentById_map by apply markDoneRow_id.
    rewrite Hsnap. split; [done|]. apply rowStep_done.
  - eexists. simpl. rewrite enrollmentById_map by apply updEnrollRow_id.
    rewrite Hsnap. split; [done|]. apply rowStep_upd. by left.
  - exists (d_row e). split; [done | apply rowStep_refl].
  - exists (d_row e). split; [done | apply rowStep_refl].
  - match goal with Hv : chooseVariant _ _ _ = Ok _ _ |- _ =>
      apply chooseVariant_effect in Hv as (Hdb & _) end.
    rewrite Hdb. exists (d_row e). split; [done | apply rowStep_refl].
  - match goal with Hv : chooseVariant _ _ _ = Ok _ _ |- _ =>
      apply chooseVariant_effect in Hv as (Hdb & _) end.
    match goal with Ha : advance _ _ _ _ _ _ = Ok _ _ |- _ =>
      apply (advance_rowStep _ _ _ _ _ _ Ha) end.
    simpl. rewrite Hdb. exact Hsnap.
Qed.

Lemma tickLoop_rowStep due : ∀ st w id row,
  NoDup (map dueId due) →
  (∀ x, x ∈ due → enrollmentById (db w) (dueId x) = Some (d_row x)) →
  enrollmentById (db w) id = Some row →
  ∃ row', enrollmentById (db (finalWorld (tickLoop h t due st w))) id = Some row'
          ∧ rowStep row row'.
Proof.
  induction due as [|e rest IH]; intros st w id row Hnd Hsnap Hrow.
  { exists row. split; [done | apply rowStep_refl]. }
  apply NoDup_cons in Hnd as [Hne Hnd]. fold (map dueId rest) in *.
  pose proof (tickOne_turn h t e st w) as Hturn.
  pose proof (turn_frame h t e st w _ Hturn) as Hf.
  assert (He : enrollmentById (db w) (dueId e) = Some (d_row e))
    by (apply Hsnap; by left).
  assert (Hhere : ∃ row1,
            enrollmentById (db (finalWorld (tickOne h t e st w))) id = Some row1
            ∧ rowStep row row1
            ∧ (id ≠ dueId e → row1 = row)).
  { destruct (decide (id = dueId e)) as [->|Hid].
    - rewrite He in Hrow. injection Hrow as <-.
      destruct (turn_rowStep e st w _ Hturn He) as (row1 & H1 & H2).
      exists row1. split; [done|]. split; [done|]. by intros [].
    - exists row. rewrite (fr_other _ _ _ Hf) by (by intros ?%list_elem_of_singleton).
      split; [done|]. split; [apply rowStep_refl | done]. }
  destruct Hhere as (row1 & Hr1 & Hstep & Hsame).
  cbn [tickLoop]. unfold bind.
  destruct (tickOne h t e st w) as [[[|] st1] w1|w1] eqn:Hone;
    cbn [finalWorld] in *; [|by exists row1..].
  destruct (decide (id = dueId e)) as [->|Hid].
  - exists row1. split; [|done]. rewrite <- Hr1.
    apply (fr_other _ _ _ (tickLoop_frame h t rest st1 w1)). exact Hne.
  - rewrite (Hsame Hid) in Hr1.
    apply (IH st1 w1 id row Hnd); [|done].
    intros x Hx. rewrite (fr_other _ _ _ Hf); [apply Hsnap; by right|].
    intros Heq%list_elem_of_singleton. apply Hne. rewrite <- Heq.
    apply list_elem_of_In, in_map, list_elem_of_In, Hx.
Qed.

End RowStep.

(** X3. In one tick every enrollment makes at most one step: its id,
    campaign, contact, snapshot and creation time stay, its status stays or
    becomes [completed] (never back to active), and its pointer stays or
    moves forward by exactly one. *)
Theorem marketingTick_one_step (h : Host) (B : Z) (w : World) (id : string)
    (row : Enrollment) :
  NoDup (map e_id (enrollments (db w))) →
  enrollmentById (db w) id = Some row →
  ∃ row', enrollmentById (db (finalWorld (marketingTick h B w))) id = Some row'
          ∧ rowStep row row'.
Proof.
  intros Hnd Hrow.
  destruct (tickSetup_returns h B w)
    as (t & st & due & w0 & Hsetup & _ & _ & _ & Hsel & Hen & _).
  rewrite (marketingTick_unfold _ _ _ _ _ _ _ Hsetup).
  assert (Hsame : ∀ i, enrollmentById (db w0) i = enrollmentById (db w) i)
    by (intros i; unfold enrollmentById; by rewrite Hen).
  destruct (tickLoop_rowStep h t due st w0 id row) as (row' & Hr & Hs).
  - rewrite Hsel. apply selectDue_NoDup. by rewrite Hen.
  - intros x Hx. rewrite Hsel in Hx.
    by apply (selectDue_snapshot (db w0) (now t) B); [rewrite Hen|].
  - by rewrite Hsame.
  - exists row'. split; [|done]. by destruct (tickLoop h t due st w0).
Qed.

(* ===================================================================== *)
(** ** More on the tick: the send log *)
(* ===================================================================== *)

Section Log.
Variables (h : Host) (t : Tick).

(** What one turn adds to the send log, with the counters and the limiter. *)
Lemma turn_log e st w r :
  turn h t e st w r →
  ∃ extra,
    sends (db (finalWorld r)) = sends (db w) ++ extra
    ∧ (extra = [] ∨ ∃ m, extra = [m] ∧ loggedFor h t (db w) e m)
    ∧ match r with
      | Ok (_, st') _ =>
          sent (counts st') = sent (counts st) + sentRows extra
          ∧ queued (counts st') = queued (counts st) + Z.of_nat (length extra) - sentRows extra
          ∧ allowed (limiter st') = allowed (limiter st)
          ∧ (curCount (limiter st') = curCount (limiter st) ∧ extra = []
             ∨ curCount (limiter st') = add (curCount (limiter st)) (Num 1)
               ∧ refuses (limiter st) = false)
      | Thrown _ => extra = []
      end.
Proof.
  intros Hturn. inversion Hturn; subst; cbn [finalWorld].
  - match goal with Ha : advance _ _ _ _ _ _ = Ok _ _ |- _ =>
      apply advance_effect in Ha as (_ & _ & Hs & Hc) end.
    exists []. rewrite app_nil_r. split; [done|]. split; [by left|].
    cbn. unfold sentRows. simpl.
    destruct Hc as [-> | ->]; cbn; repeat split; auto; lia.
  - exists []. rewrite app_nil_r. split; [done|]. split; [by left|].
    cbn. unfold sentRows. simpl. repeat split; auto; lia.
  - exists []. rewrite app_nil_r. split; [done|]. split; [by left|].
    cbn. unfold sentRows. simpl. repeat split; auto; lia.
  - exists []. rewrite app_nil_r. split; [done|]. split; [by left | done].
  - exists []. rewrite app_nil_r. split; [done|]. split; [by left|].
    cbn. unfold sentRows. simpl. repeat split; auto; lia.
  - match goal with Hv : chooseVariant _ _ _ = Ok _ _ |- _ =>
      apply chooseVariant_effect in Hv as (Hdb & _) end.
    exists []. rewrite app_nil_r, Hdb. split; [done|]. split; [by left | done].
  - match goal with Hv : chooseVariant _ _ _ = Ok _ _ |- _ =>
      apply chooseVariant_effect in Hv as (Hdb & _) end.
    match goal with Ha : advance _ _ _ _ _ _ = Ok _ _ |- _ =>
      apply advance_effect in Ha as (_ & _ & Hs & Hc) end.
    eexists [_]. split.
    { rewrite Hs. cbn. rewrite Hdb. reflexivity. }
    split.
    { right. eexists. split; [reflexivity|].
      eexists _, _, _. split; [eassumption|]. split; [eassumption|].
      by repeat split. }
    cbn. unfold sentRows, isSent. cbn.
    match goal with |- context [String.eqb (sendStatus ?r) _] =>
      destruct (String.eqb (sendStatus r) "sent") end;
      destruct Hc as [-> | ->]; cbn; repeat split; auto; lia.
Qed.

(** The rows a run of the loop adds to the send log were written for due
    rows of the loop, at most one for each and in their order. *)
Lemma tickLoop_log due : ∀ st w,
  ∃ sub extra,
    sub `sublist_of` due
    ∧ sends (db (finalWorld (tickLoop h t due st w))) = sends (db w) ++ extra
    ∧ Forall2 (loggedFor h t (db w)) sub extra
    ∧ match tickLoop h t due st w with
      | Ok (_, st') _ =>
          sent (counts st') = sent (counts st) + sentRows extra
          ∧ queued (counts st')
            = queued (counts st) + Z.of_nat (length extra) - sentRows extra
      | Thrown _ => True
      end.
Proof.
  induction due as [|e rest IH]; intros st w.
  { exists [], []. cbn. rewrite app_nil_r. unfold sentRows. simpl.
    repeat split; auto; lia. }
  cbn [tickLoop]. unfold bind.
  pose proof (tickOne_turn h t e st w) as Hturn.
  pose proof (turn_frame h t e st w _ Hturn) as Hf.
  destruct (turn_log e st w _ Hturn) as (x1 & Hs1 & Hx1 & Hc1).
  assert (Hsub1 : ∃ s1, s1 `sublist_of` [e] ∧ Forall2 (loggedFor h t (db w)) s1 x1).
  { destruct Hx1 as [->|(m & -> & Hm)].
    - exists []. split; [apply sublist_nil_l | constructor].
    - exists [e]. split; [done | by repeat constructor]. }
  destruct Hsub1 as (s1 & Hsub1 & Hall1).
  destruct (tickOne h t e st w) as [[[|] st1] w1|w1] eqn:Hone; cbn [finalWorld] in *.
  - destruct (IH st1 w1) as (s2 & x2 & Hsub2 & Hs2 & Hall2 & Hc2).
    destruct Hf as [F1 _ _ _ _ _].
    exists (s1 ++ s2), (x1 ++ x2). split.
    { change (e :: rest) with ([e] ++ rest). by apply sublist_app. }
    split; [by rewrite Hs2, Hs1, app_assoc|]. split.
    { apply Forall2_app; [done|]. eapply Forall2_impl; [exact Hall2|].
      intros x m (step & v & result & Hq & Hrest).
      exists step, v, result. split; [|done].
      by rewrite <- (stepQuery_static _ _ _ _ F1). }
    destruct (tickLoop h t rest st1 w1) as [[f st'] w'|w']; [|done].
    destruct Hc1 as (Hc1 & Hc1' & _). destruct Hc2 as (Hc2 & Hc2').
    unfold sentRows in *. rewrite List.filter_app, !length_app.
    split; lia.
  - exists s1, x1. split.
    { change (e :: rest) with ([e] ++ rest). by apply sublist_inserts_r. }
    split; [done|]. split; [done|]. by destruct Hc1 as (? & ? & _).
  - exists s1, x1. split.
    { change (e :: rest) with ([e] ++ rest). by apply sublist_inserts_r. }
    by repeat split.
Qed.


End Log.

(* ===================================================================== *)
(** ** The defaults of the configuration *)
(* ===================================================================== *)

Lemma putDefault_lookup k v cfg :
  putDefault k v cfg !! k = if truthy (cfg !! k) then cfg !! k else Some v.
Proof.
  unfold putDefault. destruct (truthy (cfg !! k)); [done|].
  by rewrite lookup_insert_eq.
Qed.

Lemma putDefault_lookup_ne k v cfg k' :
  k ≠ k' → putDefault k v cfg !! k' = cfg !! k'.
Proof.
  intros Hne. unfold putDefault. destruct (truthy (cfg !! k)); [done|].
  by rewrite lookup_insert_ne.
Qed.

Lemma putDefault_truthy k v cfg :
  truthy (Some v) = true → truthy (putDefault k v cfg !! k) = true.
Proof.
  intros Hv. rewrite putDefault_lookup. by destruct (truthy (cfg !! k)) eqn:E.
Qed.

Lemma putDefault_kept k v cfg :
  truthy (cfg !! k) = true → putDefault k v cfg = cfg.
Proof. intros H. unfold putDefault. by rewrite H. Qed.


Lemma ensure_lookup_other d k :
  k ≠ "rate_per_hour" → k ≠ "quiet_end" → k ≠ "quiet_start" →
  config (ensureMarketingSchema d) !! k = config d !! k.
Proof.
  intros H1 H2 H3. unfold ensureMarketingSchema. cbn [config setConfig].
  by rewrite !putDefault_lookup_ne.
Qed.



(* ===================================================================== *)
(** ** The tick and the send log *)
(* ===================================================================== *)

Lemma selectDue_config d d' now B :
  enrollments d' = enrollments d → contacts d' = contacts d →
  selectDue d' now B = selectDue d now B.
Proof. intros He Hc. unfold selectDue. by rewrite He, Hc. Qed.

Lemma stepQuery_steps d d' c k :
  steps d' = steps d → stepQuery d' c k = stepQuery d c k.
Proof. intros Hs. unfold stepQuery. by rewrite Hs. Qed.

Lemma loggedFor_steps h t d d' e m :
  steps d' = steps d → loggedFor h t d' e m → loggedFor h t d e m.
Proof.
  intros Hs (step & v & r & Hq & Hrest). exists step, v, r.
  split; [by rewrite <- (stepQuery_steps d d' _ _ Hs) | done].
Qed.


(** X5. Every row a tick appends to the send log was written for a row that
    was due at the first clock reading of the tick: the appended rows match,
    one for one and in order, a sublist of the selected due rows, each with
    the contact, campaign and step order of its enrollment, the address of
    the contact, and the subject, body and status of a mail composed from
    that step and answered by the transport. *)
Theorem marketingTick_log_provenance (h : Host) (B : Z) (w : World) :
  ∃ t sub extra,
    now t = clock h (nDates w)
    ∧ sub `sublist_of` selectDue (db w) (now t) B
    ∧ sends (db (finalWorld (marketingTick h B w))) = sends (db w) ++ extra
    ∧ Forall2 (loggedFor h t (db w)) sub extra.
Proof.
  destruct (tickSetup_returns h B w)
    as (t & st & due & w0 & Hsetup & Hnow & _ & _ & Hdue & Hen & Hst & _ & Hco & Hse).
  destruct (tickLoop_log h t due st w0) as (sub & extra & Hsub & Hx & Hall & _).
  exists t, sub, extra. split; [done|]. split.
  { rewrite <- (selectDue_config (db w) (db w0)) by done. by rewrite <- Hdue. }
  split.
  { rewrite (marketingTick_unfold _ _ _ _ _ _ _ Hsetup), <- Hse.
    by destruct (tickLoop h t due st w0). }
  eapply Forall2_impl; [exact Hall|].
  intros e m. by apply loggedFor_steps.
Qed.

(** X6. The counters a tick returns agree with the send log: [sent] is the
    number of appended rows whose status is "sent", and [queued] the number
    of the other appended rows. *)
Theorem marketingTick_counts_match_log (h : Host) (B : Z) (w : World)
    (c : Counts) (w' : World) :
  marketingTick h B w = Ok c w' →
  ∃ extra,
    sends (db w') = sends (db w) ++ extra
    ∧ sent c = sentRows extra
    ∧ queued c = Z.of_nat (length extra) - sentRows extra.
Proof.
  destruct (tickSetup_returns h B w)
    as (t & st & due & w0 & Hsetup & _ & _ & Hz & _ & _ & _ & _ & _ & Hse).
  rewrite (marketingTick_unfold _ _ _ _ _ _ _ Hsetup).
  destruct (tickLoop_log h t due st w0) as (sub & extra & _ & Hx & _ & Hc).
  destruct (tickLoop h t due st w0) as [[f st'] w1|w1]; [|done].
  intros [= <- <-]. exists extra. cbn [finalWorld] in Hx.
  rewrite Hz in Hc. cbn in Hc. destruct Hc as (Hs & Hq).
  split; [by rewrite <- Hse|]. cbn [snd]. split; lia.
Qed.


(* --------------------------------------------------------------------- *)
(** *** The order of the due rows *)





(* ===================================================================== *)
(** ** The rate count, and series of ticks *)
(* ===================================================================== *)

Section RateCount.
Variables (h : Host) (t : Tick).





End RateCount.



(* --------------------------------------------------------------------- *)
(** *** Series of ticks *)

Import Routes.

(** One tick on the row of an enrollment. *)
Lemma marketingTick_row h B w id row :
  NoDup (map e_id (enrollments (db w))) →
  enrollmentById (db w) id = Some row →
  NoDup (map e_id (enrollments (db (finalWorld (marketingTick h B w)))))
  ∧ ∃ row', enrollmentById (db (finalWorld (marketingTick h B w))) id = Some row'
            ∧ rowStep row row'
            ∧ (e_status row ≠ active → row' = row).
Proof.
  intros Hnd Hrow.
  destruct (tickSetup_returns h B w)
    as (t & st & due & w0 & Hsetup & Hnow & _ & _ & Hsel & Hen & _).
  pose proof (marketingTick_frame h B w t st due w0 Hsetup) as Hf.
  split; [by rewrite (fr_ids _ _ _ Hf)|].
  assert (Hsame : ∀ i, enrollmentById (db w0) i = enrollmentById (db w) i)
    by (intros i; unfold enrollmentById; by rewrite Hen).
  destruct (tickLoop_rowStep h t due st w0 id row) as (row' & Hr & Hs).
  { rewrite Hsel. apply selectDue_NoDup. by rewrite Hen. }
  { intros x Hx. rewrite Hsel in Hx.
    by apply (selectDue_snapshot (db w0) (now t) B); [rewrite Hen|]. }
  { by rewrite Hsame. }
  assert (Hr' : enrollmentById (db (finalWorld (marketingTick h B w))) id = Some row').
  { rewrite (marketingTick_unfold _ _ _ _ _ _ _ Hsetup).
    by destruct (tickLoop h t due st w0). }
  exists row'. split; [done|]. split; [done|].
  intros Hs'. 
  assert (Hkeep : enrollmentById (db (finalWorld (marketingTick h B w))) id = Some row).
  { rewrite <- Hrow. apply (fr_other _ _ _ Hf).
    intros Hin. apply list_elem_of_In, in_map_iff in Hin as (x & Hid & Hx).
    apply list_elem_of_In in Hx. rewrite Hsel in Hx.
    pose proof (selectDue_In _ _ _ _ Hx) as [Hin Hdue].
    assert (Hsnap : enrollmentById (db w) (dueId x) = Some (d_row x)).
    { apply enrollmentById_In; [done | by rewrite <- Hen]. }
    rewrite Hid, Hrow in Hsnap. injection Hsnap as Heq. rewrite <- Heq in Hdue.
    apply isDue_active in Hdue. done. }
  rewrite Hkeep in Hr'. by injection Hr'.
Qed.

Lemma rowPath_step n r r1 r' : rowStep r r1 → rowPath n r1 r' → rowPath (S n) r r'.
Proof.
  unfold rowStep, rowPath.
  intros (H1 & H2 & H3 & _ & H5 & H6 & H7 & H8) (G1 & G2 & G3 & G5 & G6 & G7 & G8).
  rewrite Nat2Z.inj_succ.
  repeat split; try congruence; try lia.
  destruct G7 as [G7|G7]; [|by right]. rewrite G7. exact H7.
Qed.

(** X24. Over any series of ticks, by any hosts with any batch sizes and
    whether they return or throw, an enrollment takes at most one step per
    tick and never goes back: with ids unique, after n ticks its row is
    still there with the same campaign, contact, snapshot and creation
    time, its [next_step_order] has not decreased and has grown by at most
    n, its status is the same or completed, and a row that was not active
    (paused, completed or in error) is exactly as it was. *)
Theorem runTicks_progress (ticks : list (Host * Z)) (w : World) (id : string)
    (row : Enrollment) :
  NoDup (map e_id (enrollments (db w))) →
  enrollmentById (db w) id = Some row →
  ∃ row', enrollmentById (db (runTicks ticks w)) id = Some row'
          ∧ rowPath (length ticks) row row'
          ∧ (e_status row ≠ active → row' = row).
Proof.
  revert w row. induction ticks as [|[h B] rest IH]; intros w row Hnd Hrow.
  { exists row. split; [done|]. split; [|done]. unfold rowPath. cbn. repeat split; auto; lia. }
  cbn [runTicks].
  destruct (marketingTick_row h B w id row Hnd Hrow) as (Hnd1 & row1 & Hr1 & Hstep & Hkeep).
  destruct (IH _ row1 Hnd1 Hr1) as (row' & Hr' & Hpath & Hkeep').
  exists row'. split; [done|]. split; [by eapply rowPath_step|].
  intros Hs. specialize (Hkeep Hs). subst row1. by apply Hkeep'.
Qed.

(* --------------------------------------------------------------------- *)
(** *** Nothing due *)

(** X28. A tick with nothing to do does nothing: when the query for the due
    rows is empty (no active enrollment has come due with its contact, or
    the batch size is 0), the tick returns with every counter at 0 and
    leaves the enrollments, the send log, the steps, the suppressions and
    the contacts as they are; it may only write configuration rows. *)
Theorem marketingTick_nothing_due (h : Host) (B : Z) (w : World) :
  selectDue (db w) (clock h (nDates w)) B = [] →
  ∃ w', marketingTick h B w = Ok zeroCounts w'
        ∧ enrollments (db w') = enrollments (db w)
        ∧ sends (db w') = sends (db w)
        ∧ steps (db w') = steps (db w)
        ∧ suppressions (db w') = suppressions (db w)
        ∧ contacts (db w') = contacts (db w).
Proof.
  intros Hnone.
  destruct (tickSetup_returns h B w)
    as (t & st & due & w0 & Hsetup & Hnow & _ & Hz & Hdue & Hen & Hst & Hsu & Hco & Hse).
  rewrite (marketingTick_unfold _ _ _ _ _ _ _ Hsetup).
  assert (Hd : due = []).
  { rewrite Hdue, Hnow. unfold selectDue. rewrite Hen, Hco. exact Hnone. }
  rewrite Hd. cbn [tickLoop]. unfold ret. cbn [snd].
  exists w0. split; [by rewrite Hz|]. by repeat split.
Qed.

(* ===================================================================== *)
(** ** The helpers of the scheduler *)
(* ===================================================================== *)

Import TextProps.

(** X9. [ensureMarketingSchema] only fills in what is missing: it writes
    "09", "18" and "200" for [quiet_start], [quiet_end] and [rate_per_hour]
    when the key is absent or its value is the empty text, keeps every value
    that is not empty, touches no other key and no other table, and running
    it again changes nothing. *)
Theorem ensureMarketingSchema_defaults (d : Db) :
  ensureMarketingSchema (ensureMarketingSchema d) = ensureMarketingSchema d
  ∧ (∀ k v, config d !! k = Some v → truthy (Some v) = true →
        config (ensureMarketingSchema d) !! k = Some v)
  ∧ (∀ k, k ≠ "quiet_start" → k ≠ "quiet_end" → k ≠ "rate_per_hour" →
        config (ensureMarketingSchema d) !! k = config d !! k)
  ∧ config (ensureMarketingSchema d) !! "quiet_start"
    = Some (orText (config d !! "quiet_start") "09")
  ∧ config (ensureMarketingSchema d) !! "quiet_end"
    = Some (orText (config d !! "quiet_end") "18")
  ∧ config (ensureMarketingSchema d) !! "rate_per_hour"
    = Some (orText (config d !! "rate_per_hour") "200")
  ∧ steps (ensureMarketingSchema d) = steps d
  ∧ enrollments (ensureMarketingSchema d) = enrollments d
  ∧ sends (ensureMarketingSchema d) = sends d
  ∧ suppressions (ensureMarketingSchema d) = suppressions d
  ∧ contacts (ensureMarketingSchema d) = contacts d.
Proof.
  assert (Hput : ∀ k v cfg, truthy (Some v) = true →
            putDefault k v cfg !! k = Some (orText (cfg !! k) v)).
  { intros k v cfg Hv. rewrite putDefault_lookup.
    destruct (cfg !! k) as [[|a s]|]; simpl; try done; by destruct v. }
  assert (Hqs : config (ensureMarketingSchema d) !! "quiet_start"
                = Some (orText (config d !! "quiet_start") "09")).
  { unfold ensureMarketingSchema. cbn [config setConfig].
    rewrite !putDefault_lookup_ne by done. by rewrite (Hput "quiet_start" "09"). }
  assert (Hqe : config (ensureMarketingSchema d) !! "quiet_end"
                = Some (orText (config d !! "quiet_end") "18")).
  { unfold ensureMarketingSchema. cbn [config setConfig].
    rewrite putDefault_lookup_ne by done.
    rewrite (Hput "quiet_end" "18") by done. by rewrite putDefault_lookup_ne. }
  assert (Hra : config (ensureMarketingSchema d) !! "rate_per_hour"
                = Some (orText (config d !! "rate_per_hour") "200")).
  { unfold ensureMarketingSchema. cbn [config setConfig].
    rewrite (Hput "rate_per_hour" "200") by done. by rewrite !putDefault_lookup_ne. }
  assert (Hor : ∀ x v, truthy (Some v) = true → truthy (Some (orText x v)) = true).
  { intros [[|a s]|] v Hv; simpl; try done. }
  split.
  { unfold ensureMarketingSchema at 1. unfold setConfig at 1.
    rewrite (putDefault_kept "quiet_start"), (putDefault_kept "quiet_end"),
      (putDefault_kept "rate_per_hour").
    - by destruct d.
    - rewrite Hra. by apply Hor.
    - rewrite Hqe. by apply Hor.
    - rewrite Hqs. by apply Hor. }
  split.
  { intros k v Hk Hv.
    destruct (decide (k = "quiet_start")) as [->|H1].
    { rewrite Hqs, Hk. by destruct v. }
    destruct (decide (k = "quiet_end")) as [->|H2].
    { rewrite Hqe, Hk. by destruct v. }
    destruct (decide (k = "rate_per_hour")) as [->|H3].
    { rewrite Hra, Hk. by destruct v. }
    by rewrite ensure_lookup_other. }
  split; [intros k H1 H2 H3; by apply ensure_lookup_other|].
  by repeat split.
Qed.

(* --------------------------------------------------------------------- *)
(** *** Quiet hours *)

Lemma getHours_bounds tz t : 0 <= getHours tz t < 24.
Proof. unfold getHours. apply Z.mod_pos_bound. lia. Qed.

Lemma getHours_next_day tz t : getHours tz (t + msPerDay) = getHours tz t.
Proof.
  unfold getHours, msPerDay, msPerHour.
  replace (t + 86400000 + tz) with (t + tz + 24 * 3600000) by lia.
  rewrite Z.div_add by lia. replace 24 with (1 * 24) at 1 by lia.
  by rewrite Z.mod_add by lia.
Qed.

Lemma getHours_tomorrowAt tz t H :
  0 <= H < 24 → getHours tz (tomorrowAt tz t H) = H.
Proof.
  intros HH. destruct (tomorrowAt_spec tz t H HH) as (_ & Hm).
  unfold getHours. unfold msPerDay, msPerHour in *.
  remember (tomorrowAt tz t H + tz) as x eqn:Ex. clear Ex.
  pose proof (Z.div_mod x 86400000 ltac:(lia)) as Hx.
  remember (x / 86400000) as q eqn:Eq. clear Eq.
  assert (Hx' : x = (H + q * 24) * 3600000) by lia.
  rewrite Hx', Z.div_mul, Z.mod_add by lia. apply Z.mod_small. lia.
Qed.

(** X10. The window of the hours in which mail may go out, at its edges:
    a bound that is no number opens it always; equal bounds never open it;
    a start after the end gives the complement of the window with the bounds
    exchanged; the bounds 0 and 24 open it always; and it only depends on
    the local hour, so it is the same a day later. *)
Theorem withinQuietHours_edges (tz now : Z) (startHour endHour : string) :
  (Number startHour = NaN ∨ Number endHour = NaN →
     withinQuietHours tz now startHour endHour = true)
  ∧ (∀ s, Number startHour = Num s → Number endHour = Num s →
       withinQuietHours tz now startHour endHour = false)
  ∧ (∀ s e, Number startHour = Num s → Number endHour = Num e → e < s →
       withinQuietHours tz now startHour endHour
       = negb (withinQuietHours tz now endHour startHour))
  ∧ (∀ s e, Number startHour = Num s → Number endHour = Num e → s <= 0 → 24 <= e →
       withinQuietHours tz now startHour endHour = true)
  ∧ withinQuietHours tz (now + msPerDay) startHour endHour
    = withinQuietHours tz now startHour endHour.
Proof.
  pose proof (getHours_bounds tz now) as Hb.
  unfold withinQuietHours. rewrite getHours_next_day.
  split; [intros [-> | ->]; simpl; [done | by destruct (Number startHour)]|].
  split.
  { intros s -> ->. unfold ge, lt, gt, le. simpl.
    destruct (Z.leb_spec s s); [|lia].
    destruct (Z.leb_spec s (getHours tz now)); destruct (Z.ltb_spec (getHours tz now) s);
      simpl; try done; lia. }
  split.
  { intros s e -> -> Hlt. unfold ge, lt, gt, le. simpl.
    destruct (Z.leb_spec s e); [lia|]. destruct (Z.leb_spec e s); [|lia].
    destruct (Z.leb_spec s (getHours tz now)); destruct (Z.ltb_spec (getHours tz now) e);
      destruct (Z.leb_spec e (getHours tz now)); destruct (Z.ltb_spec (getHours tz now) s);
      simpl; try done; lia. }
  split; [|done].
  intros s e -> -> Hs He. unfold ge, lt, gt, le. simpl.
  destruct (Z.leb_spec s e); [|lia].
  destruct (Z.leb_spec s (getHours tz now)); destruct (Z.ltb_spec (getHours tz now) e);
    simpl; try done; lia.
Qed.

(** X11. The time a due row is deferred to lies in the window: when
    [quiet_start] is an hour of the day and differs from [quiet_end], the
    next local day at [quiet_start] o'clock is later than now and the window
    is open then. *)
Theorem deferral_lands_in_window (tz now : Z) (startHour endHour : string) (s e : Z) :
  Number startHour = Num s → Number endHour = Num e →
  0 <= s < 24 → s ≠ e →
  now < tomorrowAt tz now s
  ∧ withinQuietHours tz (tomorrowAt tz now s) startHour endHour = true.
Proof.
  intros Hs He Hr Hne. split.
  - destruct (tomorrowAt_spec tz now s Hr) as (Hd & Hm).
    unfold msPerDay, msPerHour in *.
    pose proof (Z.div_mod (tomorrowAt tz now s + tz) 86400000 ltac:(lia)) as H1.
    pose proof (Z.div_mod (now + tz) 86400000 ltac:(lia)) as H2.
    pose proof (Z.mod_pos_bound (now + tz) 86400000 ltac:(lia)) as H3.
    lia.
  - unfold withinQuietHours. rewrite (getHours_tomorrowAt _ _ _ Hr), Hs, He.
    unfold ge, lt, gt, le. simpl.
    destruct (Z.leb_spec s e); destruct (Z.leb_spec s s); destruct (Z.ltb_spec s e);
      simpl; try done; lia.
Qed.

(* --------------------------------------------------------------------- *)
(** *** Variants and content *)

(** X12. The choice of the variant, at its edges: a step with no alternate
    subject and no alternate body gets A without a random draw; with
    alternate content the draw decides, so that, draws being in 0..99, a
    weight of 0 or less (or none) always gives A and a weight of 100 or more
    always gives B; one draw is consumed and the database is left alone. *)
Theorem chooseVariant_edges (h : Host) (step : Step) (w : World) :
  (truthy (s_subject_b step) = false → truthy (s_body_b step) = false →
     chooseVariant h step w = Ok A w)
  ∧ (truthy (s_subject_b step) = true ∨ truthy (s_body_b step) = true →
     chooseVariant h step w
     = Ok (if random100 h (nDraws w) <? orZero (s_weight_b step) then B else A)
          (bumpDraws w))
  ∧ (0 <= random100 h (nDraws w) → orZero (s_weight_b step) <= 0 →
     ∃ w', chooseVariant h step w = Ok A w' ∧ db w' = db w)
  ∧ (truthy (s_subject_b step) = true ∨ truthy (s_body_b step) = true →
     random100 h (nDraws w) < 100 → 100 <= orZero (s_weight_b step) →
     chooseVariant h step w = Ok B (bumpDraws w)).
Proof.
  unfold chooseVariant. unfold_monad.
  split; [by intros -> ->|].
  split.
  { intros [-> | ->]; simpl; [done|]. by rewrite andb_false_r. }
  split.
  { intros Hr Hw.
    destruct (negb (truthy (s_subject_b step)) && negb (truthy (s_body_b step)));
      [by eexists|].
    destruct (Z.ltb_spec (random100 h (nDraws w)) (orZero (s_weight_b step))); [lia|].
    by eexists. }
  intros Halt Hr Hw.
  assert (negb (truthy (s_subject_b step)) && negb (truthy (s_body_b step)) = false) as ->.
  { destruct Halt as [-> | ->]; simpl; [done | by rewrite andb_false_r]. }
  destruct (Z.ltb_spec (random100 h (nDraws w)) (orZero (s_weight_b step))); [done | lia].
Qed.

Lemma allChars_app p a b : allChars p (a +:+ b) = allChars p a && allChars p b.
Proof.
  induction a as [|c a IH]; [done|].
  rewrite append_cons. simpl. by rewrite IH, andb_assoc.
Qed.

Lemma replaceNewlines_singleLine by_ s :
  singleLine by_ = true → singleLine (replaceNewlines by_ s) = true.
Proof.
  intros Hby. unfold singleLine in *. induction s as [|c s IH]; [done|].
  simpl. destruct (Ascii.eqb c "010"%char) eqn:E.
  - by rewrite allChars_app, Hby, IH.
  - simpl. unfold notNewline at 1. by rewrite E, IH.
Qed.

Lemma replaceNewlines_id by_ s :
  singleLine s = true → replaceNewlines by_ s = s.
Proof.
  unfold singleLine. induction s as [|c s IH]; [done|].
  simpl. unfold notNewline at 1. destruct (Ascii.eqb c "010"%char); [done|].
  simpl. intros Hs. by rewrite IH.
Qed.

(** X13. The content of a mail: the HTML part never has a line feed (each
    became a break tag) and is the text itself when the text has none; the
    variant B falls back, field by field, to the content of A where its own
    subject or body is missing or empty; and a missing subject or body gives
    the empty text. *)
Theorem buildContent_fallbacks (step : Step) (v : variant) (vs : vars) :
  singleLine (content_html (buildContent step v vs)) = true
  ∧ (singleLine (content_text (buildContent step v vs)) = true →
     content_html (buildContent step v vs) = content_text (buildContent step v vs))
  ∧ (truthy (s_subject_b step) = false →
     content_subject (buildContent step B vs) = content_subject (buildContent step A vs))
  ∧ (truthy (s_body_b step) = false →
     content_text (buildContent step B vs) = content_text (buildContent step A vs))
  ∧ (truthy (s_subject step) = false →
     content_subject (buildContent step A vs) = EmptyString)
  ∧ (truthy (s_body step) = false →
     content_text (buildContent step A vs) = EmptyString
     ∧ content_html (buildContent step A vs) = EmptyString).
Proof.
  unfold buildContent. cbn [content_html content_text content_subject].
  split; [by apply replaceNewlines_singleLine|].
  split; [apply replaceNewlines_id|].
  split; [by intros ->|]. split; [by intros ->|].
  assert (Hempty : ∀ x, truthy x = false → orText x EmptyString = EmptyString).
  { by intros [[|c s]|]. }
  split.
  - intros Hs. by rewrite (Hempty _ Hs).
  - intros Hb. by rewrite (Hempty _ Hb).
Qed.

(* --------------------------------------------------------------------- *)
(** *** Templates *)

(** X14. A template with no opening braces, or whose first opening braces
    are never closed, is returned as it is, whatever the variables. *)
Theorem fillTokens_leaves_text (t : string) (vs : vars) :
  indexOf "{{" t 0 = None
  ∨ (∃ a, indexOf "{{" t 0 = Some a ∧ indexOf "}}" t (a + 2) = None) →
  fillTokens t vs = t.
Proof.
  intros [Hnone | (a & Ha & Hb)].
  - by apply fillTokens_plain.
  - by apply (fillTokens_unclosed t vs a).
Qed.

(* ===================================================================== *)
(** ** Fields of a headline *)
(* ===================================================================== *)

Import Headlines.

(** *** Occurrences *)

Lemma index0_none w : ∀ s,
  String.index 0 w s = None →
  ∀ k, (k ≤ String.length s)%nat → String.prefix w (sdrop k s) = false.
Proof.
  induction s as [|a s IH]; cbn [String.index].
  - destruct w as [|b w]; [done|]. intros _ k _. by destruct k.
  - destruct (String.prefix w (String a s)) eqn:Hp; [done|].
    destruct (String.index 0 w s) as [m|] eqn:Hi; [done|].
    intros _ [|k] Hk; [done|]. cbn [sdrop]. apply IH; [done|]. simpl in Hk. lia.
Qed.

Lemma index0_some w : ∀ s m,
  String.index 0 w s = Some m →
  (m ≤ String.length s)%nat ∧ String.prefix w (sdrop m s) = true
  ∧ ∀ k, (k < m)%nat → String.prefix w (sdrop k s) = false.
Proof.
  induction s as [|a s IH]; intros m; cbn [String.index].
  - destruct w as [|b w]; [|done]. intros [= <-]. repeat split; [done|]. intros k Hk. lia.
  - destruct (String.prefix w (String a s)) eqn:Hp.
    + intros [= <-]. split; [simpl; lia|]. split; [done|]. intros k Hk. lia.
    + destruct (String.index 0 w s) as [m'|] eqn:Hi; [|done].
      intros [= <-]. destruct (IH m' eq_refl) as (Hm & Hpre & Hmin).
      split; [simpl; lia|]. split; [done|].
      intros [|k] Hk; [done|]. cbn [sdrop]. apply Hmin. lia.
Qed.

Lemma includes_true s w :
  includes s w = true ↔
  ∃ k, (k ≤ String.length s)%nat ∧ String.prefix w (sdrop k s) = true.
Proof.
  unfold includes, indexOf. split.
  - destruct (String.index 0 w s) as [m|] eqn:Hi; [|done]. intros _.
    destruct (index0_some w s m Hi) as (Hm & Hp & _). by exists m.
  - intros (k & Hk & Hp). destruct (String.index 0 w s) eqn:Hi; [done|].
    by rewrite (index0_none w s Hi k Hk) in Hp.
Qed.

Lemma prefix_app w x b : String.prefix w x = true → String.prefix w (x +:+ b) = true.
Proof.
  revert x. induction w as [|c w IH]; intros x; [by destruct (x +:+ b)|].
  destruct x as [|d x]; [done|]. rewrite append_cons. simpl.
  destruct (ascii_dec c d); [apply IH | done].
Qed.

Lemma sdrop_app_l a s : sdrop (String.length a) (a +:+ s) = s.
Proof. induction a as [|c a IH]; [done | exact IH]. Qed.

Lemma sdrop_app_r k s b :
  (k ≤ String.length s)%nat → sdrop k (s +:+ b) = sdrop k s +:+ b.
Proof.
  revert s. induction k as [|k IH]; intros [|c s] Hk; simpl in *; try done; try lia.
  apply IH. lia.
Qed.

Lemma length_app_string a b :
  String.length (a +:+ b) = (String.length a + String.length b)%nat.
Proof. induction a as [|c a IH]; [done|]. rewrite append_cons. simpl. by rewrite IH. Qed.

(** An occurrence in a text is an occurrence in every text around it. *)
Lemma includes_context a s b w :
  includes s w = true → includes (a +:+ s +:+ b) w = true.
Proof.
  rewrite !includes_true. intros (k & Hk & Hp).
  exists (String.length a + k)%nat. split.
  - rewrite !length_app_string. lia.
  - rewrite <- sdrop_sdrop, sdrop_app_l, sdrop_app_r by done. by apply prefix_app.
Qed.

(** *** Letter case *)






(** *** The category *)







(** *** The fields *)

Lemma includes_context_false a s b w :
  includes (a +:+ s +:+ b) w = false → includes s w = false.
Proof.
  intros H. apply not_true_is_false. intros Hs.
  by rewrite (includes_context a s b w Hs) in H.
Qed.

Lemma allChars_context p a s b :
  allChars p (a +:+ s +:+ b) = true → allChars p s = true.
Proof.
  rewrite !allChars_app. by intros (_ & (H & _)%andb_true_iff)%andb_true_iff.
Qed.

(** The first piece of a text split at a character is the part before the
    first occurrence of the character. *)
Lemma split_first c : ∀ s buf,
  ∃ p q, s = p +:+ q
         ∧ piece 0 (splitAux c s buf) = buf +:+ p
         ∧ allChars (λ x, negb (Ascii.eqb x c)) p = true.
Proof.
  induction s as [|x s IH]; intros buf.
  { exists EmptyString, EmptyString. split; [done|]. split; [|done].
    cbn [splitAux piece nth]. by rewrite append_nil_r. }
  cbn [splitAux]. destruct (Ascii.eqb x c) eqn:E.
  - exists EmptyString, (String x s). split; [done|]. split; [|done].
    cbn [piece nth]. by rewrite append_nil_r.
  - destruct (IH (buf +:+ String x EmptyString)) as (p & q & Hs & Hp & Hall).
    exists (String x p), q. split; [by rewrite append_cons, <- Hs|].
    split; [by rewrite Hp, append_assoc|]. cbn. by rewrite E, Hall.
Qed.

Lemma substring_sdrop_split : ∀ k s,
  (k ≤ String.length s)%nat → s = String.substring 0 k s +:+ sdrop k s.
Proof.
  induction k as [|k IH]; intros [|c s] Hk; simpl in *; try done; try lia.
  rewrite append_cons. f_equal. apply IH. lia.
Qed.

Lemma substring_length0 : ∀ k s,
  (k ≤ String.length s)%nat → String.length (String.substring 0 k s) = k.
Proof.
  induction k as [|k IH]; intros [|c s] Hk; simpl in *; try done; try lia.
  f_equal. apply IH. lia.
Qed.

(** The first piece of a text split at a word is a part before which and in
    which the word does not occur. *)
Lemma splitOn_first sep s :
  sep ≠ EmptyString →
  ∃ q, s = piece 0 (splitOn sep s) +:+ q
       ∧ includes (piece 0 (splitOn sep s)) sep = false.
Proof.
  intros Hsep. unfold splitOn.
  assert (Hempty : includes EmptyString sep = false).
  { unfold includes, indexOf. cbn. by destruct sep. }
  destruct (len s) as [|fuel] eqn:Hlen.
  { destruct s; [|done]. exists EmptyString. by split. }
  cbn [splitLoop]. unfold indexOf.
  destruct (String.index 0 sep s) as [k|] eqn:Hi.
  - cbn [piece nth]. unfold slice. rewrite Nat.sub_0_r.
    destruct (index0_some sep s k Hi) as (Hk & _ & Hmin).
    exists (sdrop k s). split; [by apply substring_sdrop_split|].
    apply not_true_is_false. intros Hin.
    apply includes_true in Hin as (j & Hj & Hp).
    rewrite (substring_length0 k s Hk) in Hj.
    destruct (decide (j = k)) as [->|Hne].
    + assert (Hnil : sdrop k (String.substring 0 k s) = EmptyString).
      { pose proof (sdrop_length k (String.substring 0 k s)) as Hl.
        rewrite (substring_length0 k s Hk), Nat.sub_diag in Hl.
        by destruct (sdrop k (String.substring 0 k s)). }
      rewrite Hnil in Hp. by destruct sep.
    + assert (Hfalse : String.prefix sep (sdrop j s) = false) by (apply Hmin; lia).
      rewrite (substring_sdrop_split k s Hk) in Hfalse.
      rewrite sdrop_app_r in Hfalse by (rewrite substring_length0; lia).
      by rewrite (prefix_app _ _ _ Hp) in Hfalse.
  - cbn [piece nth]. exists EmptyString. split; [by rewrite append_nil_r|].
    unfold includes, indexOf. by rewrite Hi.
Qed.

(** White space around a text. *)
Lemma trimStart_split : ∀ s, ∃ a, s = a +:+ trimStart s.
Proof.
  induction s as [|c s (a & IH)]; [by exists EmptyString|].
  cbn [trimStart]. destruct (isSpace c).
  - exists (String c a). by rewrite append_cons, <- IH.
  - by exists EmptyString.
Qed.

Lemma trimEnd_split : ∀ s, ∃ b, s = trimEnd s +:+ b.
Proof.
  induction s as [|c s (b & IH)]; [by exists EmptyString|].
  cbn [trimEnd]. destruct (trimEnd s) as [|d r] eqn:E.
  - destruct (isSpace c).
    + exists (String c s). done.
    + exists s. done.
  - exists b. by rewrite append_cons, <- IH.
Qed.

Lemma trim_split s : ∃ a b, s = a +:+ trim s +:+ b.
Proof.
  unfold trim. destruct (trimStart_split s) as (a & Ha).
  destruct (trimEnd_split (trimStart s)) as (b & Hb).
  exists a, b. by rewrite <- Hb.
Qed.

Lemma trimEnd_idem : ∀ s, trimEnd (trimEnd s) = trimEnd s.
Proof.
  assert (Hstep : ∀ c x, trimEnd (String c x)
            = match trimEnd x with
              | EmptyString => if isSpace c then EmptyString else String c EmptyString
              | r => String c r
              end) by reflexivity.
  induction s as [|c s IH]; [done|].
  rewrite (Hstep c s). destruct (trimEnd s) as [|d r] eqn:E.
  - destruct (isSpace c) eqn:Hc; [done|]. rewrite Hstep. cbn [trimEnd]. by rewrite Hc.
  - by rewrite Hstep, IH.
Qed.

Lemma trimStart_head s :
  match s with EmptyString => True | String c _ => isSpace c = false end →
  trimStart s = s.
Proof. destruct s as [|c s]; [done|]. cbn. by intros ->. Qed.

Lemma trimStart_head_ok : ∀ s,
  match trimStart s with EmptyString => True | String c _ => isSpace c = false end.
Proof.
  induction s as [|c s IH]; [done|]. cbn [trimStart].
  destruct (isSpace c) eqn:E; [done | by rewrite E].
Qed.

Lemma trimEnd_head s :
  match s with EmptyString => True | String c _ => isSpace c = false end →
  match trimEnd s with EmptyString => True | String c _ => isSpace c = false end.
Proof.
  destruct s as [|c s]; [done|]. intros Hc. cbn [trimEnd].
  destruct (trimEnd s); [by rewrite Hc | done].
Qed.

Lemma trim_idem s : trim (trim s) = trim s.
Proof.
  unfold trim. rewrite (trimStart_head (trimEnd (trimStart s))).
  - apply trimEnd_idem.
  - apply trimEnd_head, trimStart_head_ok.
Qed.

(** What [cut] returns is a clean field. *)
Lemma cut_clean s : cleanField (cut s).
Proof.
  unfold cut. destruct (isEmpty s).
  { unfold cleanField. by vm_compute. }
  destruct (split_first "|"%char s EmptyString) as (p1 & q1 & _ & H1 & A1).
  unfold split at 2. rewrite H1, append_nil_l.
  destruct (split_first "-"%char p1 EmptyString) as (p2 & q2 & E2 & H2 & A2).
  unfold split. rewrite H2, append_nil_l.
  destruct (splitOn_first " at " p2 ltac:(done)) as (q3 & E3 & I3).
  set (p3 := piece 0 (splitOn " at " p2)) in *.
  destruct (trim_split p3) as (a & b & E4).
  assert (Hbar : allChars (λ x, negb (Ascii.eqb x "|"%char)) p3 = true).
  { rewrite E2, allChars_app in A1. apply andb_true_iff in A1 as (A1 & _).
    rewrite E3, allChars_app in A1. by apply andb_true_iff in A1 as (A1 & _). }
  assert (Hhyp : allChars (λ x, negb (Ascii.eqb x "-"%char)) p3 = true).
  { rewrite E3, allChars_app in A2. by apply andb_true_iff in A2 as (A2 & _). }
  rewrite E4 in Hbar, Hhyp, I3.
  apply allChars_context in Hbar, Hhyp. apply includes_context_false in I3.
  split; [|split; [done | apply trim_idem]].
  clear -Hbar Hhyp. induction (trim p3) as [|c r IH]; [done|].
  cbn in *. apply andb_true_iff in Hbar as (B1 & B2).
  apply andb_true_iff in Hhyp as (C1 & C2).
  unfold notBarOrHyphen at 1. by rewrite B1, C1, IH.
Qed.

(** X27. The fields read off a headline are clean and need the word " as ":
    whatever the title, the name, the role and the company have no bar, no
    hyphen, no " at " and no white space around them, the city is empty and
    the category is that of the title; and a title in which " as " does not
    occur, in any case of its letters, gives an empty name, role and
    company. *)
Theorem heuristicExtract_fields (title : string) :
  cleanField (person_name (heuristicExtract title))
  ∧ cleanField (role (heuristicExtract title))
  ∧ cleanField (company (heuristicExtract title))
  ∧ city (heuristicExtract title) = EmptyString
  ∧ category (heuristicExtract title) = guessCategory title
  ∧ (includes (toLowerCase title) " as " = false →
     person_name (heuristicExtract title) = EmptyString
     ∧ role (heuristicExtract title) = EmptyString
     ∧ company (heuristicExtract title) = EmptyString).
Proof.
  unfold heuristicExtract. cbv zeta.
  split; [|split; [|split; [|split; [|split]]]].
  6: { intros ->. rewrite !andb_false_r. by cbn. }
  all: repeat match goal with
       | |- context [if ?c then _ else _] => destruct c
       end; cbn [person_name role company city category];
       try apply cut_clean; done.
Qed.

(* ===================================================================== *)
(** ** More on templates *)
(* ===================================================================== *)

Lemma prefix_self_app p x : String.prefix p (p +:+ x) = true.
Proof.
  induction p as [|c p IH]; [by destruct x|].
  rewrite append_cons. simpl. by destruct (ascii_dec c c).
Qed.

(** A word is first found after a text that has nowhere its first letter. *)
Lemma index0_skip h p' a x :
  allChars (λ c, negb (Ascii.eqb c h)) a = true →
  String.index 0 (String h p') (a +:+ String h p' +:+ x) = Some (String.length a).
Proof.
  induction a as [|c a IH]; intros Ha.
  - rewrite append_nil_l, append_cons. cbn [String.index].
    rewrite <- append_cons. by rewrite prefix_self_app.
  - cbn [allChars] in Ha. apply andb_true_iff in Ha as (Hc & Ha).
    rewrite append_cons. cbn [String.index String.prefix].
    destruct (ascii_dec h c) as [->|_]; [by rewrite Ascii.eqb_refl in Hc|].
    by rewrite (IH Ha).
Qed.

Lemma substring0_app a x : String.substring 0 (String.length a) (a +:+ x) = a.
Proof.
  induction a as [|c a IH]; [by destruct x|]. rewrite append_cons. simpl. by rewrite IH.
Qed.

Lemma splitAux_none c : ∀ s buf,
  allChars (λ x, negb (Ascii.eqb x c)) s = true → splitAux c s buf = [buf +:+ s].
Proof.
  induction s as [|x s IH]; intros buf Hs; [by rewrite append_nil_r|].
  cbn [allChars] in Hs. apply andb_true_iff in Hs as (Hx & Hs).
  cbn [splitAux]. apply negb_true_iff in Hx. rewrite Hx.
  rewrite (IH _ Hs). by rewrite append_assoc.
Qed.

Lemma allChars_weaken (p q : ascii → bool) s :
  (∀ c, p c = true → q c = true) → allChars p s = true → allChars q s = true.
Proof.
  intros Hpq. induction s as [|c s IH]; [done|]. cbn.
  intros (Hc & Hs)%andb_true_iff. by rewrite (Hpq c Hc), (IH Hs).
Qed.

(** A placeholder that is a name alone expands to the value of the name, or
    to nothing. *)
Lemma expand_name name vs :
  allChars (λ x, negb (Ascii.eqb x "|"%char)) name = true →
  expand (trim name) vs
  = match lookupVar vs (trim name) with
    | Str (String c r) => String c r
    | _ => EmptyString
    end.
Proof.
  intros Hname. unfold expand.
  destruct (trim_split name) as (a & b & Hsplit).
  assert (Hbar : allChars (λ x, negb (Ascii.eqb x "|"%char)) (trim name) = true).
  { rewrite Hsplit in Hname. by apply allChars_context in Hname. }
  unfold split. rewrite (splitAux_none _ _ _ Hbar), append_nil_l.
  cbn [map hd tl scanParts]. rewrite trim_idem. cbn [fold_left].
  by destruct (lookupVar vs (trim name)) as [| |[|c r]].
Qed.

(** X29. A placeholder that is a name alone is replaced by the value of the
    name as it is: in a template made of a text without an opening brace, a
    placeholder whose inner text has no bar and no closing brace, and any
    rest, the text stays, the placeholder becomes the value filed under the
    trimmed name (nothing when the name is missing, null or empty), and the
    rest is filled on its own, the value not being scanned again. *)
Theorem fillTokens_substitutes (a name rest : string) (vs : vars) :
  allChars notOpen a = true →
  allChars nameChar name = true →
  fillTokens (a +:+ "{{" +:+ name +:+ "}}" +:+ rest) vs
  = a +:+ match lookupVar vs (trim name) with
          | Str (String c r) => String c r
          | _ => EmptyString
          end
      +:+ fillTokens rest vs.
Proof.
  intros Ha Hname.
  assert (Hbar : allChars (λ x, negb (Ascii.eqb x "|"%char)) name = true).
  { eapply allChars_weaken; [|exact Hname]. unfold nameChar.
    by intros c (H & _)%andb_true_iff. }
  assert (Hclose : allChars (λ x, negb (Ascii.eqb x "}"%char)) name = true).
  { eapply allChars_weaken; [|exact Hname]. unfold nameChar.
    by intros c (_ & H)%andb_true_iff. }
  set (t := a +:+ "{{" +:+ name +:+ "}}" +:+ rest).
  assert (Hdrop : sdrop (String.length a + 2) t = name +:+ "}}" +:+ rest).
  { unfold t. by rewrite <- sdrop_sdrop, sdrop_app_l. }
  assert (Hlen : (String.length a + 2 + String.length name + 2 ≤ String.length t)%nat).
  { unfold t. rewrite !length_app_string. simpl. lia. }
  assert (Hopen : indexOf "{{" t 0 = Some (String.length a)).
  { unfold indexOf, t. by apply (index0_skip "{"%char "{" a). }
  assert (Hend : indexOf "}}" t (String.length a + 2)
                 = Some (String.length a + 2 + String.length name)%nat).
  { unfold indexOf.
    rewrite <- (Nat.add_0_r (String.length a + 2)) at 1.
    rewrite index_sdrop by lia. rewrite Hdrop.
    by rewrite (index0_skip "}"%char "}" name rest Hclose). }
  rewrite (fillTokens_step t vs _ _ Hopen Hend).
  assert (H1 : slice t 0 (String.length a) = a).
  { unfold slice, t. rewrite Nat.sub_0_r. apply substring0_app. }
  assert (H2 : slice t (String.length a + 2) (String.length a + 2 + String.length name)
               = name).
  { unfold slice. rewrite substring_sdrop, Hdrop.
    replace (String.length a + 2 + String.length name - (String.length a + 2))%nat
      with (String.length name) by lia.
    apply substring0_app. }
  assert (H3 : sliceFrom t (String.length a + 2 + String.length name + 2) = rest).
  { rewrite sliceFrom_sdrop.
    replace (String.length a + 2 + String.length name + 2)%nat
      with ((String.length a + 2) + (String.length name + 2))%nat by lia.
    rewrite <- sdrop_sdrop, Hdrop, <- sdrop_sdrop, sdrop_app_l. done. }
  rewrite H1, H2, H3. by rewrite (expand_name name vs Hbar).
Qed.

(* ===================================================================== *)
(** ** More on enrolling *)
(* ===================================================================== *)

Import EnrollProps.













(* ===================================================================== *)
(** ** Text as HTML *)
(* ===================================================================== *)

Import Html.

Lemma replaceAll_app c by_ a b :
  replaceAll c by_ (a +:+ b) = replaceAll c by_ a +:+ replaceAll c by_ b.
Proof.
  induction a as [|x a IH]; [done|].
  rewrite append_cons. simpl. destruct (Ascii.eqb x c).
  - by rewrite IH, append_assoc.
  - by rewrite IH, append_cons.
Qed.

Lemma textToBasicHTML_cons c s :
  textToBasicHTML (String c s) = escapeChar c +:+ textToBasicHTML s.
Proof.
  unfold textToBasicHTML, escapeChar. cbn [replaceAll].
  destruct (Ascii.eqb_spec c "&"%char) as [->|H1].
  { by rewrite !replaceAll_app. }
  cbn [replaceAll].
  destruct (Ascii.eqb_spec c "<"%char) as [->|H2].
  { by rewrite !replaceAll_app. }
  cbn [replaceAll].
  destruct (Ascii.eqb_spec c ">"%char) as [->|H3].
  { by rewrite !replaceAll_app. }
  cbn [replaceAll].
  destruct (Ascii.eqb_spec c "010"%char) as [->|H4]; [done|].
  by rewrite append_cons, append_nil_l.
Qed.

Lemma textToBasicHTML_escapeAll s : textToBasicHTML s = escapeAll s.
Proof.
  induction s as [|c s IH]; [done|]. by rewrite textToBasicHTML_cons, IH.
Qed.

Lemma escapeAll_app a b : escapeAll (a +:+ b) = escapeAll a +:+ escapeAll b.
Proof.
  induction a as [|c a IH]; [done|].
  rewrite append_cons. simpl. by rewrite IH, append_assoc.
Qed.

Lemma escapeAll_inj : ∀ a b, escapeAll a = escapeAll b → a = b.
Proof.
  induction a as [|x a IH]; intros [|y b]; cbn [escapeAll]; unfold escapeChar.
  - done.
  - destruct (Ascii.eqb y "&"%char); [done|]. destruct (Ascii.eqb y "<"%char); [done|].
    destruct (Ascii.eqb y ">"%char); [done|]. by destruct (Ascii.eqb y "010"%char).
  - destruct (Ascii.eqb x "&"%char); [done|]. destruct (Ascii.eqb x "<"%char); [done|].
    destruct (Ascii.eqb x ">"%char); [done|]. by destruct (Ascii.eqb x "010"%char).
  - destruct (Ascii.eqb_spec x "&"%char) as [->|X1];
      [|destruct (Ascii.eqb_spec x "<"%char) as [->|X2];
        [|destruct (Ascii.eqb_spec x ">"%char) as [->|X3];
          [|destruct (Ascii.eqb_spec x "010"%char) as [->|X4]]]];
    (destruct (Ascii.eqb_spec y "&"%char) as [->|Y1];
      [|destruct (Ascii.eqb_spec y "<"%char) as [->|Y2];
        [|destruct (Ascii.eqb_spec y ">"%char) as [->|Y3];
          [|destruct (Ascii.eqb_spec y "010"%char) as [->|Y4]]]]);
    rewrite ?append_cons, ?append_nil_l; intros Heq;
    try (injection Heq as Hc Ht; try (by subst; congruence);
         try (f_equal; [congruence | by apply IH]));
    try (f_equal; apply IH; congruence).
Qed.

(** X25. [textToBasicHTML] escapes a text character by character: an
    ampersand, a less-than sign, a greater-than sign and a line feed become
    "&amp;", "&lt;", "&gt;" and "<br/>", every other character stays, so the
    later replacements never touch what the earlier ones wrote; the result
    of a concatenation is the concatenation of the results, a text with none
    of the four characters is returned as it is, and two different texts
    never give the same HTML. *)
Theorem textToBasicHTML_escapes :
  (∀ s, textToBasicHTML s = escapeAll s)
  ∧ (∀ a b, textToBasicHTML (a +:+ b) = textToBasicHTML a +:+ textToBasicHTML b)
  ∧ (∀ s, plainText s = true → textToBasicHTML s = s)
  ∧ (∀ a b, textToBasicHTML a = textToBasicHTML b → a = b).
Proof.
  split; [apply textToBasicHTML_escapeAll|]. split.
  { intros a b. rewrite !textToBasicHTML_escapeAll. apply escapeAll_app. }
  split.
  { intros s. rewrite textToBasicHTML_escapeAll. unfold plainText.
    induction s as [|c s IH]; [done|]. cbn [allChars escapeAll].
    intros [Hc Hs]%andb_true_iff. rewrite (IH Hs).
    unfold plainChar in Hc. unfold escapeChar.
    destruct (Ascii.eqb c "&"%char); [done|]. destruct (Ascii.eqb c "<"%char); [done|].
    destruct (Ascii.eqb c ">"%char); [done|]. destruct (Ascii.eqb c "010"%char); [done|].
    by rewrite append_cons, append_nil_l. }
  intros a b. rewrite !textToBasicHTML_escapeAll. apply escapeAll_inj.
Qed.

(* ===================================================================== *)
(** ** The routes *)
(* ===================================================================== *)

Import Routes.

(** A tick appends at most [B] rows to the send log and processes at most
    [B] enrollments. *)
Lemma marketingTick_batch h B w :
  0 <= B →
  ∃ extra,
    sends (db (finalWorld (marketingTick h B w))) = sends (db w) ++ extra
    ∧ Z.of_nat (length extra) <= B
    ∧ ∀ c w', marketingTick h B w = Ok c w' → processed c <= B.
Proof.
  intros HB.
  destruct (tickSetup_returns h B w)
    as (t & st & due & w0 & Hsetup & _ & _ & Hz & Hdue & _ & _ & _ & _ & Hse).
  rewrite (marketingTick_unfold _ _ _ _ _ _ _ Hsetup).
  destruct (tickLoop_log h t due st w0) as (sub & extra & Hsub & Hx & Hall & _).
  pose proof (selectDue_length (db w0) (now t) B HB) as Hlen. rewrite <- Hdue in Hlen.
  exists extra. split; [|split].
  - rewrite <- Hse. by destruct (tickLoop h t due st w0).
  - apply Forall2_length in Hall. apply sublist_length in Hsub. lia.
  - intros c w'. destruct (tickLoop h t due st w0) as [[f st'] w1|w1] eqn:Hl; [|done].
    intros [= <- <-]. apply tickLoop_counts in Hl as [Hp _].
    rewrite Hz in Hp. cbn in Hp. cbn [snd]. lia.
Qed.

Lemma toStr_Num_cons z : ∃ c r, toStr (Num z) = String c r.
Proof.
  destruct (toStr (Num z)) as [|c r] eqn:E; [|by eexists _, _].
  pose proof (Number_toStr z) as Hn. rewrite E in Hn.
  assert (z = 0) as -> by (by injection Hn). by vm_compute in E.
Qed.

(** X17. The tick route bounds the batch: the size it passes to the tick is
    the number of the parameter clamped to 1..200, and 50 when the parameter
    is missing or empty; whenever that size is a number the route answers
    (an exception of the tick becomes the answer 500), the tick it runs
    processes at most that many enrollments and, whether it returns or
    fails, appends at most that many rows to the send log. *)
Theorem tickRoute_bounded (h : Host) (w : World) :
  (∀ n, clampBatch (Some (toStr (Num n))) = Num (Z.max 1 (Z.min 200 n)))
  ∧ clampBatch None = Num 50
  ∧ clampBatch (Some EmptyString) = Num 50
  ∧ ∀ param b, clampBatch param = Num b →
      1 <= b <= 200
      ∧ ∃ a w' extra,
          tickRoute h param w = Ok (Some a) w'
          ∧ sends (db w') = sends (db w) ++ extra
          ∧ Z.of_nat (length extra) <= b
          ∧ ∀ c, a = TickStats c → processed c <= b.
Proof.
  split.
  { intros n. unfold clampBatch. destruct (toStr_Num_cons n) as (c & r & E).
    rewrite E, <- E, Number_toStr. reflexivity. }
  split; [done|]. split; [done|].
  intros param b Hb.
  assert (Hr : 1 <= b <= 200).
  { unfold clampBatch in Hb.
    destruct (match param with Some (String c r) => Number (String c r) | _ => Num 50 end);
      [done|]. simpl in Hb. injection Hb as <-. lia. }
  split; [done|].
  unfold tickRoute, bind, exec. rewrite Hb.
  set (w1 := setDb (ensureMarketingSchema (db w)) w).
  destruct (marketingTick_batch h b w1 ltac:(lia)) as (extra & Hx & Hlen & Hp).
  destruct (marketingTick h b w1) as [c w'|w'] eqn:Htick; cbn [finalWorld] in Hx.
  - exists (TickStats c), w', extra. split; [done|]. split; [done|]. split; [done|].
    intros c' [= <-]. by apply (Hp c w').
  - exists TickFailed, w', extra. split; [done|]. split; [done|]. split; [done|].
    intros c' [=].
Qed.

(* --------------------------------------------------------------------- *)
(** *** The webhook *)

Lemma setStatus_other status sqlNow id m :
  fromResend id m = false → setStatus status sqlNow id m = m.
Proof. intros H. unfold setStatus. by rewrite H. Qed.

Lemma setStatus_fields status sqlNow id m :
  m_id (setStatus status sqlNow id m) = m_id m
  ∧ m_contact_id (setStatus status sqlNow id m) = m_contact_id m
  ∧ m_campaign_id (setStatus status sqlNow id m) = m_campaign_id m
  ∧ m_step_order (setStatus status sqlNow id m) = m_step_order m
  ∧ m_provider (setStatus status sqlNow id m) = m_provider m
  ∧ m_provider_id (setStatus status sqlNow id m) = m_provider_id m
  ∧ m_subject (setStatus status sqlNow id m) = m_subject m
  ∧ m_body (setStatus status sqlNow id m) = m_body m
  ∧ m_to_email (setStatus status sqlNow id m) = m_to_email m
  ∧ m_meta (setStatus status sqlNow id m) = m_meta m
  ∧ m_sent_at (setStatus status sqlNow id m) = m_sent_at m.
Proof. unfold setStatus. by destruct (fromResend id m). Qed.

Lemma fromResend_setStatus status sqlNow id m :
  fromResend id (setStatus status sqlNow id m) = fromResend id m.
Proof. unfold setStatus. by destruct (fromResend id m) eqn:E. Qed.

Lemma find_setStatus status sqlNow id l :
  List.find (fromResend id) (map (setStatus status sqlNow id) l)
  = setStatus status sqlNow id <$> List.find (fromResend id) l.
Proof.
  induction l as [|m l IH]; [done|]. simpl.
  rewrite fromResend_setStatus. by destruct (fromResend id m).
Qed.

(** What the webhook does, for a status [status] of the map and a provider
    id [id] that is not empty. *)
Lemma resendWebhook_own type status id sqlNow w :
  statusMap type = Own status → truthy (Some id) = true →
  ∃ added w',
    resendWebhook type (Some id) sqlNow w = Ok (Some tt) w'
    ∧ db w' = setSuppressions (λ l, l ++ added)
                (setSends (map (setStatus status sqlNow id)) (db w))
    ∧ added
      = if String.eqb status "bounced" || String.eqb status "complained" then
          match List.find (fromResend id) (sends (db w)) with
          | Some m => if truthy (Some (m_contact_id m)) then [m_contact_id m] else []
          | None => []
          end
        else [].
Proof.
  intros Hmap Hid. unfold resendWebhook. rewrite Hmap.
  destruct id as [|c r]; [done|]. unfold bind, exec, query, ret, randomUUID.
  assert (Hnone : ∀ d, setSuppressions (λ l, l ++ []) d = d).
  { intros []. unfold setSuppressions. cbn. by rewrite app_nil_r. }
  destruct (String.eqb status "bounced" || String.eqb status "complained").
  - assert (Hs : ∀ f, sends (db (setDb (setSends f (db w)) w)) = f (sends (db w)))
      by done.
    rewrite Hs, find_setStatus.
    destruct (List.find (fromResend (String c r)) (sends (db w))) as [m|];
      cbn [fmap option_fmap option_map].
    + destruct (setStatus_fields status sqlNow (String c r) m) as (_ & -> & _).
      destruct (truthy (Some (m_contact_id m))).
      * eexists _, _. split; [reflexivity|]. split; reflexivity.
      * exists [], (setDb (setSends (map (setStatus status sqlNow (String c r))) (db w)) w).
        split; [reflexivity|]. split; [|reflexivity]. by rewrite Hnone.
    + exists [], (setDb (setSends (map (setStatus status sqlNow (String c r))) (db w)) w).
      split; [reflexivity|]. split; [|reflexivity]. by rewrite Hnone.
  - exists [], (setDb (setSends (map (setStatus status sqlNow (String c r))) (db w)) w).
    split; [reflexivity|]. split; [|reflexivity]. by rewrite Hnone.
Qed.

(** X18. What the webhook may change.  An event whose type is not in the
    map, or that carries no provider id, is acknowledged and changes
    nothing.  Otherwise the handler answers and only touches the send log and
    the suppression list: campaigns' steps, enrollments, contacts and
    configuration stay; the send log keeps its rows in place, a row not from
    "resend" with that provider id is untouched and a matching row changes
    in its status, which becomes the mapped one, and its update time only;
    the suppression list keeps its entries and gains at most one. *)
Theorem resendWebhook_scope (type : string) (id : option string) (sqlNow : Z) (w : World) :
  (statusMap type = Missing ∨ truthy id = false →
     resendWebhook type id sqlNow w = Ok (Some tt) w)
  ∧ ∀ status i, statusMap type = Own status → id = Some i → truthy id = true →
      ∃ w' added,
        resendWebhook type id sqlNow w = Ok (Some tt) w'
        ∧ steps (db w') = steps (db w)
        ∧ enrollments (db w') = enrollments (db w)
        ∧ contacts (db w') = contacts (db w)
        ∧ config (db w') = config (db w)
        ∧ suppressions (db w') = suppressions (db w) ++ added
        ∧ (length added ≤ 1)%nat
        ∧ (added ≠ [] → status = "bounced" ∨ status = "complained")
        ∧ sends (db w') = map (setStatus status sqlNow i) (sends (db w))
        ∧ Forall2 (λ m m',
             if fromResend i m
             then m_status m' = status ∧ m_updated_at m' = sqlNow
                  ∧ m_id m' = m_id m ∧ m_contact_id m' = m_contact_id m
                  ∧ m_campaign_id m' = m_campaign_id m
                  ∧ m_step_order m' = m_step_order m
                  ∧ m_to_email m' = m_to_email m ∧ m_sent_at m' = m_sent_at m
             else m' = m) (sends (db w)) (sends (db w')).
Proof.
  split.
  { intros [Hm | Hid]; unfold resendWebhook.
    - by rewrite Hm.
    - destruct (statusMap type); destruct id as [[|c r]|]; done. }
  intros status i Hmap -> Hid.
  destruct (resendWebhook_own type status i sqlNow w Hmap Hid)
    as (added & w' & Hret & Hdb & Hadd).
  exists w', added. split; [exact Hret|]. rewrite Hdb.
  cbn [setSuppressions setSends steps enrollments contacts config
       suppressions sends].
  split; [done|]. split; [done|]. split; [done|]. split; [done|]. split; [done|].
  split.
  { rewrite Hadd. destruct (_ || _); [|simpl; lia].
    destruct (List.find _ _) as [m|]; [|simpl; lia].
    destruct (truthy (Some (m_contact_id m))); simpl; lia. }
  split.
  { rewrite Hadd. intros Hne.
    destruct (String.eqb_spec status "bounced") as [->|_]; [by left|].
    destruct (String.eqb_spec status "complained") as [->|_]; [by right|]. done. }
  split; [done|].
  apply Forall2_fmap_r, Forall_Forall2_diag, Forall_forall. intros m _.
  unfold compose, setStatus. cbn beta. destruct (fromResend i m); [by cbn | done].
Qed.

(* --------------------------------------------------------------------- *)
(** *** A bounce ends the mail to a contact *)

Lemma suppressed_elem d k : k ∈ suppressions d → suppressed d k = true.
Proof.
  intros Hk. unfold suppressed. apply existsb_exists. exists k.
  split; [by apply list_elem_of_In | apply String.eqb_refl].
Qed.

(** Ticks keep the suppression list, and log nothing for a contact in it. *)
Lemma runTicks_suppressed k l : ∀ w,
  k ∈ suppressions (db w) →
  suppressions (db (runTicks l w)) = suppressions (db w)
  ∧ ∃ extra, sends (db (runTicks l w)) = sends (db w) ++ extra
             ∧ Forall (λ m, m_contact_id m ≠ k) extra.
Proof.
  induction l as [|[h B] l IH]; intros w Hk.
  { split; [done|]. exists []. by rewrite app_nil_r. }
  cbn [runTicks].
  destruct (tickSetup_returns h B w) as (t & st & due & w0 & Hsetup & _).
  destruct (marketingTick_frame h B w t st due w0 Hsetup) as [_ Hsu _ _ _ _].
  destruct (marketingTick_sends h B w) as (x1 & Hx1 & Hf1).
  set (w1 := finalWorld (marketingTick h B w)) in *.
  destruct (IH w1) as (Hsu2 & x2 & Hx2 & Hf2); [by rewrite Hsu|].
  split; [by rewrite Hsu2|].
  exists (x1 ++ x2). split; [by rewrite Hx2, Hx1, app_assoc|].
  apply Forall_app. split; [|done].
  eapply Forall_impl; [exact Hf1|]. intros m Hm Heq. cbn beta in Hm.
  rewrite Heq in Hm. by rewrite (suppressed_elem _ _ Hk) in Hm.
Qed.

(** X19. A bounce or a complaint ends the mail to a contact: when the
    webhook receives [email.bounced] or [email.complained] with the provider
    id of a row of the send log from "resend", the contact of the first such
    row is on the suppression list afterwards, and no tick run later, by any
    host with any batch size, appends a row for that contact to the send
    log. *)
Theorem bounce_ends_mail (type id : string) (sqlNow : Z) (w : World) (m : Send) :
  type = "email.bounced" ∨ type = "email.complained" →
  truthy (Some id) = true →
  List.find (fromResend id) (sends (db w)) = Some m →
  truthy (Some (m_contact_id m)) = true →
  ∃ w',
    resendWebhook type (Some id) sqlNow w = Ok (Some tt) w'
    ∧ suppressed (db w') (m_contact_id m) = true
    ∧ ∀ ticks : list (Host * Z),
        ∃ extra, sends (db (runTicks ticks w')) = sends (db w') ++ extra
                 ∧ Forall (λ m', m_contact_id m' ≠ m_contact_id m) extra.
Proof.
  intros Htype Hid Hfind Hk.
  assert (Hmap : ∃ status, statusMap type = Own status
            ∧ String.eqb status "bounced" || String.eqb status "complained" = true).
  { destruct Htype as [-> | ->]; eexists; split; reflexivity. }
  destruct Hmap as (status & Hmap & Hb).
  destruct (resendWebhook_own type status id sqlNow w Hmap Hid)
    as (added & w' & Hret & Hdb & Hadd).
  rewrite Hb, Hfind, Hk in Hadd. subst added.
  exists w'. split; [exact Hret|].
  assert (Hin : m_contact_id m ∈ suppressions (db w')).
  { rewrite Hdb. cbn. apply elem_of_app. right. by left. }
  split; [by apply suppressed_elem|].
  intros ticks. by destruct (runTicks_suppressed _ ticks _ Hin) as (_ & Hx).
Qed.

(* --------------------------------------------------------------------- *)
(** *** The enroll route *)






(* ===================================================================== *)
(** ** Creating campaigns *)
(* ===================================================================== *)

Import Campaigns.

Lemma find_app_none {T} (p : T → bool) l1 l2 :
  (∀ x, x ∈ l1 → p x = false) → List.find p (l1 ++ l2) = List.find p l2.
Proof.
  induction l1 as [|x l1 IH]; intros Hall; [done|]. simpl.
  rewrite (Hall x) by by left. apply IH. intros y Hy. apply Hall. by right.
Qed.

Lemma find_app_keep {T} (p : T → bool) l1 l2 :
  (∀ x, x ∈ l2 → p x = false) → List.find p (l1 ++ l2) = List.find p l1.
Proof.
  intros Hall. induction l1 as [|x l1 IH]; simpl.
  - destruct (List.find p l2) as [y|] eqn:E; [|done].
    apply List.find_some in E as (Hy & Hp). apply list_elem_of_In in Hy.
    by rewrite (Hall y Hy) in Hp.
  - by destruct (p x).
Qed.

Lemma numbered_cons campaignId i s rest :
  numbered campaignId i (s :: rest)
  = stepRow campaignId i s :: numbered campaignId (i + 1) rest.
Proof.
  unfold numbered. rewrite imap_cons. f_equal; [by rewrite Z.add_0_r|].
  apply imap_ext. intros j x _. cbn. f_equal. lia.
Qed.

Lemma insStep_free row w :
  existsb (sameSlot row) (steps (db w)) = false →
  insStep row w = Ok tt (setDb (setSteps (λ l, l ++ [row]) (db w)) w).
Proof. intros H. unfold insStep. by rewrite H. Qed.

Lemma insStep_taken row w :
  existsb (sameSlot row) (steps (db w)) = true → insStep row w = Thrown w.
Proof. intros H. unfold insStep. by rewrite H. Qed.

Lemma insertSteps_cons h campaignId s rest i w :
  insertSteps h campaignId (s :: rest) i w
  = match insStep (stepRow campaignId i s) (bumpIds w) with
    | Ok _ w1 => insertSteps h campaignId rest (i + 1) w1
    | Thrown w1 => Thrown w1
    end.
Proof. reflexivity. Qed.

Lemma sameSlot_free campaignId i s l :
  i_step_order s = None →
  (∀ x, x ∈ l → s_campaign_id x = campaignId → s_step_order x <= i) →
  existsb (sameSlot (stepRow campaignId i s)) l = false.
Proof.
  intros Hs Hall. apply not_true_is_false. intros Hex.
  apply existsb_exists in Hex as (x & Hx & Hslot). apply list_elem_of_In in Hx.
  unfold sameSlot in Hslot. apply andb_true_iff in Hslot as (Hc & Ho).
  apply String.eqb_eq in Hc. apply Z.eqb_eq in Ho.
  cbn in Hc, Ho. unfold orderOf in Ho. rewrite Hs in Ho.
  specialize (Hall x Hx Hc). lia.
Qed.

(** Inputs that leave the order to their position are all written, with
    the orders that follow [i]. *)
Lemma insertSteps_default h campaignId inputs : ∀ i w,
  Forall (λ s, i_step_order s = None) inputs →
  (∀ x, x ∈ steps (db w) → s_campaign_id x = campaignId → s_step_order x <= i) →
  ∃ w', insertSteps h campaignId inputs i w = Ok tt w'
        ∧ steps (db w') = steps (db w) ++ numbered campaignId i inputs
        ∧ enrollments (db w') = enrollments (db w)
        ∧ sends (db w') = sends (db w)
        ∧ suppressions (db w') = suppressions (db w)
        ∧ contacts (db w') = contacts (db w)
        ∧ config (db w') = config (db w).
Proof.
  induction inputs as [|s rest IH]; intros i w Hnone Hfree.
  { exists w. cbn. unfold ret. by rewrite app_nil_r. }
  apply Forall_cons in Hnone as (Hs & Hnone).
  rewrite insertSteps_cons, insStep_free by (by apply sameSlot_free).
  set (w1 := setDb _ (bumpIds w)).
  destruct (IH (i + 1) w1 Hnone) as (w' & Hret & Hsteps & Hrest).
  { subst w1. cbn [db setDb setSteps steps bumpIds].
    intros x [Hx|Hx]%elem_of_app Hc.
    - specialize (Hfree x Hx Hc). lia.
    - apply list_elem_of_singleton in Hx. subst x. cbn. unfold orderOf.
      rewrite Hs. lia. }
  exists w'. split; [done|]. split; [|exact Hrest].
  rewrite Hsteps, numbered_cons. subst w1. cbn [db setDb setSteps steps bumpIds].
  by rewrite <- app_assoc.
Qed.

Lemma stepQuery_numbered_other campaignId c k i inputs :
  c ≠ campaignId →
  ∀ x, x ∈ numbered campaignId i inputs →
    String.eqb (s_campaign_id x) c && (s_step_order x =? k) = false.
Proof.
  intros Hne x Hx. unfold numbered in Hx.
  apply elem_of_lookup_imap in Hx as (j & s & -> & _). cbn.
  by destruct (String.eqb_spec campaignId c) as [->|_].
Qed.

Lemma find_numbered_some campaignId inputs : ∀ i j s,
  Forall (λ s, i_step_order s = None) inputs →
  inputs !! j = Some s →
  List.find (λ x, String.eqb (s_campaign_id x) campaignId
                  && (s_step_order x =? i + Z.of_nat j + 1))
            (numbered campaignId i inputs)
  = Some (stepRow campaignId (i + Z.of_nat j) s).
Proof.
  induction inputs as [|s0 rest IH]; intros i j s Hnone Hj; [done|].
  apply Forall_cons in Hnone as (Hs0 & Hnone).
  rewrite numbered_cons. cbn [List.find]. cbn [stepRow s_campaign_id s_step_order].
  rewrite String.eqb_refl. unfold orderOf at 1. rewrite Hs0. cbn [andb].
  destruct j as [|j].
  - injection Hj as ->. cbn [Z.of_nat]. by rewrite !Z.add_0_r, Z.eqb_refl.
  - destruct (Z.eqb_spec (i + 1) (i + Z.of_nat (S j) + 1)) as [Heq|_]; [lia|].
    replace (i + Z.of_nat (S j)) with (i + 1 + Z.of_nat j) by lia.
    by apply IH.
Qed.

Lemma find_numbered_none campaignId inputs : ∀ i k,
  Forall (λ s, i_step_order s = None) inputs →
  k <= i ∨ i + Z.of_nat (length inputs) < k →
  List.find (λ x, String.eqb (s_campaign_id x) campaignId && (s_step_order x =? k))
            (numbered campaignId i inputs) = None.
Proof.
  induction inputs as [|s0 rest IH]; intros i k Hnone Hk; [done|].
  apply Forall_cons in Hnone as (Hs0 & Hnone).
  rewrite numbered_cons. cbn [List.find]. cbn [stepRow s_campaign_id s_step_order].
  rewrite String.eqb_refl. unfold orderOf at 1. rewrite Hs0. cbn [andb].
  simpl length in Hk. rewrite Nat2Z.inj_succ in Hk.
  destruct (Z.eqb_spec (i + 1) k) as [Heq|_]; [lia|].
  apply IH; [done | lia].
Qed.

(** The state [createCampaign] inserts its rows in. *)
Lemma createCampaign_unfold h name description inputs s :
  let w1 := bumpIds (bumpDates (setDb (ensureMarketingSchema (db (world s))) (world s))) in
  let k := mkCampaign (newCampaignId h s) name description "active"
             (creationTime h s) (creationTime h s) in
  createCampaign h name description inputs s
  = if existsb (taken k) (campaigns s) then Throws (mkStore (campaigns s) w1)
    else match insertSteps h (newCampaignId h s) inputs 0 w1 with
         | Ok _ w2 => Returns (newCampaignId h s) (mkStore (campaigns s ++ [k]) w2)
         | Thrown w2 => Throws (mkStore (campaigns s ++ [k]) w2)
         end.
Proof.
  cbn zeta. unfold createCampaign, liftM, createSetup. unfold_monad.
  cbn [world campaigns]. unfold newCampaignId, creationTime.
  cbn [nIds nDates bumpDates setDb].
  destruct (existsb _ (campaigns s)); [done|].
  by destruct (insertSteps _ _ _ _ _).
Qed.

Lemma taken_free k cs :
  k_name k ∉ map k_name cs → k_id k ∉ map k_id cs → existsb (taken k) cs = false.
Proof.
  intros Hn Hi. apply not_true_is_false. intros Hex.
  apply existsb_exists in Hex as (x & Hx & Ht). apply list_elem_of_In in Hx.
  unfold taken in Ht. apply orb_true_iff in Ht as [Ht|Ht]; apply String.eqb_eq in Ht.
  - apply Hi. rewrite <- Ht. apply list_elem_of_fmap. by exists x.
  - apply Hn. rewrite <- Ht. apply list_elem_of_fmap. by exists x.
Qed.

(** X21. A campaign created from steps that leave [step_order] out gets
    them numbered 1, 2, ... in the order given: when the name and the id
    are new, [createCampaign] returns the id, adds the campaign as active,
    and afterwards the query the scheduler uses finds, under that id, the
    [k]-th step given at the order [k], with a missing delay or weight as 0,
    a missing subject or body as the empty text and an empty alternate
    subject or body as none; it finds no step at an order outside 1..n, and
    finds the steps of every other campaign as before; enrollments, send
    log, suppressions and contacts are untouched. *)
Theorem createCampaign_numbers_steps (h : Host) (name description : string)
    (inputs : list StepInput) (s : Store) :
  creatable h name s →
  Forall (λ i, i_step_order i = None) inputs →
  ∃ s',
    createCampaign h name description inputs s = Returns (newCampaignId h s) s'
    ∧ campaigns s'
      = campaigns s ++ [mkCampaign (newCampaignId h s) name description "active"
                          (creationTime h s) (creationTime h s)]
    ∧ (∀ j input, inputs !! j = Some input →
         stepQuery (db (world s')) (newCampaignId h s) (Z.of_nat j + 1)
         = Some (stepRow (newCampaignId h s) (Z.of_nat j) input))
    ∧ (∀ k, k < 1 ∨ Z.of_nat (length inputs) < k →
         stepQuery (db (world s')) (newCampaignId h s) k = None)
    ∧ (∀ c k, c ≠ newCampaignId h s →
         stepQuery (db (world s')) c k = stepQuery (db (world s)) c k)
    ∧ enrollments (db (world s')) = enrollments (db (world s))
    ∧ sends (db (world s')) = sends (db (world s))
    ∧ suppressions (db (world s')) = suppressions (db (world s))
    ∧ contacts (db (world s')) = contacts (db (world s)).
Proof.
  intros (Hname & Hid & Hsteps) Hnone.
  rewrite createCampaign_unfold. cbn zeta.
  rewrite taken_free by done.
  set (w1 := bumpIds _).
  destruct (insertSteps_default h (newCampaignId h s) inputs 0 w1 Hnone)
    as (w2 & Hret & Hrows & Hen & Hse & Hsu & Hco & _).
  { intros x Hx Hc. by apply Hsteps in Hx. }
  rewrite Hret. eexists. split; [reflexivity|]. cbn [campaigns world].
  split; [done|].
  assert (Hold : ∀ x, x ∈ steps (db w1) → ∀ k,
            String.eqb (s_campaign_id x) (newCampaignId h s) && (s_step_order x =? k)
            = false).
  { intros x Hx k. apply Hsteps in Hx.
    by destruct (String.eqb_spec (s_campaign_id x) (newCampaignId h s)). }
  split.
  { intros j input Hj. unfold stepQuery. rewrite Hrows.
    rewrite find_app_none by (intros x Hx; by apply Hold).
    by rewrite <- (find_numbered_some _ inputs 0 j input Hnone Hj). }
  split.
  { intros k Hk. unfold stepQuery. rewrite Hrows.
    rewrite find_app_none by (intros x Hx; by apply Hold).
    apply find_numbered_none; [done | lia]. }
  split.
  { intros c k Hc. unfold stepQuery. rewrite Hrows.
    rewrite find_app_keep; [done|]. by apply stepQuery_numbered_other. }
  done.
Qed.

(* --------------------------------------------------------------------- *)
(** *** The campaigns route *)

Lemma campaignsPost_unfold h c r description inputs s :
  campaignsPost h (Some (String c r)) description inputs s
  = match createCampaign h (String c r) description inputs
            (mkStore (campaigns s)
               (setDb (ensureMarketingSchema (db (world s))) (world s))) with
    | Returns id s2 => Returns (Created id) s2
    | Throws s2 => Returns CreateFailed s2
    end.
Proof. reflexivity. Qed.

(** X22. The campaigns route does not undo a creation that fails.  Without
    a name it answers 400 and writes no campaign and no step.  With a name
    that a campaign already has it answers 500 and writes no campaign and no
    step.  With a new name and two first steps that ask for the same order it
    answers 500 too, but the campaign and its first step have been written
    and stay. *)
Theorem campaignsPost_no_rollback (h : Host) (description : string) (s : Store) :
  (∀ name inputs, truthy name = false →
     ∃ s', campaignsPost h name description inputs s = Returns NameRequired s'
           ∧ campaigns s' = campaigns s
           ∧ steps (db (world s')) = steps (db (world s)))
  ∧ (∀ name inputs, truthy (Some name) = true → name ∈ map k_name (campaigns s) →
     ∃ s', campaignsPost h (Some name) description inputs s = Returns CreateFailed s'
           ∧ campaigns s' = campaigns s
           ∧ steps (db (world s')) = steps (db (world s)))
  ∧ (∀ name a b rest, truthy (Some name) = true → creatable h name s →
     orderOf 0 a = orderOf 1 b →
     ∃ s', campaignsPost h (Some name) description (a :: b :: rest) s
           = Returns CreateFailed s'
           ∧ campaigns s'
             = campaigns s ++ [mkCampaign (newCampaignId h s) name description "active"
                                 (creationTime h s) (creationTime h s)]
           ∧ steps (db (world s'))
             = steps (db (world s)) ++ [stepRow (newCampaignId h s) 0 a]).
Proof.
  split; [|split].
  - intros name inputs Hname. eexists. split.
    + unfold campaignsPost, liftM, exec. by destruct name as [[|c r]|].
    + done.
  - intros [|c r] inputs Hname Hin; [done|].
    rewrite campaignsPost_unfold, createCampaign_unfold. cbn zeta.
    cbn [campaigns world].
    assert (Htaken : ∀ k, k_name k = String c r → existsb (taken k) (campaigns s) = true).
    { intros k Hk. apply list_elem_of_fmap in Hin as (x & Hx & Hin).
      apply existsb_exists. exists x. split; [by apply list_elem_of_In|].
      unfold taken. rewrite <- Hx, Hk, String.eqb_refl. apply orb_true_r. }
    rewrite Htaken by done. eexists. split; [reflexivity|]. done.
  - intros [|c r] a b rest Hname (Hn & Hi & Hsteps) Hsame; [done|].
    rewrite campaignsPost_unfold, createCampaign_unfold. cbn zeta.
    cbn [campaigns world].
    change (newCampaignId h (mkStore (campaigns s)
              (setDb (ensureMarketingSchema (db (world s))) (world s))))
      with (newCampaignId h s).
    change (creationTime h (mkStore (campaigns s)
              (setDb (ensureMarketingSchema (db (world s))) (world s))))
      with (creationTime h s).
    rewrite taken_free by done.
    rewrite insertSteps_cons, insStep_free.
    2: { apply not_true_is_false. intros Hex.
         apply existsb_exists in Hex as (x & Hx & Hslot). apply list_elem_of_In in Hx.
         unfold sameSlot in Hslot. apply andb_true_iff in Hslot as (Hc & _).
         apply String.eqb_eq in Hc. by apply (Hsteps x Hx). }
    rewrite insertSteps_cons, insStep_taken.
    2: { apply existsb_exists. exists (stepRow (newCampaignId h s) 0 a).
         split; [apply list_elem_of_In, elem_of_app; right; by left|].
         unfold sameSlot. cbn [stepRow s_campaign_id s_step_order].
         rewrite String.eqb_refl, Hsame, Z.eqb_refl. done. }
    eexists. split; [reflexivity|]. done.
Qed.

(* ===================================================================== *)
(** ** The further properties, on the scenarios *)
(* ===================================================================== *)

Import Scenes.


Lemma marketingTick_one_step_witness :
  ∃ row', enrollmentById (db (finalWorld (marketingTick noonHost 50 mixedWorld))) "e1"
          = Some row'
          ∧ rowStep (enrolled "e1" "c1" 1 T0) row'.
Proof.
  apply (marketingTick_one_step noonHost 50 mixedWorld "e1" (enrolled "e1" "c1" 1 T0)).
  - distinct_ids.
  - vm_compute. reflexivity.
Defined.


Lemma marketingTick_counts_match_log_witness :
  ∃ extra,
    sends (db (finalWorld (marketingTick failingHost 50 plainWorld)))
    = sends (db plainWorld) ++ extra
    ∧ sent (counts (loopAfter failingHost 50 plainWorld 3)) = sentRows extra
    ∧ queued (counts (loopAfter failingHost 50 plainWorld 3))
      = Z.of_nat (length extra) - sentRows extra.
Proof.
  apply (marketingTick_counts_match_log failingHost 50 plainWorld).
  vm_compute. reflexivity.
Defined.


Lemma deferral_lands_in_window_witness :
  evening < tomorrowAt 0 evening 9
  ∧ withinQuietHours 0 (tomorrowAt 0 evening 9) "09" "18" = true.
Proof.
  apply (deferral_lands_in_window 0 evening "09" "18" 9 18).
  - vm_compute. reflexivity.
  - vm_compute. reflexivity.
  - lia.
  - lia.
Defined.

Lemma fillTokens_leaves_text_witness :
  fillTokens "Hello {{ first_name" {["first_name" := Str "Alicia"]}
  = "Hello {{ first_name".
Proof.
  apply (fillTokens_leaves_text "Hello {{ first_name").
  right. exists 6%nat. split; vm_compute; reflexivity.
Defined.



Lemma bounce_ends_mail_witness :
  ∃ w',
    resendWebhook "email.bounced" (Some "msg_1") (noon + 1) sentWorld = Ok (Some tt) w'
    ∧ suppressed (db w') (m_contact_id bouncedRow) = true
    ∧ ∀ ticks : list (Host * Z),
        ∃ extra, sends (db (runTicks ticks w')) = sends (db w') ++ extra
                 ∧ Forall (λ m', m_contact_id m' ≠ m_contact_id bouncedRow) extra.
Proof.
  apply (bounce_ends_mail "email.bounced" "msg_1" (noon + 1) sentWorld bouncedRow).
  - by left.
  - reflexivity.
  - vm_compute. reflexivity.
  - vm_compute. reflexivity.
Defined.

Lemma createCampaign_numbers_steps_witness :
  ∃ s',
    createCampaign noonHost "onboarding" "two steps" twoSteps firstStore
    = Returns (newCampaignId noonHost firstStore) s'
    ∧ campaigns s'
      = campaigns firstStore
        ++ [mkCampaign (newCampaignId noonHost firstStore) "onboarding" "two steps" "active"
              (creationTime noonHost firstStore) (creationTime noonHost firstStore)]
    ∧ (∀ j input, twoSteps !! j = Some input →
         stepQuery (db (world s')) (newCampaignId noonHost firstStore) (Z.of_nat j + 1)
         = Some (stepRow (newCampaignId noonHost firstStore) (Z.of_nat j) input))
    ∧ (∀ k, k < 1 ∨ Z.of_nat (length twoSteps) < k →
         stepQuery (db (world s')) (newCampaignId noonHost firstStore) k = None)
    ∧ (∀ c k, c ≠ newCampaignId noonHost firstStore →
         stepQuery (db (world s')) c k = stepQuery (db (world firstStore)) c k)
    ∧ enrollments (db (world s')) = enrollments (db (world firstStore))
    ∧ sends (db (world s')) = sends (db (world firstStore))
    ∧ suppressions (db (world s')) = suppressions (db (world firstStore))
    ∧ contacts (db (world s')) = contacts (db (world firstStore)).
Proof.
  apply (createCampaign_numbers_steps noonHost "onboarding" "two steps" twoSteps firstStore).
  - split; [|split].
    + apply (bool_decide_unpack _). vm_compute. exact I.
    + apply (bool_decide_unpack _). vm_compute. exact I.
    + apply Forall_forall. apply (bool_decide_unpack _). vm_compute. exact I.
  - repeat constructor.
Defined.


Lemma runTicks_progress_witness :
  ∃ row', enrollmentById (db (runTicks [(noonHost, 50); (eveningHost, 1)] mixedWorld)) "e1"
          = Some row'
          ∧ rowPath (length [(noonHost, 50); (eveningHost, 1)]) (enrolled "e1" "c1" 1 T0) row'
          ∧ (e_status (enrolled "e1" "c1" 1 T0) ≠ active → row' = enrolled "e1" "c1" 1 T0).
Proof.
  apply (runTicks_progress [(noonHost, 50); (eveningHost, 1)] mixedWorld "e1"
           (enrolled "e1" "c1" 1 T0)).
  - distinct_ids.
  - vm_compute. reflexivity.
Defined.

Lemma marketingTick_nothing_due_witness :
  ∃ w', marketingTick noonHost 0 plainWorld = Ok zeroCounts w'
        ∧ enrollments (db w') = enrollments (db plainWorld)
        ∧ sends (db w') = sends (db plainWorld)
        ∧ steps (db w') = steps (db plainWorld)
        ∧ suppressions (db w') = suppressions (db plainWorld)
        ∧ contacts (db w') = contacts (db plainWorld).
Proof.
  apply (marketingTick_nothing_due noonHost 0 plainWorld). vm_compute. reflexivity.
Defined.

Lemma fillTokens_substitutes_witness :
  fillTokens ("Dear " +:+ "{{" +:+ " first_name " +:+ "}}" +:+ ", {{x}} {{y|z}}")
    {["first_name" := Str "{{x}} & co"]}
  = "Dear "
    +:+ match lookupVar {["first_name" := Str "{{x}} & co"]} (trim " first_name ") with
        | Str (String c r) => String c r
        | _ => EmptyString
        end
    +:+ fillTokens ", {{x}} {{y|z}}" {["first_name" := Str "{{x}} & co"]}.
Proof.
  apply (fillTokens_substitutes "Dear " " first_name " ", {{x}} {{y|z}}").
  - reflexivity.
  - reflexivity.
Defined.
